(** * SQL statement splitter (sql-parser): shallow embedding and properties

    The TypeScript module exports the table [SQL_PARSER_CONFIGS] and the
    function [splitStatements].  A JavaScript string is a sequence of UTF-16
    code units; it is modelled as a list of code units ([N]).  The cursor
    [i] is a natural number, [sql[i]] is [charAt] (an out-of-range index
    gives [None], JavaScript's [undefined]).  Every [while] loop of the
    source is an instance of the combinator [while], which carries fuel and
    answers [None] only when the fuel is used up; the totality lemmas show
    that this never happens with the fuel [splitStatements] passes. *)

From Stdlib Require Import String Ascii NArith Arith Bool Lia List.
Import ListNotations.
Local Open Scope nat_scope.

(** ** Strings as sequences of UTF-16 code units *)

Definition jsstring : Type := list N.

(** An ASCII literal as a JavaScript string. *)
Definition lit (s : string) : jsstring :=
  map N_of_ascii (list_ascii_of_string s).

Definition c_squote : N := 39%N.
Definition c_dquote : N := 34%N.
Definition c_backtick : N := 96%N.
Definition c_lbracket : N := 91%N.
Definition c_rbracket : N := 93%N.
Definition c_dollar : N := 36%N.
Definition c_hash : N := 35%N.
Definition c_dash : N := 45%N.
Definition c_slash : N := 47%N.
Definition c_star : N := 42%N.
Definition c_semicolon : N := 59%N.
Definition c_backslash : N := 92%N.
Definition c_newline : N := 10%N.
Definition c_underscore : N := 95%N.

(** [sql[k]]: the code unit at index [k], or [undefined]. *)
Definition charAt (s : jsstring) (k : nat) : option N := nth_error s k.

(** [x === c] for [x] the result of an index expression and [c] a
    one-character literal; [undefined] equals no character. *)
Definition isChar (c : N) (x : option N) : bool :=
  match x with
  | Some y => N.eqb y c
  | None => false
  end.

(** [buf += x] for [x] the result of an index expression: string
    concatenation coerces [undefined] to the nine characters of its name. *)
Definition append (buf : jsstring) (x : option N) : jsstring :=
  match x with
  | Some y => buf ++ [y]
  | None => buf ++ lit "undefined"
  end.

(** [s.substring(a, b)]: both indices are clamped to the length and
    swapped when out of order. *)
Definition substring (s : jsstring) (a b : nat) : jsstring :=
  let a' := Nat.min a (length s) in
  let b' := Nat.min b (length s) in
  firstn (Nat.max a' b' - Nat.min a' b') (skipn (Nat.min a' b') s).

(** [s.substring(a)]. *)
Definition substringFrom (s : jsstring) (a : nat) : jsstring :=
  substring s a (length s).

Fixpoint startsWith (s search : jsstring) : bool :=
  match search, s with
  | [], _ => true
  | _ :: _, [] => false
  | c :: search', d :: s' => N.eqb d c && startsWith s' search'
  end.

Fixpoint indexOf_aux (s search : jsstring) (k : nat) : option nat :=
  if startsWith s search then Some k
  else match s with
       | [] => None
       | _ :: s' => indexOf_aux s' search (S k)
       end.

(** [s.indexOf(search, from)]: the least index [k >= from] at which
    [search] occurs in [s]; [None] stands for [-1]. *)
Definition indexOf (s search : jsstring) (from : nat) : option nat :=
  let from' := Nat.min from (length s) in
  indexOf_aux (skipn from' s) search from'.

(** [s.endsWith(c)] for a one-character [c]. *)
Definition endsWith (s : jsstring) (c : N) : bool :=
  match rev s with
  | d :: _ => N.eqb d c
  | [] => false
  end.

(** The code units [String.prototype.trim] strips: ECMAScript WhiteSpace
    and LineTerminator. *)
Definition isWhiteSpace (c : N) : bool :=
  ((9 <=? c) && (c <=? 13) || (c =? 32) || (c =? 160) || (c =? 5760)
   || (8192 <=? c) && (c <=? 8202) || (c =? 8232) || (c =? 8233)
   || (c =? 8239) || (c =? 8287) || (c =? 12288) || (c =? 65279))%N.

Fixpoint trimStart (s : jsstring) : jsstring :=
  match s with
  | c :: s' => if isWhiteSpace c then trimStart s' else s
  | [] => []
  end.

Definition trimEnd (s : jsstring) : jsstring := rev (trimStart (rev s)).

Definition trim (s : jsstring) : jsstring := trimStart (trimEnd s).

(** Truthiness of a string: the empty string is the only falsy one. *)
Definition truthy (s : jsstring) : bool :=
  match s with
  | [] => false
  | _ :: _ => true
  end.

(** The regular expression [/[a-zA-Z0-9_]/] on a one-character string. *)
Definition isTagChar (c : N) : bool :=
  ((97 <=? c) && (c <=? 122) || (65 <=? c) && (c <=? 90)
   || (48 <=? c) && (c <=? 57) || (c =? c_underscore))%N.

(** ** Loops *)

Inductive flow (St : Type) : Type :=
| Next (s : St)
| Break (s : St).
Arguments Next {St} s.
Arguments Break {St} s.

(** [while (cond) { body }] with fuel.  The condition is tested first, so
    fuel is only needed for iterations that run; [Break] is the source's
    [break], [Next] is falling off the end of the body (or [continue]). *)
Fixpoint while {St : Type} (fuel : nat) (cond : St -> bool)
    (body : St -> option (flow St)) (s : St) : option St :=
  if cond s then
    match fuel with
    | O => None
    | S fuel' =>
        match body s with
        | None => None
        | Some (Next s') => while fuel' cond body s'
        | Some (Break s') => Some s'
        end
    end
  else Some s.

(** ** Configuration table *)

(** Modelled from the spec: the declaration of the type [DatabaseType],
    imported from [@shared/index], is not among the sources.  The spec has
    the dialect as a closed enumeration of four values; their names are the
    keys of the [Record<DatabaseType, SqlParserConfig>] literal below, which
    must have exactly the members of the type. *)
Inductive DatabaseType : Type := postgresql | mysql | mssql | sqlite.

Record SqlParserConfig : Type := mkConfig {
  dollarQuotes : bool;
  nestedBlockComments : bool;
  backtickIdentifiers : bool;
  backslashEscape : bool;
  hashLineComment : bool;
  bracketIdentifiers : bool
}.

Definition SQL_PARSER_CONFIGS (dbType : DatabaseType) : SqlParserConfig :=
  match dbType with
  | postgresql =>
      {| dollarQuotes := true; nestedBlockComments := true;
         backtickIdentifiers := false; backslashEscape := false;
         hashLineComment := false; bracketIdentifiers := false |}
  | mysql =>
      {| dollarQuotes := false; nestedBlockComments := false;
         backtickIdentifiers := true; backslashEscape := true;
         hashLineComment := true; bracketIdentifiers := false |}
  | mssql =>
      {| dollarQuotes := false; nestedBlockComments := false;
         backtickIdentifiers := false; backslashEscape := false;
         hashLineComment := false; bracketIdentifiers := true |}
  | sqlite =>
      {| dollarQuotes := false; nestedBlockComments := false;
         backtickIdentifiers := true; backslashEscape := false;
         hashLineComment := false; bracketIdentifiers := true |}
  end.

(** ** Scanner state: the three mutable locals of [splitStatements] *)

Record scan : Type := mkScan {
  statements : list jsstring;
  current : jsstring;
  i : nat
}.

(** [current += x; i += n] *)
Definition emit (st : scan) (x : jsstring) (n : nat) : scan :=
  mkScan (statements st) (current st ++ x) (i st + n).

(** [current += sql[i]; i++] *)
Definition emitChar (sql : jsstring) (st : scan) : scan :=
  mkScan (statements st) (append (current st) (charAt sql (i st))) (i st + 1).

(** [i < sql.length] *)
Definition inBounds (sql : jsstring) (st : scan) : bool :=
  i st <? length sql.

Section Scanner.

Variable config : SqlParserConfig.
Variable sql : jsstring.

(** Body of the loop inside a single-quoted string. *)
Definition singleQuoteBody (st : scan) : option (flow scan) :=
  if isChar c_squote (charAt sql (i st)) && isChar c_squote (charAt sql (i st + 1)) then
    Some (Next (emit st [c_squote; c_squote] 2))
  else if backslashEscape config && isChar c_backslash (charAt sql (i st))
          && isChar c_squote (charAt sql (i st + 1)) then
    Some (Next (emit st [c_backslash; c_squote] 2))
  else if isChar c_squote (charAt sql (i st)) then
    Some (Break (emit st [c_squote] 1))
  else
    Some (Next (emitChar sql st)).

(** Body of the loop inside a double-quoted identifier. *)
Definition doubleQuoteBody (st : scan) : option (flow scan) :=
  if isChar c_dquote (charAt sql (i st)) && isChar c_dquote (charAt sql (i st + 1)) then
    Some (Next (emit st [c_dquote; c_dquote] 2))
  else if isChar c_dquote (charAt sql (i st)) then
    Some (Break (emit st [c_dquote] 1))
  else
    Some (Next (emitChar sql st)).

(** Body of the loop inside a backtick-quoted identifier. *)
Definition backtickBody (st : scan) : option (flow scan) :=
  if isChar c_backtick (charAt sql (i st)) && isChar c_backtick (charAt sql (i st + 1)) then
    Some (Next (emit st [c_backtick; c_backtick] 2))
  else if isChar c_backtick (charAt sql (i st)) then
    Some (Break (emit st [c_backtick] 1))
  else
    Some (Next (emitChar sql st)).

(** Body of the loop inside a bracket-quoted identifier. *)
Definition bracketBody (st : scan) : option (flow scan) :=
  if isChar c_rbracket (charAt sql (i st)) && isChar c_rbracket (charAt sql (i st + 1)) then
    Some (Next (emit st [c_rbracket; c_rbracket] 2))
  else if isChar c_rbracket (charAt sql (i st)) then
    Some (Break (emit st [c_rbracket] 1))
  else
    Some (Next (emitChar sql st)).

(** The tag search of a dollar quote, on the locals [(tag, j)]. *)
Definition tagCond (tj : jsstring * nat) : bool :=
  (snd tj <? length sql)
  && (match charAt sql (snd tj) with
      | Some c => isTagChar c
      | None => false
      end
      || isChar c_dollar (charAt sql (snd tj))).

Definition tagBody (tj : jsstring * nat) : option (flow (jsstring * nat)) :=
  let tag := append (fst tj) (charAt sql (snd tj)) in
  if isChar c_dollar (charAt sql (snd tj)) then Some (Break (tag, snd tj + 1))
  else Some (Next (tag, snd tj + 1)).

(** Loop of a line comment: [while (i < sql.length && sql[i] !== '\n')]. *)
Definition lineCond (st : scan) : bool :=
  inBounds sql st && negb (isChar c_newline (charAt sql (i st))).

Definition lineBody (st : scan) : option (flow scan) :=
  Some (Next (emitChar sql st)).

(** Loop of a nested block comment, on the scanner state and [depth]. *)
Definition nestedCond (sd : scan * nat) : bool :=
  inBounds sql (fst sd) && (0 <? snd sd).

Definition nestedBody (sd : scan * nat) : option (flow (scan * nat)) :=
  let st := fst sd in
  if isChar c_slash (charAt sql (i st)) && isChar c_star (charAt sql (i st + 1)) then
    Some (Next (emit st [c_slash; c_star] 2, snd sd + 1))
  else if isChar c_star (charAt sql (i st)) && isChar c_slash (charAt sql (i st + 1)) then
    Some (Next (emit st [c_star; c_slash] 2, snd sd - 1))
  else
    Some (Next (emitChar sql st, snd sd)).

(** Loop of a block comment without nesting. *)
Definition blockBody (st : scan) : option (flow scan) :=
  if isChar c_star (charAt sql (i st)) && isChar c_slash (charAt sql (i st + 1)) then
    Some (Break (emit st [c_star; c_slash] 2))
  else
    Some (Next (emitChar sql st)).

(** The fuel given to every loop: no loop runs more iterations than the
    text has code units. *)
Definition fuel : nat := length sql.

(** The dollar-quote handler.  [None] is fuel exhaustion; [Some None]
    is the fall-through when the tag is not valid. *)
Definition dollarQuote (st : scan) : option (option scan) :=
  match while fuel tagCond tagBody ([c_dollar], i st + 1) with
  | None => None
  | Some (tag, j) =>
      if endsWith tag c_dollar && (2 <=? length tag) then
        let cur := current st ++ tag in
        match indexOf sql tag j with
        | Some closeIdx =>
            Some (Some (mkScan (statements st)
                               (cur ++ substring sql j (closeIdx + length tag))
                               (closeIdx + length tag)))
        | None =>
            Some (Some (mkScan (statements st)
                               (cur ++ substringFrom sql j)
                               (length sql)))
        end
      else Some None
  end.

(** Handlers that follow the dollar quote in the dispatch: hash comment,
    line comment, block comment, statement separator, any other
    character. *)
Definition stepRest (st : scan) : option (flow scan) :=
  let char := charAt sql (i st) in
  let nextChar := charAt sql (i st + 1) in
  if hashLineComment config && isChar c_hash char then
    option_map Next (while fuel lineCond lineBody (emit st [c_hash] 1))
  else if isChar c_dash char && isChar c_dash nextChar then
    option_map Next (while fuel lineCond lineBody (emit st [c_dash; c_dash] 2))
  else if isChar c_slash char && isChar c_star nextChar then
    let st' := emit st [c_slash; c_star] 2 in
    if nestedBlockComments config then
      option_map (fun sd => Next (fst sd)) (while fuel nestedCond nestedBody (st', 1))
    else
      option_map Next (while fuel (inBounds sql) blockBody st')
  else if isChar c_semicolon char then
    let stmt := trim (current st) in
    let statements' :=
      if truthy stmt then statements st ++ [stmt] else statements st in
    Some (Next (mkScan statements' [] (i st + 1)))
  else
    Some (Next (emitChar sql st)).

(** Body of the main loop.  On an opening quote the source runs
    [current += char; i++], which is [emitChar], [char] being [sql[i]];
    every [continue] is [Next]. *)
Definition step (st : scan) : option (flow scan) :=
  let char := charAt sql (i st) in
  if isChar c_squote char then
    option_map Next (while fuel (inBounds sql) singleQuoteBody (emitChar sql st))
  else if isChar c_dquote char then
    option_map Next (while fuel (inBounds sql) doubleQuoteBody (emitChar sql st))
  else if backtickIdentifiers config && isChar c_backtick char then
    option_map Next (while fuel (inBounds sql) backtickBody (emitChar sql st))
  else if bracketIdentifiers config && isChar c_lbracket char then
    option_map Next (while fuel (inBounds sql) bracketBody (emitChar sql st))
  else if dollarQuotes config && isChar c_dollar char then
    match dollarQuote st with
    | None => None
    | Some (Some st') => Some (Next st')
    | Some None => stepRest st
    end
  else stepRest st.

Definition initial : scan := mkScan [] [] 0.

(** The main loop followed by the flush of the last statement. *)
Definition finish (st : scan) : list jsstring :=
  let lastStmt := trim (current st) in
  if truthy lastStmt then statements st ++ [lastStmt] else statements st.

Definition scanAll : option scan := while fuel (inBounds sql) step initial.

End Scanner.

Definition splitStatements (sql : jsstring) (dbType : DatabaseType)
  : option (list jsstring) :=
  let config := SQL_PARSER_CONFIGS dbType in
  option_map finish (scanAll config sql).

(** [createStatementSplitter(dbType)] *)
Definition createStatementSplitter (dbType : DatabaseType)
  : jsstring -> option (list jsstring) :=
  fun sql => splitStatements sql dbType.

(** ** Slices of the input *)

(** [slice s a b] is the text at the positions [a <= p < b]. *)
Definition slice (s : jsstring) (a b : nat) : jsstring :=
  firstn (b - a) (skipn a s).

Lemma firstn_plus {A : Type} (n m : nat) (l : list A) :
  firstn (n + m) l = firstn n l ++ firstn m (skipn n l).
Proof.
  revert l; induction n as [|n IH]; intros l; simpl; [reflexivity|].
  destruct l as [|x l]; simpl.
  - now rewrite firstn_nil.
  - now rewrite IH.
Qed.

Lemma slice_nil (s : jsstring) (a : nat) : slice s a a = [].
Proof. unfold slice. now rewrite Nat.sub_diag. Qed.

Lemma slice_app (s : jsstring) (a b c : nat) :
  a <= b -> b <= c -> slice s a b ++ slice s b c = slice s a c.
Proof.
  intros Hab Hbc. unfold slice.
  replace (c - a) with ((b - a) + (c - b)) by lia.
  rewrite firstn_plus, skipn_skipn.
  now replace (b - a + a) with b by lia.
Qed.

Lemma slice_length (s : jsstring) (a b : nat) :
  a <= b -> b <= length s -> length (slice s a b) = b - a.
Proof.
  intros Hab Hb. unfold slice.
  rewrite length_firstn, length_skipn. lia.
Qed.

Lemma skipn_charAt (s : jsstring) (k : nat) (c : N) :
  charAt s k = Some c -> exists t, skipn k s = c :: t.
Proof.
  unfold charAt. revert s; induction k as [|k IH]; intros [|x s] H; simpl in *;
    try discriminate.
  - injection H as ->. now eexists.
  - now apply IH.
Qed.

Lemma slice_one (s : jsstring) (k : nat) (c : N) :
  charAt s k = Some c -> slice s k (k + 1) = [c].
Proof.
  intros H. unfold slice. destruct (skipn_charAt _ _ _ H) as [t ->].
  now replace (k + 1 - k) with 1 by lia.
Qed.

Lemma slice_two (s : jsstring) (k : nat) (c d : N) :
  charAt s k = Some c -> charAt s (k + 1) = Some d ->
  slice s k (k + 2) = [c; d].
Proof.
  intros Hc Hd.
  rewrite <- (slice_app s k (k + 1) (k + 2)) by lia.
  rewrite (slice_one _ _ _ Hc).
  replace (k + 2) with (k + 1 + 1) by lia.
  now rewrite (slice_one _ _ _ Hd).
Qed.

Lemma slice_full (s : jsstring) : slice s 0 (length s) = s.
Proof. unfold slice. simpl. rewrite Nat.sub_0_r. apply firstn_all. Qed.

Lemma firstn_slice (s : jsstring) (a : nat) : firstn a s = slice s 0 a.
Proof. unfold slice. simpl. now rewrite Nat.sub_0_r. Qed.

Lemma substring_slice (s : jsstring) (a b : nat) :
  a <= b -> b <= length s -> substring s a b = slice s a b.
Proof.
  intros Hab Hb. unfold substring, slice.
  rewrite (Nat.min_l a), (Nat.min_l b), Nat.max_r, Nat.min_l by lia.
  reflexivity.
Qed.

Lemma charAt_lt (s : jsstring) (k : nat) (c : N) :
  charAt s k = Some c -> k < length s.
Proof. intros H. apply nth_error_Some. unfold charAt in H. congruence. Qed.

Lemma charAt_some (s : jsstring) (k : nat) :
  k < length s -> exists c, charAt s k = Some c.
Proof.
  intros H. unfold charAt. destruct (nth_error s k) eqn:E; [now eexists|].
  apply nth_error_None in E. lia.
Qed.

Lemma isChar_true (q : N) (x : option N) : isChar q x = true -> x = Some q.
Proof.
  destruct x as [y|]; simpl; [|discriminate].
  intros H. apply N.eqb_eq in H. now subst.
Qed.

Lemma isChar_false (q : N) (x : option N) : isChar q x = false -> x <> Some q.
Proof.
  destruct x as [y|]; simpl; [|discriminate].
  intros H E. injection E as ->. now rewrite N.eqb_refl in H.
Qed.

(** ** Total correctness of [while] *)

Lemma while_total {St : Type} (cond : St -> bool)
    (body : St -> option (flow St)) (Inv Post : St -> Prop) (m : St -> nat) :
  (forall s, Inv s -> cond s = false -> Post s) ->
  (forall s, Inv s -> cond s = true ->
     0 < m s /\
     exists r, body s = Some r /\
       match r with
       | Next s' => Inv s' /\ m s' < m s
       | Break s' => Post s'
       end) ->
  forall f s, Inv s -> m s <= f ->
    exists s', while f cond body s = Some s' /\ Post s'.
Proof.
  intros Hexit Hbody f.
  induction f as [|f IH]; intros s HI Hm; simpl;
    destruct (cond s) eqn:Ec; try (eexists; split; [reflexivity|]; now apply Hexit).
  - destruct (Hbody s HI Ec) as [Hpos _]. lia.
  - destruct (Hbody s HI Ec) as [Hpos [r [-> Hr]]].
    destruct r as [s'|s'].
    + destruct Hr as [HI' Hlt]. apply IH; [assumption|lia].
    + now eexists.
Qed.

(** ** What one handler does: it copies a slice of the input *)

Section Consume.

Variable config : SqlParserConfig.
Variable sql : jsstring.

(** From [st] to [st'] the text between the two cursors was appended to
    the buffer, and no statement was emitted. *)
Definition consumes (st st' : scan) : Prop :=
  statements st' = statements st /\
  i st <= i st' /\ i st' <= length sql /\
  current st' = current st ++ slice sql (i st) (i st').

Definition advances (st st' : scan) : Prop :=
  consumes st st' /\ i st < i st'.

Lemma consumes_refl (st : scan) : i st <= length sql -> consumes st st.
Proof.
  intros H. unfold consumes. rewrite slice_nil, app_nil_r. auto.
Qed.

Lemma consumes_trans (a b c : scan) :
  consumes a b -> consumes b c -> consumes a c.
Proof.
  intros (Hs1 & Hi1 & Hl1 & Hc1) (Hs2 & Hi2 & Hl2 & Hc2).
  unfold consumes. repeat split; try lia; try congruence.
  rewrite Hc2, Hc1, <- app_assoc, slice_app by lia. reflexivity.
Qed.

Lemma advances_emitChar (st : scan) :
  i st < length sql -> advances st (emitChar sql st).
Proof.
  intros H. destruct (charAt_some _ _ H) as [c Hc].
  unfold advances, consumes, emitChar; simpl. rewrite Hc; simpl.
  rewrite (slice_one _ _ _ Hc). repeat split; lia || auto.
Qed.

Lemma advances_emit1 (st : scan) (q : N) :
  charAt sql (i st) = Some q -> advances st (emit st [q] 1).
Proof.
  intros Hc. pose proof (charAt_lt _ _ _ Hc).
  unfold advances, consumes, emit; simpl.
  rewrite (slice_one _ _ _ Hc). repeat split; lia || auto.
Qed.

Lemma advances_emit2 (st : scan) (q r : N) :
  charAt sql (i st) = Some q -> charAt sql (i st + 1) = Some r ->
  advances st (emit st [q; r] 2).
Proof.
  intros Hc Hd. pose proof (charAt_lt _ _ _ Hd).
  unfold advances, consumes, emit; simpl.
  rewrite (slice_two _ _ _ _ Hc Hd). repeat split; lia || auto.
Qed.

Lemma advances_consumes (a b c : scan) :
  advances a b -> consumes b c -> advances a c.
Proof.
  intros [H1 Hlt] H2. split; [eapply consumes_trans; eassumption|].
  destruct H2 as (_ & Hle & _). lia.
Qed.

Definition flowState {St : Type} (r : flow St) : St :=
  match r with
  | Next s => s
  | Break s => s
  end.

(** A loop whose every iteration advances the cursor inside the text runs
    to completion on the fuel [length sql] and copies a slice. *)
Lemma loop_consumes (cond : scan -> bool) (body : scan -> option (flow scan)) :
  (forall s, cond s = true -> i s < length sql) ->
  (forall s, i s < length sql ->
     exists r, body s = Some r /\ advances s (flowState r)) ->
  forall st0, i st0 <= length sql ->
    exists st', while (fuel sql) cond body st0 = Some st' /\ consumes st0 st'.
Proof.
  intros Hcond Hbody st0 H0.
  apply (while_total cond body (consumes st0) (consumes st0)
           (fun s => length sql - i s)).
  - auto.
  - intros s HI Ec. pose proof (Hcond s Ec) as Hlt.
    split; [lia|].
    destruct (Hbody s Hlt) as [r [Hr Hadv]].
    exists r. split; [assumption|].
    pose proof (consumes_trans _ _ _ HI (proj1 Hadv)) as Hc.
    destruct Hadv as [(_ & _ & Hle & _) Hlt'].
    destruct r; simpl in *; [split; [assumption|lia]|assumption].
  - now apply consumes_refl.
  - unfold fuel. lia.
Qed.

(** Case analysis on the tests of a loop body. *)
Ltac body_cases :=
  repeat match goal with
    | |- context [if ?b then _ else _] =>
        let E := fresh "E" in destruct b eqn:E
    end;
  repeat match goal with
    | H : _ && _ = true |- _ => apply andb_prop in H; destruct H
    end;
  repeat match goal with
    | H : isChar _ _ = true |- _ => apply isChar_true in H
    end;
  (eexists; split; [reflexivity|]; simpl;
   first [ eapply advances_emit2; eassumption
         | eapply advances_emit1; eassumption
         | apply advances_emitChar; assumption ]).

Lemma singleQuoteBody_advances (s : scan) :
  i s < length sql ->
  exists r, singleQuoteBody config sql s = Some r /\ advances s (flowState r).
Proof. intros H. unfold singleQuoteBody. body_cases. Qed.

Lemma doubleQuoteBody_advances (s : scan) :
  i s < length sql ->
  exists r, doubleQuoteBody sql s = Some r /\ advances s (flowState r).
Proof. intros H. unfold doubleQuoteBody. body_cases. Qed.

Lemma backtickBody_advances (s : scan) :
  i s < length sql ->
  exists r, backtickBody sql s = Some r /\ advances s (flowState r).
Proof. intros H. unfold backtickBody. body_cases. Qed.

Lemma bracketBody_advances (s : scan) :
  i s < length sql ->
  exists r, bracketBody sql s = Some r /\ advances s (flowState r).
Proof. intros H. unfold bracketBody. body_cases. Qed.

Lemma blockBody_advances (s : scan) :
  i s < length sql ->
  exists r, blockBody sql s = Some r /\ advances s (flowState r).
Proof. intros H. unfold blockBody. body_cases. Qed.

Lemma lineBody_advances (s : scan) :
  i s < length sql ->
  exists r, lineBody sql s = Some r /\ advances s (flowState r).
Proof. intros H. unfold lineBody. body_cases. Qed.

Lemma inBounds_lt (s : scan) : inBounds sql s = true -> i s < length sql.
Proof. unfold inBounds. apply Nat.ltb_lt. Qed.

Lemma lineCond_lt (s : scan) : lineCond sql s = true -> i s < length sql.
Proof.
  unfold lineCond. intros H. apply andb_prop in H. now apply inBounds_lt.
Qed.

End Consume.

(** ** [indexOf] finds an occurrence inside the text *)

Lemma startsWith_length (s search : jsstring) :
  startsWith s search = true -> length search <= length s.
Proof.
  revert s; induction search as [|c search IH]; intros [|d s] H; simpl in *;
    try lia; try discriminate.
  apply andb_prop in H. destruct H as [_ H]. apply IH in H. lia.
Qed.

Lemma indexOf_aux_bounds (s search : jsstring) (k r : nat) :
  indexOf_aux s search k = Some r ->
  k <= r /\ r + length search <= k + length s.
Proof.
  revert k; induction s as [|d s IH]; intros k; cbn [indexOf_aux].
  - destruct (startsWith [] search) eqn:E; intros H; [|discriminate H].
    injection H as <-. apply startsWith_length in E. lia.
  - destruct (startsWith (d :: s) search) eqn:E; intros H.
    + injection H as <-. apply startsWith_length in E. lia.
    + apply IH in H. simpl. lia.
Qed.

Lemma indexOf_bounds (s search : jsstring) (from r : nat) :
  from <= length s -> indexOf s search from = Some r ->
  from <= r /\ r + length search <= length s.
Proof.
  intros Hf. unfold indexOf. rewrite Nat.min_l by assumption.
  intros H. apply indexOf_aux_bounds in H. rewrite length_skipn in H. lia.
Qed.

(** ** Every iteration of the main loop moves the cursor forward *)

Section Step.

Variable config : SqlParserConfig.
Variable sql : jsstring.

Lemma nestedBody_advances (s : scan) (n : nat) :
  i s < length sql ->
  exists s' n',
    nestedBody sql (s, n) = Some (Next (s', n')) /\ advances sql s s'.
Proof.
  intros Hlt. unfold nestedBody; cbn [fst snd].
  repeat match goal with
    | |- context [if ?b then _ else _] =>
        let E := fresh "E" in destruct b eqn:E
    end;
  repeat match goal with
    | H : _ && _ = true |- _ => apply andb_prop in H; destruct H
    end;
  repeat match goal with
    | H : isChar _ _ = true |- _ => apply isChar_true in H
    end;
  (do 2 eexists; split; [reflexivity|];
   first [ eapply advances_emit2; eassumption
         | apply advances_emitChar; assumption ]).
Qed.

Lemma nested_consumes (st0 : scan) (d : nat) :
  i st0 <= length sql ->
  exists st' d',
    while (fuel sql) (nestedCond sql) (nestedBody sql) (st0, d) = Some (st', d') /\
    consumes sql st0 st' /\ (d' = 0 \/ i st' = length sql).
Proof.
  intros H0.
  destruct (while_total (nestedCond sql) (nestedBody sql)
              (fun sd => consumes sql st0 (fst sd))
              (fun sd => consumes sql st0 (fst sd) /\
                         (snd sd = 0 \/ i (fst sd) = length sql))
              (fun sd => length sql - i (fst sd))) with (f := fuel sql) (s := (st0, d))
    as [[st' d'] [Hw HP]].
  - intros [s n] HI Ec. simpl in *. split; [assumption|].
    unfold nestedCond in Ec; simpl in Ec.
    destruct HI as (_ & _ & Hle & _).
    apply andb_false_iff in Ec. destruct Ec as [Ec|Ec].
    + right. unfold inBounds in Ec. apply Nat.ltb_ge in Ec. lia.
    + left. apply Nat.ltb_ge in Ec. lia.
  - intros [s n] HI Ec. simpl in *.
    unfold nestedCond in Ec; simpl in Ec. apply andb_prop in Ec.
    destruct Ec as [Ec _]. apply inBounds_lt in Ec.
    split; [lia|].
    destruct (nestedBody_advances s n Ec) as (s' & n' & Hr & [Hc Hlt]).
    exists (Next (s', n')). split; [assumption|]. simpl.
    split; [eapply consumes_trans; eassumption|].
    destruct Hc as (_ & _ & Hle & _). lia.
  - simpl. now apply consumes_refl.
  - unfold fuel. simpl. lia.
  - exists st', d'. simpl in HP. tauto.
Qed.

Lemma tag_scan (st : scan) :
  charAt sql (i st) = Some c_dollar ->
  exists tag j,
    while (fuel sql) (tagCond sql) (tagBody sql) ([c_dollar], i st + 1)
      = Some (tag, j) /\
    i st < j /\ j <= length sql /\ tag = slice sql (i st) j.
Proof.
  intros Hd. pose proof (charAt_lt _ _ _ Hd) as Hlt.
  pose (P := fun tj : jsstring * nat =>
               i st < snd tj /\ snd tj <= length sql /\
               fst tj = slice sql (i st) (snd tj)).
  destruct (while_total (tagCond sql) (tagBody sql) P P
              (fun tj => length sql - snd tj))
    with (f := fuel sql) (s := ([c_dollar], i st + 1))
    as [[tag j] [Hw HP]].
  - auto.
  - intros [tag j] (H1 & H2 & H3) Ec. simpl in *.
    unfold tagCond in Ec; simpl in Ec. apply andb_prop in Ec.
    destruct Ec as [Ej _]. apply Nat.ltb_lt in Ej.
    split; [lia|].
    destruct (charAt_some _ _ Ej) as [c Hc].
    unfold tagBody; simpl. rewrite Hc; simpl.
    assert (Htag : tag ++ [c] = slice sql (i st) (j + 1)).
    { rewrite H3, <- (slice_one _ _ _ Hc). apply slice_app; lia. }
    destruct (N.eqb c c_dollar); eexists; (split; [reflexivity|]);
      unfold P; simpl; repeat split; lia || assumption.
  - unfold P; simpl. repeat split; try lia.
    symmetry. now apply slice_one.
  - unfold fuel; simpl. lia.
  - exists tag, j. unfold P in HP; simpl in HP. tauto.
Qed.

Lemma dollarQuote_advances (st : scan) :
  charAt sql (i st) = Some c_dollar ->
  exists o, dollarQuote sql st = Some o /\
    match o with
    | Some st' => advances sql st st'
    | None => True
    end.
Proof.
  intros Hd. destruct (tag_scan st Hd) as (tag & j & Hw & Hij & Hj & Htag).
  unfold dollarQuote. rewrite Hw.
  destruct (endsWith tag c_dollar && (2 <=? length tag)); [|now eexists].
  assert (Hlen : length tag = j - i st).
  { rewrite Htag. apply slice_length; lia. }
  destruct (indexOf sql tag j) as [closeIdx|] eqn:Ei.
  - apply indexOf_bounds in Ei; [|assumption]. destruct Ei as [Hk1 Hk2].
    eexists; split; [reflexivity|].
    unfold advances, consumes; simpl. repeat split; try lia.
    rewrite substring_slice by lia.
    rewrite <- app_assoc, Htag, slice_app by lia. reflexivity.
  - eexists; split; [reflexivity|].
    unfold advances, consumes; simpl. repeat split; try lia.
    unfold substringFrom. rewrite substring_slice by lia.
    rewrite <- app_assoc, Htag, slice_app by lia. reflexivity.
Qed.

(** The statement separator: flush the trimmed buffer, restart it. *)
Definition cut (st : scan) : scan :=
  mkScan (if truthy (trim (current st))
          then statements st ++ [trim (current st)]
          else statements st)
         [] (i st + 1).

(** One iteration either copies a non-empty slice that does not start
    with a semicolon, or stands on a semicolon and cuts. *)
Definition stepped (st st' : scan) : Prop :=
  (charAt sql (i st) <> Some c_semicolon /\ advances sql st st') \/
  (charAt sql (i st) = Some c_semicolon /\ st' = cut st).

Lemma stepped_lt (st st' : scan) :
  i st < length sql -> stepped st st' -> i st < i st' /\ i st' <= length sql.
Proof.
  intros Hlt [[_ [(_ & _ & Hle & _) H]]|[_ ->]]; simpl; lia.
Qed.

Ltac not_semicolon :=
  match goal with
  | H : charAt sql ?k = Some _ |- charAt sql ?k <> Some c_semicolon =>
      rewrite H; discriminate
  end.

Ltac split_tests :=
  repeat match goal with
    | H : _ && _ = true |- _ => apply andb_prop in H; destruct H
    end;
  repeat match goal with
    | H : isChar _ _ = true |- _ => apply isChar_true in H
    end.

Ltac run_loop L Hadv :=
  match goal with
  | |- context [while (fuel sql) ?c ?b ?s] =>
      let st' := fresh "st'" in
      let Hw := fresh "Hw" in
      let Hc := fresh "Hc" in
      destruct (L c b) with (st0 := s) as [st' [Hw Hc]];
      [ try (exact (inBounds_lt sql)); try (exact (lineCond_lt sql))
      | auto
      | destruct Hadv as [(_ & _ & ? & _) _]; assumption
      | rewrite Hw; simpl; eexists; split; [reflexivity|];
        left; split; [not_semicolon|];
        eapply advances_consumes; eassumption ]
  end.

Lemma stepRest_stepped (st : scan) :
  i st < length sql ->
  exists st', stepRest config sql st = Some (Next st') /\ stepped st st'.
Proof.
  intros Hlt. unfold stepRest.
  destruct (hashLineComment config && isChar c_hash (charAt sql (i st))) eqn:E1.
  { split_tests.
    pose proof (advances_emit1 sql st _ H0) as Hadv.
    run_loop (loop_consumes sql) Hadv. apply lineBody_advances. }
  destruct (isChar c_dash (charAt sql (i st)) && isChar c_dash (charAt sql (i st + 1))) eqn:E2.
  { split_tests.
    pose proof (advances_emit2 sql st _ _ H H0) as Hadv.
    run_loop (loop_consumes sql) Hadv. apply lineBody_advances. }
  destruct (isChar c_slash (charAt sql (i st)) && isChar c_star (charAt sql (i st + 1))) eqn:E3.
  { split_tests.
    pose proof (advances_emit2 sql st _ _ H H0) as Hadv.
    destruct (nestedBlockComments config).
    - destruct (nested_consumes (emit st [c_slash; c_star] 2) 1)
        as (st' & d' & Hw & Hc & _).
      { destruct Hadv as [(_ & _ & ? & _) _]; assumption. }
      rewrite Hw; simpl. eexists; split; [reflexivity|].
      left; split; [not_semicolon|]. eapply advances_consumes; eassumption.
    - run_loop (loop_consumes sql) Hadv. apply blockBody_advances. }
  destruct (isChar c_semicolon (charAt sql (i st))) eqn:E4.
  { apply isChar_true in E4. eexists; split; [reflexivity|]. now right. }
  apply isChar_false in E4.
  eexists; split; [reflexivity|]. left; split; [assumption|].
  now apply advances_emitChar.
Qed.

Lemma step_stepped (st : scan) :
  i st < length sql ->
  exists st', step config sql st = Some (Next st') /\ stepped st st'.
Proof.
  intros Hlt. unfold step.
  destruct (isChar c_squote (charAt sql (i st))) eqn:E1.
  { split_tests. pose proof (advances_emitChar sql st Hlt) as Hadv.
    run_loop (loop_consumes sql) Hadv. apply singleQuoteBody_advances. }
  destruct (isChar c_dquote (charAt sql (i st))) eqn:E2.
  { split_tests. pose proof (advances_emitChar sql st Hlt) as Hadv.
    run_loop (loop_consumes sql) Hadv. apply doubleQuoteBody_advances. }
  destruct (backtickIdentifiers config && isChar c_backtick (charAt sql (i st))) eqn:E3.
  { split_tests. pose proof (advances_emitChar sql st Hlt) as Hadv.
    run_loop (loop_consumes sql) Hadv. apply backtickBody_advances. }
  destruct (bracketIdentifiers config && isChar c_lbracket (charAt sql (i st))) eqn:E4.
  { split_tests. pose proof (advances_emitChar sql st Hlt) as Hadv.
    run_loop (loop_consumes sql) Hadv. apply bracketBody_advances. }
  destruct (dollarQuotes config && isChar c_dollar (charAt sql (i st))) eqn:E5.
  { split_tests.
    destruct (dollarQuote_advances st H0) as [o [-> Ho]].
    destruct o as [st'|]; [|now apply stepRest_stepped].
    eexists; split; [reflexivity|]. left; split; [not_semicolon|assumption]. }
  now apply stepRest_stepped.
Qed.

End Step.

(** ** The run of the main loop *)

Section Run.

Variable config : SqlParserConfig.
Variable sql : jsstring.

(** [steps a b]: the main loop, started in [a], comes to [b] at the top of
    some iteration. *)
Inductive steps : scan -> scan -> Prop :=
| steps_refl (st : scan) : steps st st
| steps_next (st st1 st' : scan) :
    i st < length sql ->
    step config sql st = Some (Next st1) ->
    steps st1 st' ->
    steps st st'.

(** The states the loop of [splitStatements] goes through. *)
Definition reach (st : scan) : Prop := steps initial st.

(** The cursor positions at which the dispatch of the main loop runs: the
    positions outside every quoted or commented region. *)
Definition loopHead (p : nat) : Prop := exists st, reach st /\ i st = p.

(** A statement separator: a semicolon outside every region. *)
Definition separatorAt (p : nat) : Prop :=
  loopHead p /\ charAt sql p = Some c_semicolon.

Lemma steps_trans (a b c : scan) : steps a b -> steps b c -> steps a c.
Proof.
  induction 1 as [|a a1 b Hlt Hs _ IH]; intros Hbc; [assumption|].
  eapply steps_next; eauto.
Qed.

Lemma steps_snoc (a b c : scan) :
  steps a b -> i b < length sql -> step config sql b = Some (Next c) ->
  steps a c.
Proof.
  intros Hab Hlt Hs. eapply steps_trans; [eassumption|].
  eapply steps_next; [eassumption|eassumption|apply steps_refl].
Qed.

Lemma step_lt (st st' : scan) :
  i st < length sql -> step config sql st = Some (Next st') ->
  i st < i st' /\ i st' <= length sql.
Proof.
  intros Hlt Hs. destruct (step_stepped config sql st Hlt) as [st2 [Hs2 Hst]].
  rewrite Hs in Hs2. injection Hs2 as <-.
  now apply stepped_lt.
Qed.

Lemma steps_le (a b : scan) : steps a b -> i a <= i b.
Proof.
  induction 1 as [|a a1 b Hlt Hs _ IH]; [lia|].
  pose proof (step_lt _ _ Hlt Hs). lia.
Qed.

Lemma steps_eq (a b : scan) : steps a b -> i a = i b -> a = b.
Proof.
  intros H. destruct H as [|a a1 b Hlt Hs H']; [reflexivity|].
  intros E. pose proof (step_lt _ _ Hlt Hs). apply steps_le in H'. lia.
Qed.

Lemma steps_linear (x a b : scan) :
  steps x a -> steps x b -> steps a b \/ steps b a.
Proof.
  induction 1 as [|x x1 a Hlt Hs Ha IH]; intros Hb; [now left|].
  destruct Hb as [|x x1' b Hlt' Hs' Hb].
  - right. eapply steps_next; eassumption.
  - rewrite Hs in Hs'. injection Hs' as <-. now apply IH.
Qed.

(** Between the cursor of one iteration and the cursor of the next there
    is no loop head. *)
Lemma no_between (st st' : scan) (p : nat) :
  reach st -> i st < length sql -> step config sql st = Some (Next st') ->
  i st < p -> p < i st' -> ~ loopHead p.
Proof.
  intros Hr Hlt Hs Hp1 Hp2 [x [Hx Hix]]. subst p.
  destruct (steps_linear _ _ _ Hr Hx) as [H|H].
  - destruct H as [|st st1 x _ Hs1 H]; [lia|].
    rewrite Hs in Hs1. injection Hs1 as <-. apply steps_le in H. lia.
  - apply steps_le in H. lia.
Qed.

(** Induction along the run. *)
Lemma reach_ind' (P : scan -> Prop) :
  P initial ->
  (forall st st', reach st -> P st -> i st < length sql ->
     step config sql st = Some (Next st') -> P st') ->
  forall st, reach st -> P st.
Proof.
  intros H0 Hstep st Hr. unfold reach in Hr.
  assert (G : forall a b, steps a b -> reach a -> P a -> P b).
  { induction 1 as [|a a1 b Hlt Hs _ IH]; intros Ha HP; [assumption|].
    apply IH.
    - unfold reach. eapply steps_snoc; eassumption.
    - eapply Hstep; eassumption. }
  apply (G initial st Hr); [apply steps_refl|assumption].
Qed.

Lemma reach_le (st : scan) : reach st -> i st <= length sql.
Proof.
  intros H. induction H as [|st st' _ _ Hlt Hs] using reach_ind'; simpl; [lia|].
  now apply (step_lt _ _ Hlt Hs).
Qed.

(** The main loop runs to the end of the text on the fuel it is given. *)
Lemma scanAll_total :
  exists st, scanAll config sql = Some st /\ reach st /\ i st = length sql.
Proof.
  unfold scanAll.
  apply (while_total (inBounds sql) (step config sql) reach
           (fun s => reach s /\ i s = length sql)
           (fun s => length sql - i s)).
  - intros s Hr Ec. split; [assumption|].
    apply reach_le in Hr. unfold inBounds in Ec. apply Nat.ltb_ge in Ec. lia.
  - intros s Hr Ec. apply inBounds_lt in Ec. split; [lia|].
    destruct (step_stepped config sql s Ec) as [st' [Hs Hst]].
    exists (Next st'). split; [assumption|]. split.
    + unfold reach. eapply steps_snoc; eassumption.
    + pose proof (stepped_lt _ _ _ Ec Hst). lia.
  - apply steps_refl.
  - unfold fuel. simpl. lia.
Qed.

End Run.

Lemma splitStatements_total (sql : jsstring) (dbType : DatabaseType) :
  exists st,
    reach (SQL_PARSER_CONFIGS dbType) sql st /\ i st = length sql /\
    splitStatements sql dbType = Some (finish st).
Proof.
  destruct (scanAll_total (SQL_PARSER_CONFIGS dbType) sql) as [st (Hs & Hr & Hi)].
  exists st. unfold splitStatements. rewrite Hs. auto.
Qed.

(** ** [trim] *)

Definition allWhiteSpace (s : jsstring) : bool := forallb isWhiteSpace s.



Lemma trimStart_split (s : jsstring) :
  exists lead, s = lead ++ trimStart s /\ allWhiteSpace lead = true.
Proof.
  induction s as [|c s [lead [IH1 IH2]]]; simpl.
  - now exists [].
  - destruct (isWhiteSpace c) eqn:E.
    + exists (c :: lead). simpl. rewrite E, IH2. now rewrite <- IH1.
    + now exists [].
Qed.


Lemma trimStart_ws (s : jsstring) : allWhiteSpace s = true -> trimStart s = [].
Proof.
  induction s as [|c s IH]; simpl; [reflexivity|].
  intros H. apply andb_prop in H. destruct H as [-> H]. now apply IH.
Qed.

Lemma allWhiteSpace_rev (s : jsstring) :
  allWhiteSpace (rev s) = allWhiteSpace s.
Proof.
  unfold allWhiteSpace. induction s as [|c s IH]; simpl; [reflexivity|].
  rewrite forallb_app, IH. simpl. rewrite andb_true_r. apply andb_comm.
Qed.

Lemma trimEnd_split (s : jsstring) :
  exists trail, s = trimEnd s ++ trail /\ allWhiteSpace trail = true.
Proof.
  destruct (trimStart_split (rev s)) as [lead [H1 H2]].
  exists (rev lead). split.
  - unfold trimEnd. rewrite <- rev_app_distr, <- H1. now rewrite rev_involutive.
  - now rewrite allWhiteSpace_rev.
Qed.


Lemma trim_split (s : jsstring) :
  exists lead trail,
    s = lead ++ trim s ++ trail /\
    allWhiteSpace lead = true /\ allWhiteSpace trail = true.
Proof.
  destruct (trimEnd_split s) as [trail [H1 H2]].
  destruct (trimStart_split (trimEnd s)) as [lead [H3 H4]].
  exists lead, trail. unfold trim. rewrite app_assoc, <- H3. auto.
Qed.


Lemma trim_ws (s : jsstring) : allWhiteSpace s = true -> trim s = [].
Proof.
  intros H. unfold trim, trimEnd.
  rewrite (trimStart_ws (rev s)) by now rewrite allWhiteSpace_rev.
  reflexivity.
Qed.

Lemma truthy_true (s : jsstring) : truthy s = true <-> s <> [].
Proof. destruct s; simpl; split; congruence. Qed.

(** ** Pieces of a slice are slices *)

Lemma app_inj_length {A : Type} (l1 l2 r1 r2 : list A) :
  l1 ++ r1 = l2 ++ r2 -> length l1 = length l2 -> l1 = l2 /\ r1 = r2.
Proof.
  revert l2; induction l1 as [|x l1 IH]; intros [|y l2] H Hl; simpl in *;
    try discriminate; [auto|].
  injection H as -> H. injection Hl as Hl.
  destruct (IH _ H Hl) as [-> ->]. auto.
Qed.

Lemma slice_pieces (s : jsstring) (a e : nat) (l1 l2 l3 : jsstring) :
  a <= e -> e <= length s -> slice s a e = l1 ++ l2 ++ l3 ->
  l1 = slice s a (a + length l1) /\
  l2 = slice s (a + length l1) (a + length l1 + length l2) /\
  l3 = slice s (a + length l1 + length l2) e /\
  a + length l1 + length l2 + length l3 = e.
Proof.
  intros Hae He H.
  assert (Hlen : length l1 + length l2 + length l3 = e - a).
  { rewrite <- (slice_length s a e Hae He), H.
    rewrite !length_app. lia. }
  rewrite <- (slice_app s a (a + length l1) e) in H by lia.
  rewrite <- (slice_app s (a + length l1) (a + length l1 + length l2) e) in H by lia.
  apply app_inj_length in H; [|rewrite slice_length; lia].
  destruct H as [H1 H]. apply app_inj_length in H; [|rewrite slice_length; lia].
  destruct H as [H2 H3]. repeat split; auto; lia.
Qed.

Lemma trim_slice (s : jsstring) (a e : nat) :
  a <= e -> e <= length s -> trim (slice s a e) <> [] ->
  exists a' b',
    a <= a' /\ a' < b' /\ b' <= e /\
    trim (slice s a e) = slice s a' b' /\
    allWhiteSpace (slice s a a') = true /\
    allWhiteSpace (slice s b' e) = true.
Proof.
  intros Hae He Hne.
  destruct (trim_split (slice s a e)) as (lead & trail & Hsp & Hl & Ht).
  destruct (slice_pieces s a e _ _ _ Hae He Hsp) as (H1 & H2 & H3 & H4).
  exists (a + length lead), (a + length lead + length (trim (slice s a e))).
  assert (0 < length (trim (slice s a e))).
  { destruct (trim (slice s a e)); [congruence|simpl; lia]. }
  repeat split; try lia; try assumption.
  - now rewrite <- H1.
  - now rewrite <- H3.
Qed.

(** ** The output is the text cut at its separators *)

(** [l.join(sep)] *)
Fixpoint joinWith (sep : jsstring) (l : list jsstring) : jsstring :=
  match l with
  | [] => []
  | x :: l' =>
      match l' with
      | [] => x
      | _ :: _ => x ++ sep ++ joinWith sep l'
      end
  end.

(** Segments, each followed by its separator. *)
Definition flat (segs : list jsstring) : jsstring :=
  concat (map (fun s => s ++ [c_semicolon]) segs).

Lemma flat_join (segs : list jsstring) (cur : jsstring) :
  flat segs ++ cur = joinWith [c_semicolon] (segs ++ [cur]).
Proof.
  induction segs as [|x segs IH]; [reflexivity|].
  unfold flat in *. simpl. rewrite <- app_assoc, IH.
  destruct (segs ++ [cur]) eqn:E; [now destruct segs|].
  cbn [joinWith]. now rewrite <- app_assoc.
Qed.

Lemma flat_snoc (segs : list jsstring) (cur : jsstring) :
  flat (segs ++ [cur]) = flat segs ++ cur ++ [c_semicolon].
Proof.
  unfold flat. rewrite map_app, concat_app. simpl. now rewrite app_nil_r.
Qed.

Lemma filter_trim_snoc (segs : list jsstring) (cur : jsstring) :
  filter truthy (map trim (segs ++ [cur])) =
  if truthy (trim cur)
  then filter truthy (map trim segs) ++ [trim cur]
  else filter truthy (map trim segs).
Proof.
  rewrite map_app, filter_app. simpl.
  destruct (truthy (trim cur)); [reflexivity|apply app_nil_r].
Qed.

Section Segments.

Variable config : SqlParserConfig.
Variable sql : jsstring.

Lemma step_inv (st st' : scan) :
  i st < length sql -> step config sql st = Some (Next st') ->
  stepped sql st st'.
Proof.
  intros Hlt Hs. destruct (step_stepped config sql st Hlt) as [st2 [Hs2 Hst]].
  rewrite Hs in Hs2. now injection Hs2 as <-.
Qed.

(** The text before the cursor is the finished segments, each with its
    separator, followed by the buffer; the statements are the finished
    segments, trimmed, without the empty ones. *)
Definition segmented (st : scan) : Prop :=
  exists segs,
    firstn (i st) sql = flat segs ++ current st /\
    statements st = filter truthy (map trim segs).

Lemma reach_segmented (st : scan) : reach config sql st -> segmented st.
Proof.
  intros H. induction H as [|st st' Hr IH Hlt Hs] using reach_ind'.
  - now exists [].
  - destruct IH as [segs [Hf Hst]].
    destruct (step_inv _ _ Hlt Hs) as [[_ [Hc _]]|[Hsemi ->]].
    + destruct Hc as (Hs1 & Hle & Hlen & Hcur).
      exists segs. split; [|congruence].
      rewrite Hcur, app_assoc, <- Hf, !firstn_slice. symmetry.
      apply slice_app; lia.
    + exists (segs ++ [current st]). simpl. split.
      * rewrite flat_snoc, app_nil_r, app_assoc, <- Hf, !firstn_slice.
        rewrite <- (slice_one _ _ _ Hsemi). symmetry. apply slice_app; lia.
      * rewrite filter_trim_snoc, <- Hst. reflexivity.
Qed.





End Segments.

(** ** Consequences for [splitStatements] *)

Lemma split_segments (sql : jsstring) (dbType : DatabaseType) :
  exists segs,
    sql = joinWith [c_semicolon] segs /\
    splitStatements sql dbType = Some (filter truthy (map trim segs)).
Proof.
  destruct (splitStatements_total sql dbType) as (st & Hr & Hi & Hsp).
  destruct (reach_segmented _ _ _ Hr) as (segs & Hf & Hst).
  exists (segs ++ [current st]). split.
  - rewrite <- flat_join, <- Hf, Hi. symmetry. apply firstn_all.
  - rewrite Hsp. unfold finish. rewrite filter_trim_snoc, Hst. reflexivity.
Qed.



Lemma isWhiteSpace_semicolon : isWhiteSpace c_semicolon = false.
Proof. reflexivity. Qed.

Lemma join_ws (segs : list jsstring) :
  allWhiteSpace (joinWith [c_semicolon] segs) = true ->
  filter truthy (map trim segs) = [].
Proof.
  destruct segs as [|x [|y l]]; cbn [joinWith]; intros H.
  - reflexivity.
  - simpl. now rewrite (trim_ws x H).
  - unfold allWhiteSpace in H. rewrite forallb_app in H.
    apply andb_prop in H. destruct H as [_ H].
    cbn [app forallb] in H. rewrite isWhiteSpace_semicolon in H. discriminate.
Qed.









(** ** Regions: what the quote and comment loops consume *)

Lemma isChar_eq (q : N) (x : option N) : x = Some q -> isChar q x = true.
Proof. intros ->. simpl. apply N.eqb_refl. Qed.

Lemma isChar_neq (q : N) (x : option N) : x <> Some q -> isChar q x = false.
Proof.
  destruct x as [y|]; simpl; [|reflexivity].
  intros H. apply N.eqb_neq. congruence.
Qed.

Lemma consumes_eq (sql : jsstring) (st st' : scan) :
  consumes sql st st' ->
  st' = mkScan (statements st) (current st ++ slice sql (i st) (i st')) (i st').
Proof.
  intros (H1 & _ & _ & H2). destruct st'; simpl in *. congruence.
Qed.

Section Regions.

Variable config : SqlParserConfig.
Variable sql : jsstring.

(** A single-quoted literal that is closed at [b]: no quote before [b],
    no quote right after it, and no escaping backslash right before it. *)
Lemma singleQuote_closed (st1 : scan) (b : nat) :
  i st1 <= b ->
  charAt sql b = Some c_squote ->
  (forall p, i st1 <= p -> p < b -> charAt sql p <> Some c_squote) ->
  charAt sql (b + 1) <> Some c_squote ->
  (backslashEscape config = true -> i st1 < b ->
   charAt sql (b - 1) <> Some c_backslash) ->
  exists st',
    while (fuel sql) (inBounds sql) (singleQuoteBody config sql) st1 = Some st' /\
    consumes sql st1 st' /\ i st' = b + 1.
Proof.
  intros Hle Hb Hno Hnext Hesc.
  pose proof (charAt_lt _ _ _ Hb) as Hblt.
  apply (while_total (inBounds sql) (singleQuoteBody config sql)
           (fun s => consumes sql st1 s /\ i s <= b)
           (fun s => consumes sql st1 s /\ i s = b + 1)
           (fun s => length sql - i s)).
  - intros s [_ Hs] Ec. unfold inBounds in Ec. apply Nat.ltb_ge in Ec. lia.
  - intros s [Hc Hs] Ec. apply inBounds_lt in Ec. split; [lia|].
    pose proof Hc as (_ & Hge & _).
    unfold singleQuoteBody.
    destruct (Nat.eq_dec (i s) b) as [E|E].
    + rewrite E, Hb, (isChar_neq _ _ Hnext). cbn [isChar andb].
      replace (N.eqb c_squote c_squote) with true by reflexivity.
      replace (N.eqb c_squote c_backslash) with false by reflexivity.
      rewrite !andb_false_r.
      eexists; split; [reflexivity|]. split; [|simpl; lia].
      eapply consumes_trans; [exact Hc|].
      apply advances_emit1. now rewrite E.
    + rewrite (isChar_neq c_squote (charAt sql (i s))) by (apply Hno; lia).
      cbn [andb].
      assert (Et : backslashEscape config
                   && isChar c_backslash (charAt sql (i s))
                   && isChar c_squote (charAt sql (i s + 1)) = false).
      { destruct (backslashEscape config) eqn:E1; [|reflexivity].
        destruct (isChar c_backslash (charAt sql (i s))) eqn:E2; [|reflexivity].
        destruct (isChar c_squote (charAt sql (i s + 1))) eqn:E3; [|reflexivity].
        exfalso. apply isChar_true in E2, E3.
        destruct (Nat.eq_dec (i s + 1) b) as [E4|E4].
        - apply Hesc; [reflexivity|lia|].
          now replace (b - 1) with (i s) by lia.
        - apply (Hno (i s + 1)); [lia|lia|assumption]. }
      rewrite Et.
      eexists; split; [reflexivity|]. split; [split|].
      * eapply consumes_trans; [exact Hc|]. now apply advances_emitChar.
      * simpl. lia.
      * simpl. lia.
  - split; [apply consumes_refl; lia|assumption].
  - unfold fuel. lia.
Qed.

(** A single-quoted literal that is never closed runs to the end of the
    text. *)
Lemma singleQuote_open (st1 : scan) :
  i st1 <= length sql ->
  (forall p, i st1 <= p -> charAt sql p <> Some c_squote) ->
  exists st',
    while (fuel sql) (inBounds sql) (singleQuoteBody config sql) st1 = Some st' /\
    consumes sql st1 st' /\ i st' = length sql.
Proof.
  intros Hle Hno.
  apply (while_total (inBounds sql) (singleQuoteBody config sql)
           (fun s => consumes sql st1 s)
           (fun s => consumes sql st1 s /\ i s = length sql)
           (fun s => length sql - i s)).
  - intros s Hc Ec. split; [assumption|].
    destruct Hc as (_ & _ & Hl & _).
    unfold inBounds in Ec. apply Nat.ltb_ge in Ec. lia.
  - intros s Hc Ec. apply inBounds_lt in Ec. split; [lia|].
    pose proof Hc as (_ & Hge & _).
    unfold singleQuoteBody.
    rewrite (isChar_neq c_squote (charAt sql (i s))) by (apply Hno; lia).
    rewrite (isChar_neq c_squote (charAt sql (i s + 1))) by (apply Hno; lia).
    cbn [andb]. rewrite !andb_false_r.
    eexists; split; [reflexivity|]. split.
    + eapply consumes_trans; [exact Hc|]. now apply advances_emitChar.
    + simpl. lia.
  - now apply consumes_refl.
  - unfold fuel. lia.
Qed.

End Regions.

Section Comments.

Variable config : SqlParserConfig.
Variable sql : jsstring.

(** Without nesting a block comment ends at the first [*/]. *)
Lemma block_closed (st1 : scan) (k : nat) :
  i st1 <= k ->
  charAt sql k = Some c_star -> charAt sql (k + 1) = Some c_slash ->
  (forall p, i st1 <= p -> p < k ->
     ~ (charAt sql p = Some c_star /\ charAt sql (p + 1) = Some c_slash)) ->
  exists st',
    while (fuel sql) (inBounds sql) (blockBody sql) st1 = Some st' /\
    consumes sql st1 st' /\ i st' = k + 2.
Proof.
  intros Hle Hk1 Hk2 Hno.
  pose proof (charAt_lt _ _ _ Hk2) as Hklt.
  apply (while_total (inBounds sql) (blockBody sql)
           (fun s => consumes sql st1 s /\ i s <= k)
           (fun s => consumes sql st1 s /\ i s = k + 2)
           (fun s => length sql - i s)).
  - intros s [_ Hs] Ec. unfold inBounds in Ec. apply Nat.ltb_ge in Ec. lia.
  - intros s [Hc Hs] Ec. apply inBounds_lt in Ec. split; [lia|].
    pose proof Hc as (_ & Hge & _).
    unfold blockBody.
    destruct (isChar c_star (charAt sql (i s))
              && isChar c_slash (charAt sql (i s + 1))) eqn:Et.
    + apply andb_prop in Et. destruct Et as [E1 E2].
      apply isChar_true in E1, E2.
      assert (i s = k).
      { destruct (Nat.eq_dec (i s) k) as [E|E]; [assumption|].
        exfalso. apply (Hno (i s)); [lia|lia|auto]. }
      eexists; split; [reflexivity|]. split; [|simpl; lia].
      eapply consumes_trans; [exact Hc|]. now apply advances_emit2.
    + assert (i s <> k).
      { intros E. rewrite E, Hk1, Hk2 in Et. discriminate Et. }
      eexists; split; [reflexivity|]. split; [split|].
      * eapply consumes_trans; [exact Hc|]. now apply advances_emitChar.
      * simpl. lia.
      * simpl. lia.
  - split; [apply consumes_refl; lia|assumption].
  - unfold fuel. lia.
Qed.

(** A position that holds neither a slash nor a star. *)
Definition plain (p : nat) : Prop :=
  charAt sql p <> Some c_slash /\ charAt sql p <> Some c_star.

(** With nesting: a comment with one inner comment, opened at [o] and
    closed at [c1], ends at the second [*/], at [c2]. *)
Lemma nested_one_level (st1 : scan) (o c1 c2 : nat) :
  i st1 <= o -> o + 2 <= c1 -> c1 + 2 <= c2 ->
  charAt sql o = Some c_slash -> charAt sql (o + 1) = Some c_star ->
  charAt sql c1 = Some c_star -> charAt sql (c1 + 1) = Some c_slash ->
  charAt sql c2 = Some c_star -> charAt sql (c2 + 1) = Some c_slash ->
  (forall p, i st1 <= p -> p < c2 ->
     p <> o -> p <> o + 1 -> p <> c1 -> p <> c1 + 1 -> plain p) ->
  exists st',
    while (fuel sql) (nestedCond sql) (nestedBody sql) (st1, 1) = Some (st', 0) /\
    consumes sql st1 st' /\ i st' = c2 + 2.
Proof.
  intros Hle Ho1 H12 Ho Ho' Hc1 Hc1' Hc2 Hc2' Hplain.
  pose proof (charAt_lt _ _ _ Hc2') as Hlt2.
  pose (phase := fun sd : scan * nat =>
          (i (fst sd) <= o /\ snd sd = 1) \/
          (o + 2 <= i (fst sd) /\ i (fst sd) <= c1 /\ snd sd = 2) \/
          (c1 + 2 <= i (fst sd) /\ i (fst sd) <= c2 /\ snd sd = 1) \/
          (i (fst sd) = c2 + 2 /\ snd sd = 0)).
  destruct (while_total (nestedCond sql) (nestedBody sql)
              (fun sd => consumes sql st1 (fst sd) /\ phase sd)
              (fun sd => consumes sql st1 (fst sd) /\
                         i (fst sd) = c2 + 2 /\ snd sd = 0)
              (fun sd => length sql - i (fst sd)))
    with (f := fuel sql) (s := (st1, 1)) as [[st' d'] [Hw HP]].
  - intros [s d] [Hc Hph] Ec. simpl in *. split; [assumption|].
    unfold nestedCond, inBounds in Ec; simpl in Ec.
    apply andb_false_iff in Ec.
    rewrite Nat.ltb_ge, Nat.ltb_ge in Ec.
    unfold phase in Hph; simpl in Hph. lia.
  - intros [s d] [Hc Hph] Ec. simpl in *.
    unfold nestedCond in Ec; simpl in Ec. apply andb_prop in Ec.
    destruct Ec as [Ec Ed]. apply inBounds_lt in Ec. apply Nat.ltb_lt in Ed.
    split; [lia|].
    pose proof Hc as (_ & Hge & _).
    unfold nestedBody; simpl.
    assert (Hcases : i s = o \/ i s = c1 \/ i s = c2 \/
                     (i s <> o /\ i s <> c1 /\ i s <> c2)) by lia.
    unfold phase in Hph; simpl in Hph.
    destruct Hcases as [E|[E|[E|E]]].
    + rewrite E, Ho, Ho'. cbn.
      eexists; split; [reflexivity|]. simpl. split; [split|lia].
      * eapply consumes_trans; [exact Hc|]. apply advances_emit2; now rewrite E.
      * unfold phase; simpl. lia.
    + rewrite E, Hc1, Hc1'. cbn.
      eexists; split; [reflexivity|]. simpl. split; [split|lia].
      * eapply consumes_trans; [exact Hc|]. apply advances_emit2; now rewrite E.
      * unfold phase; simpl. lia.
    + rewrite E, Hc2, Hc2'. cbn.
      eexists; split; [reflexivity|]. simpl. split; [split|lia].
      * eapply consumes_trans; [exact Hc|]. apply advances_emit2; now rewrite E.
      * unfold phase; simpl. lia.
    + assert (Hp : plain (i s)) by (apply Hplain; lia).
      destruct Hp as [Hp1 Hp2].
      rewrite (isChar_neq _ _ Hp1), (isChar_neq _ _ Hp2). cbn [andb].
      eexists; split; [reflexivity|]. simpl. split; [split|lia].
      * eapply consumes_trans; [exact Hc|]. now apply advances_emitChar.
      * unfold phase; simpl. lia.
  - simpl. split; [apply consumes_refl; lia|]. unfold phase; simpl. lia.
  - unfold fuel; simpl. lia.
  - simpl in HP. destruct HP as (Hc & Hi & ->). exists st'. auto.
Qed.

End Comments.

(** ** [indexOf] returns the first occurrence *)

(** [t] occurs in [s] at position [k]. *)
Definition occursAt (s t : jsstring) (k : nat) : Prop :=
  k + length t <= length s /\ slice s k (k + length t) = t.

Lemma startsWith_firstn (s t : jsstring) :
  startsWith s t = true <-> length t <= length s /\ firstn (length t) s = t.
Proof.
  revert s; induction t as [|c t IH]; intros [|d s]; simpl.
  - split; [intros _; split; [lia|reflexivity]|reflexivity].
  - split; [intros _; split; [lia|reflexivity]|reflexivity].
  - split; [discriminate|intros [H _]; lia].
  - rewrite andb_true_iff, N.eqb_eq, IH. split.
    + intros [-> [H1 H2]]. split; [lia|now rewrite H2].
    + intros [H1 H2]. injection H2 as -> H2. repeat split; [lia|assumption].
Qed.

Lemma startsWith_occursAt (s t : jsstring) (k : nat) :
  k <= length s ->
  startsWith (skipn k s) t = true <-> occursAt s t k.
Proof.
  intros Hk. rewrite startsWith_firstn, length_skipn. unfold occursAt, slice.
  replace (k + length t - k) with (length t) by lia.
  split; intros [H1 H2]; (split; [lia|assumption]).
Qed.

Lemma indexOf_aux_least (t : jsstring) (s : jsstring) (k0 : nat) :
  match indexOf_aux s t k0 with
  | Some r =>
      k0 <= r /\ startsWith (skipn (r - k0) s) t = true /\
      forall n, n < r - k0 -> startsWith (skipn n s) t = false
  | None => forall n, n <= length s -> startsWith (skipn n s) t = false
  end.
Proof.
  revert k0; induction s as [|d s IH]; intros k0; cbn [indexOf_aux].
  - destruct (startsWith [] t) eqn:E.
    + rewrite Nat.sub_diag. repeat split; [lia|assumption|intros; lia].
    + intros n Hn. now rewrite skipn_nil.
  - destruct (startsWith (d :: s) t) eqn:E.
    + rewrite Nat.sub_diag. repeat split; [lia|assumption|intros; lia].
    + specialize (IH (S k0)). destruct (indexOf_aux s t (S k0)) as [r|].
      * destruct IH as (H1 & H2 & H3).
        replace (r - k0) with (S (r - S k0)) by lia.
        repeat split; [lia|assumption|].
        intros [|n] Hn; [assumption|]. apply H3. lia.
      * intros [|n] Hn; [assumption|]. apply IH. simpl in Hn. lia.
Qed.

Lemma indexOf_some (s t : jsstring) (from k : nat) :
  from <= length s ->
  indexOf s t from = Some k ->
  from <= k /\ occursAt s t k /\
  forall k', from <= k' -> k' < k -> ~ occursAt s t k'.
Proof.
  intros Hf. unfold indexOf. rewrite Nat.min_l by assumption.
  intros H. pose proof (indexOf_aux_bounds _ _ _ _ H) as [Hb1 Hb2].
  rewrite length_skipn in Hb2.
  pose proof (indexOf_aux_least t (skipn from s) from) as HL.
  rewrite H in HL. destruct HL as (H1 & H2 & H3).
  rewrite skipn_skipn in H2. replace (k - from + from) with k in H2 by lia.
  split; [assumption|]. split.
  - apply startsWith_occursAt; [lia|assumption].
  - intros k' Hk1 Hk2 Hocc.
    apply startsWith_occursAt in Hocc; [|destruct Hocc; lia].
    specialize (H3 (k' - from)). rewrite skipn_skipn in H3.
    replace (k' - from + from) with k' in H3 by lia.
    rewrite H3 in Hocc by lia. discriminate.
Qed.

Lemma indexOf_none (s t : jsstring) (from : nat) :
  from <= length s ->
  indexOf s t from = None ->
  forall k, from <= k -> ~ occursAt s t k.
Proof.
  intros Hf. unfold indexOf. rewrite Nat.min_l by assumption.
  intros H k Hk Hocc.
  pose proof (indexOf_aux_least t (skipn from s) from) as HL.
  rewrite H in HL.
  assert (Hkl : k <= length s) by (destruct Hocc; lia).
  apply startsWith_occursAt in Hocc; [|assumption].
  specialize (HL (k - from)). rewrite skipn_skipn, length_skipn in HL.
  replace (k - from + from) with k in HL by lia.
  rewrite HL in Hocc by lia. discriminate.
Qed.

(** The first occurrence from [from] on is what [indexOf] answers. *)
Lemma indexOf_first (s t : jsstring) (from k : nat) :
  from <= k -> occursAt s t k ->
  (forall k', from <= k' -> k' < k -> ~ occursAt s t k') ->
  indexOf s t from = Some k.
Proof.
  intros Hk Hocc Hleast.
  assert (Hf : from <= length s) by (destruct Hocc; lia).
  destruct (indexOf s t from) as [r|] eqn:E.
  - destruct (indexOf_some _ _ _ _ Hf E) as (H1 & H2 & H3).
    destruct (Nat.lt_trichotomy r k) as [Hlt|[->|Hgt]]; [|reflexivity|].
    + exfalso. now apply (Hleast r).
    + exfalso. now apply (H3 k).
  - exfalso. now apply (indexOf_none _ _ _ Hf E k).
Qed.

Lemma indexOf_absent (s t : jsstring) (from : nat) :
  from <= length s ->
  (forall k, from <= k -> ~ occursAt s t k) ->
  indexOf s t from = None.
Proof.
  intros Hf Hno. destruct (indexOf s t from) as [r|] eqn:E; [|reflexivity].
  destruct (indexOf_some _ _ _ _ Hf E) as (H1 & H2 & _).
  exfalso. now apply (Hno r).
Qed.

(** ** The dispatch of the main loop on the opening delimiters *)

Lemma isTagChar_not_dollar (c : N) : isTagChar c = true -> c <> c_dollar.
Proof. intros H ->. discriminate H. Qed.

Section Dispatch.

Variable config : SqlParserConfig.
Variable sql : jsstring.

Lemma step_singleQuote (st : scan) :
  charAt sql (i st) = Some c_squote ->
  step config sql st =
  option_map Next
    (while (fuel sql) (inBounds sql) (singleQuoteBody config sql)
       (emitChar sql st)).
Proof. intros H. unfold step. now rewrite H. Qed.

Lemma step_blockComment (st : scan) :
  charAt sql (i st) = Some c_slash -> charAt sql (i st + 1) = Some c_star ->
  step config sql st =
  if nestedBlockComments config then
    option_map (fun sd => Next (fst sd))
      (while (fuel sql) (nestedCond sql) (nestedBody sql)
         (emit st [c_slash; c_star] 2, 1))
  else
    option_map Next
      (while (fuel sql) (inBounds sql) (blockBody sql)
         (emit st [c_slash; c_star] 2)).
Proof.
  intros H1 H2. unfold step, stepRest. rewrite H1, H2.
  cbn [isChar].
  replace (N.eqb c_slash c_squote) with false by reflexivity.
  replace (N.eqb c_slash c_dquote) with false by reflexivity.
  replace (N.eqb c_slash c_backtick) with false by reflexivity.
  replace (N.eqb c_slash c_lbracket) with false by reflexivity.
  replace (N.eqb c_slash c_dollar) with false by reflexivity.
  replace (N.eqb c_slash c_hash) with false by reflexivity.
  replace (N.eqb c_slash c_dash) with false by reflexivity.
  replace (N.eqb c_slash c_slash) with true by reflexivity.
  replace (N.eqb c_star c_star) with true by reflexivity.
  rewrite !andb_false_r. reflexivity.
Qed.

Lemma step_dollar (st : scan) :
  dollarQuotes config = true ->
  charAt sql (i st) = Some c_dollar ->
  step config sql st =
  match dollarQuote sql st with
  | None => None
  | Some (Some st') => Some (Next st')
  | Some None => stepRest config sql st
  end.
Proof.
  intros Hd H. unfold step. rewrite H, Hd.
  cbn [isChar].
  replace (N.eqb c_dollar c_squote) with false by reflexivity.
  replace (N.eqb c_dollar c_dquote) with false by reflexivity.
  replace (N.eqb c_dollar c_backtick) with false by reflexivity.
  replace (N.eqb c_dollar c_lbracket) with false by reflexivity.
  replace (N.eqb c_dollar c_dollar) with true by reflexivity.
  rewrite !andb_false_r. reflexivity.
Qed.

(** A closed literal goes into the buffer in one iteration. *)
Lemma step_literal_closed (st : scan) (b : nat) :
  charAt sql (i st) = Some c_squote ->
  i st < b ->
  charAt sql b = Some c_squote ->
  (forall p, i st < p -> p < b -> charAt sql p <> Some c_squote) ->
  charAt sql (b + 1) <> Some c_squote ->
  (backslashEscape config = true -> i st + 1 < b ->
   charAt sql (b - 1) <> Some c_backslash) ->
  step config sql st =
  Some (Next (mkScan (statements st)
                     (current st ++ slice sql (i st) (b + 1)) (b + 1))).
Proof.
  intros Hq Hlt Hb Hno Hnext Hesc.
  pose proof (advances_emitChar sql st (charAt_lt _ _ _ Hq)) as [Hadv _].
  destruct (singleQuote_closed config sql (emitChar sql st) b)
    as (st' & Hw & Hc & Hi); simpl; try assumption; try lia.
  - intros p Hp1 Hp2. apply Hno; lia.
  - rewrite step_singleQuote, Hw by assumption. simpl.
    rewrite (consumes_eq sql st st' (consumes_trans _ _ _ _ Hadv Hc)), Hi.
    reflexivity.
Qed.

(** An unterminated literal takes the rest of the text. *)
Lemma step_literal_open (st : scan) :
  charAt sql (i st) = Some c_squote ->
  (forall p, i st < p -> charAt sql p <> Some c_squote) ->
  step config sql st =
  Some (Next (mkScan (statements st)
                     (current st ++ slice sql (i st) (length sql))
                     (length sql))).
Proof.
  intros Hq Hno.
  pose proof (charAt_lt _ _ _ Hq) as Hlt.
  pose proof (advances_emitChar sql st Hlt) as [Hadv _].
  destruct (singleQuote_open config sql (emitChar sql st))
    as (st' & Hw & Hc & Hi); simpl; try lia.
  - intros p Hp. apply Hno; lia.
  - rewrite step_singleQuote, Hw by assumption. simpl.
    rewrite (consumes_eq sql st st' (consumes_trans _ _ _ _ Hadv Hc)), Hi.
    reflexivity.
Qed.

(** Without nesting, the comment opened at the cursor ends with the first
    [*/] after the opening, whatever lies in between. *)
Lemma step_block_first_close (st : scan) (k : nat) :
  nestedBlockComments config = false ->
  charAt sql (i st) = Some c_slash -> charAt sql (i st + 1) = Some c_star ->
  i st + 2 <= k ->
  charAt sql k = Some c_star -> charAt sql (k + 1) = Some c_slash ->
  (forall p, i st + 2 <= p -> p < k ->
     ~ (charAt sql p = Some c_star /\ charAt sql (p + 1) = Some c_slash)) ->
  step config sql st =
  Some (Next (mkScan (statements st)
                     (current st ++ slice sql (i st) (k + 2)) (k + 2))).
Proof.
  intros Hn H1 H2 Hk Hk1 Hk2 Hno.
  pose proof (advances_emit2 sql st _ _ H1 H2) as [Hadv _].
  destruct (block_closed sql (emit st [c_slash; c_star] 2) k)
    as (st' & Hw & Hc & Hi); simpl; try assumption; try lia.
  rewrite step_blockComment, Hn, Hw by assumption. simpl.
  rewrite (consumes_eq sql st st' (consumes_trans _ _ _ _ Hadv Hc)), Hi.
  reflexivity.
Qed.

(** With nesting, the inner [*/] at [c1] does not end the comment: it
    ends at [c2]. *)
Lemma step_block_nested (st : scan) (o c1 c2 : nat) :
  nestedBlockComments config = true ->
  charAt sql (i st) = Some c_slash -> charAt sql (i st + 1) = Some c_star ->
  i st + 2 <= o -> o + 2 <= c1 -> c1 + 2 <= c2 ->
  charAt sql o = Some c_slash -> charAt sql (o + 1) = Some c_star ->
  charAt sql c1 = Some c_star -> charAt sql (c1 + 1) = Some c_slash ->
  charAt sql c2 = Some c_star -> charAt sql (c2 + 1) = Some c_slash ->
  (forall p, i st + 2 <= p -> p < c2 ->
     p <> o -> p <> o + 1 -> p <> c1 -> p <> c1 + 1 -> plain sql p) ->
  step config sql st =
  Some (Next (mkScan (statements st)
                     (current st ++ slice sql (i st) (c2 + 2)) (c2 + 2))).
Proof.
  intros Hn H1 H2 Ho H12 H23 Ho1 Ho2 Hc1 Hc1' Hc2 Hc2' Hplain.
  pose proof (advances_emit2 sql st _ _ H1 H2) as [Hadv _].
  destruct (nested_one_level sql (emit st [c_slash; c_star] 2) o c1 c2)
    as (st' & Hw & Hc & Hi); simpl; try assumption; try lia.
  rewrite step_blockComment, Hn, Hw by assumption. simpl.
  rewrite (consumes_eq sql st st' (consumes_trans _ _ _ _ Hadv Hc)), Hi.
  reflexivity.
Qed.

(** The opening tag of a dollar quote: the dollar at the cursor, a run of
    tag characters, and the dollar at [j]. *)
Lemma tag_valid (st : scan) (j : nat) :
  charAt sql (i st) = Some c_dollar ->
  i st < j -> charAt sql j = Some c_dollar ->
  (forall p, i st < p -> p < j ->
     exists c, charAt sql p = Some c /\ isTagChar c = true) ->
  while (fuel sql) (tagCond sql) (tagBody sql) ([c_dollar], i st + 1)
  = Some (slice sql (i st) (j + 1), j + 1).
Proof.
  intros Hd Hlt Hj Htag.
  pose proof (charAt_lt _ _ _ Hj) as Hjlt.
  destruct (while_total (tagCond sql) (tagBody sql)
              (fun tj => i st < snd tj /\ snd tj <= j /\
                         fst tj = slice sql (i st) (snd tj))
              (fun tj => tj = (slice sql (i st) (j + 1), j + 1))
              (fun tj => length sql - snd tj))
    with (f := fuel sql) (s := ([c_dollar], i st + 1)) as [tj [Hw HP]].
  - intros [tag p] (H1 & H2 & H3) Ec. simpl in *. exfalso.
    unfold tagCond in Ec; simpl in Ec.
    destruct (Nat.eq_dec p j) as [E|E].
    + rewrite E, Hj in Ec. simpl in Ec.
      apply andb_false_iff in Ec. destruct Ec as [Ec|Ec]; [|discriminate].
      apply Nat.ltb_ge in Ec. lia.
    + destruct (Htag p) as [c [Hc Ht]]; [lia|lia|].
      rewrite Hc, Ht in Ec. simpl in Ec. rewrite andb_true_r in Ec.
      apply Nat.ltb_ge in Ec. lia.
  - intros [tag p] (H1 & H2 & H3) Ec. simpl in *. split; [lia|].
    unfold tagBody; simpl.
    destruct (Nat.eq_dec p j) as [E|E].
    + rewrite E, Hj. simpl. eexists; split; [reflexivity|]. simpl.
      rewrite H3, E, <- (slice_one _ _ _ Hj). f_equal. apply slice_app; lia.
    + destruct (Htag p) as [c [Hc Ht]]; [lia|lia|].
      rewrite Hc. simpl.
      apply isTagChar_not_dollar, N.eqb_neq in Ht. rewrite Ht.
      eexists; split; [reflexivity|]. simpl. repeat split; try lia.
      rewrite H3, <- (slice_one _ _ _ Hc). apply slice_app; lia.
  - simpl. repeat split; try lia. symmetry. now apply slice_one.
  - unfold fuel; simpl. lia.
  - now rewrite Hw, HP.
Qed.

Lemma endsWith_snoc (s : jsstring) (c : N) : endsWith (s ++ [c]) c = true.
Proof. unfold endsWith. rewrite rev_app_distr. simpl. apply N.eqb_refl. Qed.

Lemma dollar_tag_ok (st : scan) (j : nat) :
  i st < j -> charAt sql j = Some c_dollar ->
  endsWith (slice sql (i st) (j + 1)) c_dollar
  && (2 <=? length (slice sql (i st) (j + 1))) = true.
Proof.
  intros Hlt Hj. pose proof (charAt_lt _ _ _ Hj) as Hjlt.
  rewrite slice_length by lia.
  rewrite <- (slice_app sql (i st) j (j + 1)), (slice_one _ _ _ Hj) by lia.
  rewrite endsWith_snoc, andb_true_l. apply Nat.leb_le. lia.
Qed.

(** A dollar quote whose tag occurs again, first at [k]: the region ends
    right after that occurrence. *)
Lemma step_dollar_closed (st : scan) (j k : nat) :
  dollarQuotes config = true ->
  charAt sql (i st) = Some c_dollar ->
  i st < j -> charAt sql j = Some c_dollar ->
  (forall p, i st < p -> p < j ->
     exists c, charAt sql p = Some c /\ isTagChar c = true) ->
  j + 1 <= k ->
  occursAt sql (slice sql (i st) (j + 1)) k ->
  (forall k', j + 1 <= k' -> k' < k ->
     ~ occursAt sql (slice sql (i st) (j + 1)) k') ->
  step config sql st =
  Some (Next (mkScan (statements st)
                     (current st ++ slice sql (i st) (k + (j + 1 - i st)))
                     (k + (j + 1 - i st)))).
Proof.
  intros Hdq Hd Hlt Hj Htag Hk Hocc Hleast.
  pose proof (charAt_lt _ _ _ Hj) as Hjlt.
  assert (Hlen : length (slice sql (i st) (j + 1)) = j + 1 - i st)
    by (apply slice_length; lia).
  pose proof Hocc as [Hbound _]. rewrite Hlen in Hbound.
  rewrite step_dollar by assumption. unfold dollarQuote.
  rewrite (tag_valid st j), dollar_tag_ok by assumption.
  rewrite (indexOf_first _ _ _ k Hk Hocc Hleast), Hlen.
  rewrite substring_slice by lia.
  rewrite <- app_assoc, !slice_app by lia. reflexivity.
Qed.

(** A dollar quote whose tag never occurs again takes the rest of the
    text. *)
Lemma step_dollar_open (st : scan) (j : nat) :
  dollarQuotes config = true ->
  charAt sql (i st) = Some c_dollar ->
  i st < j -> charAt sql j = Some c_dollar ->
  (forall p, i st < p -> p < j ->
     exists c, charAt sql p = Some c /\ isTagChar c = true) ->
  (forall k, j + 1 <= k -> ~ occursAt sql (slice sql (i st) (j + 1)) k) ->
  step config sql st =
  Some (Next (mkScan (statements st)
                     (current st ++ slice sql (i st) (length sql))
                     (length sql))).
Proof.
  intros Hdq Hd Hlt Hj Htag Hno.
  pose proof (charAt_lt _ _ _ Hj) as Hjlt.
  rewrite step_dollar by assumption. unfold dollarQuote.
  rewrite (tag_valid st j), dollar_tag_ok by assumption.
  rewrite (indexOf_absent sql _ (j + 1)) by (lia || assumption).
  unfold substringFrom. rewrite substring_slice by lia.
  rewrite <- app_assoc, !slice_app by lia. reflexivity.
Qed.

End Dispatch.

(** ** The end of the run is unique *)

Lemma reach_unique (config : SqlParserConfig) (sql : jsstring) (a b : scan) :
  reach config sql a -> reach config sql b -> i a = i b -> a = b.
Proof.
  intros Ha Hb E.
  destruct (steps_linear _ _ _ _ _ Ha Hb) as [H|H].
  - now apply (steps_eq _ _ _ _ H).
  - symmetry. apply (steps_eq _ _ _ _ H). now symmetry.
Qed.

Lemma split_at_end (sql : jsstring) (dbType : DatabaseType) (st : scan) :
  reach (SQL_PARSER_CONFIGS dbType) sql st -> i st = length sql ->
  splitStatements sql dbType = Some (finish st).
Proof.
  intros Hr Hi.
  destruct (splitStatements_total sql dbType) as (st' & Hr' & Hi' & Hsp).
  rewrite Hsp. f_equal. f_equal.
  apply (reach_unique _ _ _ _ Hr' Hr). congruence.
Qed.

Lemma trim_starts (c : N) (s : jsstring) :
  isWhiteSpace c = false -> truthy (trim (c :: s)) = true.
Proof.
  intros Hc. apply truthy_true. intros E.
  destruct (trim_split (c :: s)) as (lead & trail & H & Hl & Ht).
  rewrite E in H. simpl in H.
  assert (Hws : allWhiteSpace (c :: s) = true).
  { rewrite H. unfold allWhiteSpace in *. rewrite forallb_app, Hl, Ht. reflexivity. }
  simpl in Hws. rewrite Hc in Hws. discriminate.
Qed.

(** ** The examples of the specification *)

Example backtick_backslash_mysql :
  splitStatements
    (lit "SELECT 'it" ++ [c_backslash] ++ lit "'s'; SELECT `a;b`;") mysql
  = Some [lit "SELECT 'it" ++ [c_backslash] ++ lit "'s'"; lit "SELECT `a;b`"].
Proof. vm_compute. reflexivity. Qed.

Example bracket_mssql :
  splitStatements (lit "SELECT [col;name] FROM t;") mssql
  = Some [lit "SELECT [col;name] FROM t"].
Proof. vm_compute. reflexivity. Qed.

Example no_trailing_separator (dbType : DatabaseType) :
  splitStatements (lit "SELECT 1") dbType = Some [lit "SELECT 1"].
Proof. destruct dbType; vm_compute; reflexivity. Qed.

(** A semicolon inside a region is text like any other, also at the end
    of a statement. *)
Example semicolon_in_comment (dbType : DatabaseType) :
  splitStatements (lit "SELECT 1 -- done;") dbType
  = Some [lit "SELECT 1 -- done;"].
Proof. destruct dbType; vm_compute; reflexivity. Qed.

(** * The properties of the specification *)

(** C3: the configuration table is defined on each of the four database
    types, which are all there are, and its four entries are these. *)
Theorem config_table :
  (forall dbType : DatabaseType,
     dbType = postgresql \/ dbType = mysql \/ dbType = mssql \/ dbType = sqlite) /\
  (forall dbType : DatabaseType, exists c, SQL_PARSER_CONFIGS dbType = c) /\
  SQL_PARSER_CONFIGS postgresql =
    {| dollarQuotes := true; nestedBlockComments := true;
       backtickIdentifiers := false; backslashEscape := false;
       hashLineComment := false; bracketIdentifiers := false |} /\
  SQL_PARSER_CONFIGS mysql =
    {| dollarQuotes := false; nestedBlockComments := false;
       backtickIdentifiers := true; backslashEscape := true;
       hashLineComment := true; bracketIdentifiers := false |} /\
  SQL_PARSER_CONFIGS mssql =
    {| dollarQuotes := false; nestedBlockComments := false;
       backtickIdentifiers := false; backslashEscape := false;
       hashLineComment := false; bracketIdentifiers := true |} /\
  SQL_PARSER_CONFIGS sqlite =
    {| dollarQuotes := false; nestedBlockComments := false;
       backtickIdentifiers := true; backslashEscape := false;
       hashLineComment := false; bracketIdentifiers := true |}.
Proof.
  split; [intros []; auto|].
  split; [intros d; now eexists|].
  split; [reflexivity|]. split; [reflexivity|]. split; reflexivity.
Qed.

(** C9: the split always ends with a result.  Every iteration of the main
    loop succeeds and moves the cursor strictly forward without passing
    the end of the text, and so does every iteration of the loops inside
    the handlers; the cursor never decreases along the run, and the main
    loop ends with the cursor at the end of the text. *)
Theorem split_terminates :
  (forall sql dbType, exists out, splitStatements sql dbType = Some out) /\
  (forall config sql st,
     i st < length sql ->
     exists st', step config sql st = Some (Next st') /\
                 i st < i st' /\ i st' <= length sql) /\
  (forall config sql body s,
     In body [singleQuoteBody config sql; doubleQuoteBody sql;
              backtickBody sql; bracketBody sql; lineBody sql;
              blockBody sql] ->
     i s < length sql ->
     exists r, body s = Some r /\
               i s < i (flowState r) /\ i (flowState r) <= length sql) /\
  (forall sql s depth,
     i s < length sql ->
     exists s' depth', nestedBody sql (s, depth) = Some (Next (s', depth')) /\
                       i s < i s' /\ i s' <= length sql) /\
  (forall config sql a b, steps config sql a b -> i a <= i b) /\
  (forall config sql,
     exists st, scanAll config sql = Some st /\ i st = length sql).
Proof.
  split; [|split; [|split; [|split; [|split]]]].
  - intros sql d. destruct (splitStatements_total sql d) as (st & _ & _ & H).
    exists (finish st). exact H.
  - intros config sql st Hlt.
    destruct (step_stepped config sql st Hlt) as [st' [Hs Hst]].
    exists st'. split; [assumption|]. now apply (stepped_lt sql).
  - intros config sql body s Hin Hlt.
    assert (G : exists r, body s = Some r /\ advances sql s (flowState r)).
    { simpl in Hin.
      destruct Hin as [<-|[<-|[<-|[<-|[<-|[<-|[]]]]]]].
      - now apply singleQuoteBody_advances.
      - now apply doubleQuoteBody_advances.
      - now apply backtickBody_advances.
      - now apply bracketBody_advances.
      - now apply lineBody_advances.
      - now apply blockBody_advances. }
    destruct G as [r [Hr [(_ & _ & Hle & _) Hadv]]]. exists r. auto.
  - intros sql s d Hlt.
    destruct (nestedBody_advances sql s d Hlt)
      as (s' & d' & Hr & [(_ & _ & Hle & _) Hadv]).
    exists s', d'. auto.
  - intros config sql a b. apply steps_le.
  - intros config sql. destruct (scanAll_total config sql) as (st & H & _ & Hi).
    now exists st.
Qed.

Lemma split_terminates_witness :
  (exists st',
     step (SQL_PARSER_CONFIGS mysql) (lit "a;b") initial = Some (Next st') /\
     i initial < i st' /\ i st' <= length (lit "a;b")) /\
  (exists r,
     blockBody (lit "/*a*/") (mkScan [] (lit "/*") 2) = Some r /\
     2 < i (flowState r) /\ i (flowState r) <= 5) /\
  (exists s' depth',
     nestedBody (lit "/*a*/") (mkScan [] (lit "/*a") 3, 1)
     = Some (Next (s', depth')) /\
     3 < i s' /\ i s' <= 5).
Proof.
  split; [|split].
  - apply (proj1 (proj2 split_terminates)
             (SQL_PARSER_CONFIGS mysql) (lit "a;b") initial).
    simpl. lia.
  - apply (proj1 (proj2 (proj2 split_terminates))
             (SQL_PARSER_CONFIGS mysql) (lit "/*a*/")
             (blockBody (lit "/*a*/")) (mkScan [] (lit "/*") 2)).
    + simpl. auto 10.
    + simpl. lia.
  - apply (proj1 (proj2 (proj2 (proj2 split_terminates)))
             (lit "/*a*/") (mkScan [] (lit "/*a") 3) 1).
    simpl. lia.
Defined.


(** C10: the empty text and every text of white space only give no
    statement. *)
Theorem whitespace_only :
  (forall dbType, splitStatements [] dbType = Some []) /\
  (forall sql dbType,
     allWhiteSpace sql = true -> splitStatements sql dbType = Some []).
Proof.
  assert (G : forall sql dbType,
             allWhiteSpace sql = true -> splitStatements sql dbType = Some []).
  { intros sql d Hws. destruct (split_segments sql d) as (segs & Hj & Hsp).
    rewrite Hsp. f_equal. apply join_ws. now rewrite <- Hj. }
  split; [|exact G]. intros d. now apply G.
Qed.

Lemma whitespace_only_witness :
  splitStatements [32; 9; 10; 13; 160; 8232; 65279]%N sqlite = Some [].
Proof.
  apply (proj2 whitespace_only [32; 9; 10; 13; 160; 8232; 65279]%N sqlite).
  reflexivity.
Defined.

(** C6: the output is the segments between the separators, each trimmed,
    without those that are empty once trimmed, so it has no empty entry.
    A remainder after the last separator that holds only a comment is an
    entry with the text of the comment, and a comment inside a statement
    stays in it. *)
Theorem empty_segments_dropped :
  (forall sql dbType,
     exists segs out,
       sql = joinWith [c_semicolon] segs /\
       splitStatements sql dbType = Some out /\
       out = filter truthy (map trim segs) /\
       ~ In [] out) /\
  (forall dbType,
     splitStatements (lit ";; SELECT 1; ; ;") dbType = Some [lit "SELECT 1"]) /\
  (forall dbType,
     splitStatements (lit "SELECT 1; -- done") dbType
     = Some [lit "SELECT 1"; lit "-- done"]) /\
  (forall dbType,
     splitStatements (lit "SELECT 1; /* done */ ") dbType
     = Some [lit "SELECT 1"; lit "/* done */"]) /\
  (forall dbType,
     splitStatements (lit "SELECT 1 /* one */ + 2 -- two") dbType
     = Some [lit "SELECT 1 /* one */ + 2 -- two"]).
Proof.
  split; [|split; [|split; [|split]]; intros []; vm_compute; reflexivity].
  intros sql d. destruct (split_segments sql d) as (segs & Hj & Hsp).
  exists segs, (filter truthy (map trim segs)).
  split; [assumption|]. split; [assumption|]. split; [reflexivity|].
  intros Hin. apply filter_In in Hin. destruct Hin as [_ H]. discriminate H.
Qed.


(** Nothing between the cursor of an iteration that does not stand on a
    semicolon and the cursor of the next iteration is a separator. *)
Lemma region_no_separator (config : SqlParserConfig) (sql : jsstring)
    (st st' : scan) :
  reach config sql st -> i st < length sql ->
  step config sql st = Some (Next st') ->
  charAt sql (i st) <> Some c_semicolon ->
  forall p, i st <= p -> p < i st' -> ~ separatorAt config sql p.
Proof.
  intros Hr Hlt Hs Hns p Hp1 Hp2 [Hh Hsemi].
  destruct (Nat.eq_dec p (i st)) as [->|Hne]; [contradiction|].
  revert Hh. eapply no_between; try eassumption. lia.
Qed.

Lemma charAt_cons (c : N) (s : jsstring) (p : nat) :
  0 < p -> charAt (c :: s) p = charAt s (p - 1).
Proof. destruct p; [lia|]. intros _. simpl. now rewrite Nat.sub_0_r. Qed.

(** C1: the two statements of the example, for each database type; and in
    general a closed single-quoted literal met by the main loop goes
    whole into the buffer in one iteration that emits nothing, so that no
    position of the literal is a separator. *)
Theorem separator_in_literal :
  (forall dbType,
     splitStatements (lit "SELECT ';' AS x; SELECT 2;") dbType
     = Some [lit "SELECT ';' AS x"; lit "SELECT 2"]) /\
  (forall config sql st b,
     reach config sql st ->
     charAt sql (i st) = Some c_squote ->
     i st < b ->
     charAt sql b = Some c_squote ->
     (forall p, i st < p -> p < b -> charAt sql p <> Some c_squote) ->
     charAt sql (b + 1) <> Some c_squote ->
     (backslashEscape config = true -> i st + 1 < b ->
      charAt sql (b - 1) <> Some c_backslash) ->
     step config sql st
     = Some (Next (mkScan (statements st)
                          (current st ++ slice sql (i st) (b + 1)) (b + 1))) /\
     forall p, i st <= p -> p <= b -> ~ separatorAt config sql p).
Proof.
  split; [intros []; vm_compute; reflexivity|].
  intros config sql st b Hr Hq Hlt Hb Hno Hnext Hesc.
  pose proof (step_literal_closed config sql st b Hq Hlt Hb Hno Hnext Hesc) as Hs.
  split; [assumption|].
  intros p Hp1 Hp2.
  apply (region_no_separator config sql st _ Hr (charAt_lt _ _ _ Hq) Hs);
    [rewrite Hq; discriminate|assumption|simpl; lia].
Qed.

Lemma separator_in_literal_witness :
  step (SQL_PARSER_CONFIGS mysql) (lit "';';") initial
  = Some (Next (mkScan (statements initial)
                       (current initial ++ slice (lit "';';") (i initial) (2 + 1))
                       (2 + 1))) /\
  forall p, i initial <= p -> p <= 2 ->
            ~ separatorAt (SQL_PARSER_CONFIGS mysql) (lit "';';") p.
Proof.
  apply (proj2 separator_in_literal (SQL_PARSER_CONFIGS mysql) (lit "';';") initial 2).
  - apply steps_refl.
  - reflexivity.
  - simpl. lia.
  - reflexivity.
  - simpl. intros p H1 H2. assert (p = 1) as -> by lia. discriminate.
  - discriminate.
  - intros _ _. discriminate.
Defined.

(** C7: the example gives, for each database type, the one statement that
    is the whole trimmed input.  In general a single-quoted literal that
    is not closed takes the rest of the text in one iteration, a text that
    is one unclosed literal is one statement, and the split of any text
    has a result. *)
Theorem unterminated_literal :
  (forall dbType,
     splitStatements (lit "SELECT 'abc") dbType = Some [trim (lit "SELECT 'abc")]) /\
  trim (lit "SELECT 'abc") = lit "SELECT 'abc" /\
  (forall config sql st,
     charAt sql (i st) = Some c_squote ->
     (forall p, i st < p -> charAt sql p <> Some c_squote) ->
     step config sql st
     = Some (Next (mkScan (statements st)
                          (current st ++ slice sql (i st) (length sql))
                          (length sql)))) /\
  (forall dbType body,
     ~ In c_squote body ->
     splitStatements (c_squote :: body) dbType = Some [trim (c_squote :: body)]) /\
  (forall sql dbType, exists out, splitStatements sql dbType = Some out).
Proof.
  split; [intros []; vm_compute; reflexivity|].
  split; [vm_compute; reflexivity|].
  split; [intros config sql st; apply step_literal_open|].
  split.
  - intros d body Hnot.
    set (sql := c_squote :: body).
    assert (Hopen : forall p, 0 < p -> charAt sql p <> Some c_squote).
    { intros p Hp. unfold sql. rewrite charAt_cons by assumption.
      intros E. apply Hnot. apply (nth_error_In _ _ E). }
    pose proof (step_literal_open (SQL_PARSER_CONFIGS d) sql initial
                  eq_refl Hopen) as Hs.
    simpl in Hs. rewrite slice_full in Hs.
    rewrite (split_at_end sql d (mkScan [] sql (length sql))).
    + unfold finish; simpl current; simpl statements.
      unfold sql at 1. now rewrite trim_starts.
    + eapply steps_next; [| exact Hs | apply steps_refl].
      unfold sql; simpl; lia.
    + reflexivity.
  - intros sql d. destruct (splitStatements_total sql d) as (st & _ & _ & H).
    exists (finish st). exact H.
Qed.

Lemma unterminated_literal_witness :
  step (SQL_PARSER_CONFIGS postgresql) (lit "x 'a;b") (mkScan [] (lit "x ") 2)
  = Some (Next (mkScan [] (lit "x " ++ slice (lit "x 'a;b") 2 6) 6)) /\
  splitStatements (c_squote :: lit "a;b ") mssql
  = Some [trim (c_squote :: lit "a;b ")].
Proof.
  split.
  - apply (proj1 (proj2 (proj2 unterminated_literal))
             (SQL_PARSER_CONFIGS postgresql) (lit "x 'a;b") (mkScan [] (lit "x ") 2)).
    + reflexivity.
    + simpl. intros p Hp. destruct (Nat.le_gt_cases 6 p) as [H|H].
      * unfold charAt. replace (nth_error (lit "x 'a;b") p) with (@None N);
          [discriminate|].
        symmetry. apply nth_error_None. simpl. lia.
      * assert (p = 3 \/ p = 4 \/ p = 5) as [ -> | [ -> | -> ] ] by lia; discriminate.
  - apply (proj1 (proj2 (proj2 (proj2 unterminated_literal))) mssql (lit "a;b ")).
    simpl. unfold c_squote. intros [H|[H|[H|[H|[]]]]]; discriminate H.
Defined.

(** C2: the example gives two statements under postgresql, the first being
    the whole dollar-quoted block.  In general, when the dollar at the
    cursor opens a valid tag (closed by the dollar at [j]), the region
    ends right after the first position [k] past the tag at which the
    same tag occurs again, and nothing up to there is a separator; when
    the tag does not occur again, the region is the rest of the text. *)
Theorem dollar_quote_protection :
  splitStatements (lit "DO $$ BEGIN SELECT 1; END; $$; SELECT 2;") postgresql
  = Some [lit "DO $$ BEGIN SELECT 1; END; $$"; lit "SELECT 2"] /\
  (forall config sql st j k,
     reach config sql st ->
     dollarQuotes config = true ->
     charAt sql (i st) = Some c_dollar ->
     i st < j -> charAt sql j = Some c_dollar ->
     (forall p, i st < p -> p < j ->
        exists c, charAt sql p = Some c /\ isTagChar c = true) ->
     j + 1 <= k ->
     occursAt sql (slice sql (i st) (j + 1)) k ->
     (forall k', j + 1 <= k' -> k' < k ->
        ~ occursAt sql (slice sql (i st) (j + 1)) k') ->
     step config sql st
     = Some (Next (mkScan (statements st)
                          (current st ++ slice sql (i st) (k + (j + 1 - i st)))
                          (k + (j + 1 - i st)))) /\
     forall p, i st <= p -> p < k + (j + 1 - i st) -> ~ separatorAt config sql p) /\
  (forall config sql st j,
     dollarQuotes config = true ->
     charAt sql (i st) = Some c_dollar ->
     i st < j -> charAt sql j = Some c_dollar ->
     (forall p, i st < p -> p < j ->
        exists c, charAt sql p = Some c /\ isTagChar c = true) ->
     (forall k, j + 1 <= k -> ~ occursAt sql (slice sql (i st) (j + 1)) k) ->
     step config sql st
     = Some (Next (mkScan (statements st)
                          (current st ++ slice sql (i st) (length sql))
                          (length sql)))).
Proof.
  split; [vm_compute; reflexivity|]. split.
  - intros config sql st j k Hr Hdq Hd Hlt Hj Htag Hk Hocc Hleast.
    pose proof (step_dollar_closed config sql st j k Hdq Hd Hlt Hj Htag Hk
                  Hocc Hleast) as Hs.
    split; [assumption|]. intros p Hp1 Hp2.
    apply (region_no_separator config sql st _ Hr (charAt_lt _ _ _ Hd) Hs);
      [rewrite Hd; discriminate|assumption|simpl; lia].
  - intros config sql st j. apply step_dollar_open.
Qed.

Lemma dollar_quote_protection_witness :
  (step (SQL_PARSER_CONFIGS postgresql) (lit "$a$x;$b$;$a$;") initial
   = Some (Next (mkScan [] (slice (lit "$a$x;$b$;$a$;") 0 12) 12)) /\
   forall p, 0 <= p -> p < 12 ->
     ~ separatorAt (SQL_PARSER_CONFIGS postgresql) (lit "$a$x;$b$;$a$;") p) /\
  step (SQL_PARSER_CONFIGS postgresql) (lit "$a$x;$b$;") initial
  = Some (Next (mkScan [] (slice (lit "$a$x;$b$;") 0 9) 9)).
Proof.
  split.
  - apply (proj1 (proj2 dollar_quote_protection)
             (SQL_PARSER_CONFIGS postgresql) (lit "$a$x;$b$;$a$;") initial 2 9).
    + apply steps_refl.
    + reflexivity.
    + reflexivity.
    + simpl. lia.
    + reflexivity.
    + simpl. intros p H1 H2. assert (p = 1) as -> by lia.
      eexists. split; reflexivity.
    + lia.
    + split; [simpl; lia|reflexivity].
    + intros k' H1 H2 [_ H].
      assert (k' = 3 \/ k' = 4 \/ k' = 5 \/ k' = 6 \/ k' = 7 \/ k' = 8)
        as [ -> | [ -> | [ -> | [ -> | [ -> | -> ] ] ] ] ] by lia;
        discriminate H.
  - apply (proj2 (proj2 dollar_quote_protection)
             (SQL_PARSER_CONFIGS postgresql) (lit "$a$x;$b$;") initial 2).
    + reflexivity.
    + reflexivity.
    + simpl. lia.
    + reflexivity.
    + simpl. intros p H1 H2. assert (p = 1) as -> by lia.
      eexists. split; reflexivity.
    + intros k H1 [H2 H]. simpl in H2.
      assert (k = 3 \/ k = 4 \/ k = 5 \/ k = 6)
        as [ -> | [ -> | [ -> | -> ] ] ] by lia;
        discriminate H.
Defined.

(** C4: the example gives two statements under postgresql.  Inside a
    nested block comment an opening raises the depth by one and a closing
    lowers it by one, and the loop stops only at depth 0 or at the end of
    the text: a comment with one inner comment ends at its second closing,
    and nothing up to there is a separator.  Without nesting the comment
    ends at the first closing after its opening, whatever openings come
    before it; the second example shows the difference. *)
Theorem nested_block_comment :
  splitStatements
    (lit "SELECT 1 /* outer /* inner */ still... */; SELECT 2;") postgresql
  = Some [lit "SELECT 1 /* outer /* inner */ still... */"; lit "SELECT 2"] /\
  splitStatements (lit "/* a /* b */ ; c */") postgresql
  = Some [lit "/* a /* b */ ; c */"] /\
  splitStatements (lit "/* a /* b */ ; c */") mysql
  = Some [lit "/* a /* b */"; lit "c */"] /\
  splitStatements (lit "/* a /* b */ ; c */") mssql
  = Some [lit "/* a /* b */"; lit "c */"] /\
  splitStatements (lit "/* a /* b */ ; c */") sqlite
  = Some [lit "/* a /* b */"; lit "c */"] /\
  (forall sql st depth,
     charAt sql (i st) = Some c_slash -> charAt sql (i st + 1) = Some c_star ->
     nestedBody sql (st, depth)
     = Some (Next (emit st [c_slash; c_star] 2, depth + 1))) /\
  (forall sql st depth,
     charAt sql (i st) = Some c_star -> charAt sql (i st + 1) = Some c_slash ->
     nestedBody sql (st, depth)
     = Some (Next (emit st [c_star; c_slash] 2, depth - 1))) /\
  (forall sql st depth,
     i st <= length sql ->
     exists st' depth',
       while (fuel sql) (nestedCond sql) (nestedBody sql) (st, depth)
       = Some (st', depth') /\
       (depth' = 0 \/ i st' = length sql)) /\
  (forall config sql st o c1 c2,
     reach config sql st ->
     nestedBlockComments config = true ->
     charAt sql (i st) = Some c_slash -> charAt sql (i st + 1) = Some c_star ->
     i st + 2 <= o -> o + 2 <= c1 -> c1 + 2 <= c2 ->
     charAt sql o = Some c_slash -> charAt sql (o + 1) = Some c_star ->
     charAt sql c1 = Some c_star -> charAt sql (c1 + 1) = Some c_slash ->
     charAt sql c2 = Some c_star -> charAt sql (c2 + 1) = Some c_slash ->
     (forall p, i st + 2 <= p -> p < c2 ->
        p <> o -> p <> o + 1 -> p <> c1 -> p <> c1 + 1 -> plain sql p) ->
     step config sql st
     = Some (Next (mkScan (statements st)
                          (current st ++ slice sql (i st) (c2 + 2)) (c2 + 2))) /\
     forall p, i st <= p -> p < c2 + 2 -> ~ separatorAt config sql p) /\
  (forall config sql st k,
     nestedBlockComments config = false ->
     charAt sql (i st) = Some c_slash -> charAt sql (i st + 1) = Some c_star ->
     i st + 2 <= k ->
     charAt sql k = Some c_star -> charAt sql (k + 1) = Some c_slash ->
     (forall p, i st + 2 <= p -> p < k ->
        ~ (charAt sql p = Some c_star /\ charAt sql (p + 1) = Some c_slash)) ->
     step config sql st
     = Some (Next (mkScan (statements st)
                          (current st ++ slice sql (i st) (k + 2)) (k + 2)))).
Proof.
  split; [vm_compute; reflexivity|].
  split; [vm_compute; reflexivity|].
  split; [vm_compute; reflexivity|].
  split; [vm_compute; reflexivity|].
  split; [vm_compute; reflexivity|].
  split.
  { intros sql st d H1 H2. unfold nestedBody. cbn [fst snd]. now rewrite H1, H2. }
  split.
  { intros sql st d H1 H2. unfold nestedBody. cbn [fst snd]. now rewrite H1, H2. }
  split.
  { intros sql st d Hle.
    destruct (nested_consumes sql st d Hle) as (st' & d' & Hw & _ & Hd).
    exists st', d'. auto. }
  split.
  { intros config sql st o c1 c2 Hr Hn H1 H2 Ho H12 H23 Ho1 Ho2 Hc1 Hc1' Hc2 Hc2' Hpl.
    pose proof (step_block_nested config sql st o c1 c2 Hn H1 H2 Ho H12 H23
                  Ho1 Ho2 Hc1 Hc1' Hc2 Hc2' Hpl) as Hs.
    split; [assumption|]. intros p Hp1 Hp2.
    apply (region_no_separator config sql st _ Hr (charAt_lt _ _ _ H1) Hs);
      [rewrite H1; discriminate|assumption|simpl; lia]. }
  intros config sql st k. apply step_block_first_close.
Qed.

Lemma nested_block_comment_witness :
  (step (SQL_PARSER_CONFIGS postgresql) (lit "/*a/*b*/;*/;") initial
   = Some (Next (mkScan [] (slice (lit "/*a/*b*/;*/;") 0 11) 11)) /\
   forall p, 0 <= p -> p < 11 ->
     ~ separatorAt (SQL_PARSER_CONFIGS postgresql) (lit "/*a/*b*/;*/;") p) /\
  step (SQL_PARSER_CONFIGS mysql) (lit "/*a/*b*/;*/;") initial
  = Some (Next (mkScan [] (slice (lit "/*a/*b*/;*/;") 0 8) 8)).
Proof.
  split.
  - apply (proj1 (proj2 (proj2 (proj2 (proj2 (proj2 (proj2 (proj2 (proj2
             nested_block_comment))))))))
             (SQL_PARSER_CONFIGS postgresql) (lit "/*a/*b*/;*/;") initial 3 6 9);
      try reflexivity; try (simpl; lia).
    + apply steps_refl.
    + simpl. intros p H1 H2 H3 H4 H5 H6.
      assert (p = 2 \/ p = 5 \/ p = 8) as [ -> | [ -> | -> ] ] by lia;
        split; discriminate.
  - apply (proj2 (proj2 (proj2 (proj2 (proj2 (proj2 (proj2 (proj2 (proj2
             nested_block_comment))))))))
             (SQL_PARSER_CONFIGS mysql) (lit "/*a/*b*/;*/;") initial 6);
      try reflexivity; try (simpl; lia).
    simpl. intros p H1 H2 [Ha Hb].
    assert (p = 2 \/ p = 3 \/ p = 4 \/ p = 5)
      as [ -> | [ -> | [ -> | -> ] ] ] by lia;
      discriminate.
Defined.

(** * Further properties of the scanner *)

(** Comparisons of two character constants, computed. *)
Ltac eval_eqb :=
  repeat match goal with
    | |- context [N.eqb ?a ?b] =>
        let v := eval vm_compute in (N.eqb a b) in
        match v with
        | true => change (N.eqb a b) with true
        | false => change (N.eqb a b) with false
        end
    end.

Section MoreRegions.

Variable config : SqlParserConfig.
Variable sql : jsstring.

(** The loop of a line comment stops at the first newline, which it
    leaves in place, or at the end of the text. *)
Lemma line_loop (st1 : scan) (n : nat) :
  i st1 <= n -> n <= length sql ->
  (n = length sql \/ charAt sql n = Some c_newline) ->
  (forall p, i st1 <= p -> p < n -> charAt sql p <> Some c_newline) ->
  exists st',
    while (fuel sql) (lineCond sql) (lineBody sql) st1 = Some st' /\
    consumes sql st1 st' /\ i st' = n.
Proof.
  intros Hle Hn Hend Hno.
  apply (while_total (lineCond sql) (lineBody sql)
           (fun s => consumes sql st1 s /\ i s <= n)
           (fun s => consumes sql st1 s /\ i s = n)
           (fun s => length sql - i s)).
  - intros s [Hc Hs] Ec. split; [assumption|].
    pose proof Hc as (_ & Hge & _).
    unfold lineCond, inBounds in Ec. apply andb_false_iff in Ec.
    destruct Ec as [Ec|Ec].
    + apply Nat.ltb_ge in Ec. lia.
    + apply negb_false_iff, isChar_true in Ec.
      destruct (Nat.eq_dec (i s) n) as [E|E]; [assumption|].
      exfalso. apply (Hno (i s)); [lia|lia|assumption].
  - intros s [Hc Hs] Ec.
    pose proof Hc as (_ & Hge & _).
    unfold lineCond in Ec. apply andb_prop in Ec. destruct Ec as [Eb En].
    apply inBounds_lt in Eb. apply negb_true_iff, isChar_false in En.
    split; [lia|].
    assert (i s <> n).
    { intros E. destruct Hend as [Hend|Hend]; [lia|]. rewrite E in En. contradiction. }
    eexists; split; [reflexivity|]. split; [split|].
    + eapply consumes_trans; [exact Hc|]. now apply advances_emitChar.
    + simpl. lia.
    + simpl. lia.
  - split; [apply consumes_refl; lia|assumption].
  - unfold fuel. lia.
Qed.

Lemma step_dashComment (st : scan) :
  charAt sql (i st) = Some c_dash -> charAt sql (i st + 1) = Some c_dash ->
  step config sql st =
  option_map Next
    (while (fuel sql) (lineCond sql) (lineBody sql) (emit st [c_dash; c_dash] 2)).
Proof.
  intros H1 H2. unfold step, stepRest. rewrite H1, H2.
  cbn [isChar]. eval_eqb. rewrite !andb_false_r. reflexivity.
Qed.

Lemma step_hashComment (st : scan) :
  hashLineComment config = true ->
  charAt sql (i st) = Some c_hash ->
  step config sql st =
  option_map Next
    (while (fuel sql) (lineCond sql) (lineBody sql) (emit st [c_hash] 1)).
Proof.
  intros Hh H1. unfold step, stepRest. rewrite H1, Hh.
  cbn [isChar]. eval_eqb. rewrite !andb_false_r. reflexivity.
Qed.

Lemma step_dash_comment_to (st : scan) (n : nat) :
  charAt sql (i st) = Some c_dash -> charAt sql (i st + 1) = Some c_dash ->
  i st + 2 <= n -> n <= length sql ->
  (n = length sql \/ charAt sql n = Some c_newline) ->
  (forall p, i st + 2 <= p -> p < n -> charAt sql p <> Some c_newline) ->
  step config sql st =
  Some (Next (mkScan (statements st) (current st ++ slice sql (i st) n) n)).
Proof.
  intros H1 H2 Hn Hlen Hend Hno.
  pose proof (advances_emit2 sql st _ _ H1 H2) as [Hadv _].
  destruct (line_loop (emit st [c_dash; c_dash] 2) n)
    as (st' & Hw & Hc & Hi); simpl; try assumption.
  rewrite step_dashComment, Hw by assumption. simpl.
  rewrite (consumes_eq sql st st' (consumes_trans _ _ _ _ Hadv Hc)), Hi.
  reflexivity.
Qed.

Lemma step_hash_comment_to (st : scan) (n : nat) :
  hashLineComment config = true ->
  charAt sql (i st) = Some c_hash ->
  i st + 1 <= n -> n <= length sql ->
  (n = length sql \/ charAt sql n = Some c_newline) ->
  (forall p, i st + 1 <= p -> p < n -> charAt sql p <> Some c_newline) ->
  step config sql st =
  Some (Next (mkScan (statements st) (current st ++ slice sql (i st) n) n)).
Proof.
  intros Hh H1 Hn Hlen Hend Hno.
  pose proof (advances_emit1 sql st _ H1) as [Hadv _].
  destruct (line_loop (emit st [c_hash] 1) n)
    as (st' & Hw & Hc & Hi); simpl; try assumption.
  rewrite step_hashComment, Hw by assumption. simpl.
  rewrite (consumes_eq sql st st' (consumes_trans _ _ _ _ Hadv Hc)), Hi.
  reflexivity.
Qed.

(** A block comment with no closing after its opening runs to the end of
    the text, with or without nesting. *)
Lemma block_open (st1 : scan) :
  i st1 <= length sql ->
  (forall p, i st1 <= p ->
     ~ (charAt sql p = Some c_star /\ charAt sql (p + 1) = Some c_slash)) ->
  exists st',
    while (fuel sql) (inBounds sql) (blockBody sql) st1 = Some st' /\
    consumes sql st1 st' /\ i st' = length sql.
Proof.
  intros Hle Hno.
  apply (while_total (inBounds sql) (blockBody sql)
           (fun s => consumes sql st1 s)
           (fun s => consumes sql st1 s /\ i s = length sql)
           (fun s => length sql - i s)).
  - intros s Hc Ec. split; [assumption|].
    destruct Hc as (_ & _ & Hl & _).
    unfold inBounds in Ec. apply Nat.ltb_ge in Ec. lia.
  - intros s Hc Ec. apply inBounds_lt in Ec. split; [lia|].
    pose proof Hc as (_ & Hge & _).
    unfold blockBody.
    destruct (isChar c_star (charAt sql (i s))
              && isChar c_slash (charAt sql (i s + 1))) eqn:Et.
    + exfalso. apply andb_prop in Et. destruct Et as [E1 E2].
      apply isChar_true in E1, E2. apply (Hno (i s)); auto.
    + eexists; split; [reflexivity|]. split.
      * eapply consumes_trans; [exact Hc|]. now apply advances_emitChar.
      * simpl. lia.
  - now apply consumes_refl.
  - unfold fuel. lia.
Qed.

Lemma nested_open (st1 : scan) (d : nat) :
  i st1 <= length sql -> 0 < d ->
  (forall p, i st1 <= p ->
     ~ (charAt sql p = Some c_star /\ charAt sql (p + 1) = Some c_slash)) ->
  exists st' d',
    while (fuel sql) (nestedCond sql) (nestedBody sql) (st1, d) = Some (st', d') /\
    consumes sql st1 st' /\ i st' = length sql.
Proof.
  intros Hle Hd Hno.
  destruct (while_total (nestedCond sql) (nestedBody sql)
              (fun sd => consumes sql st1 (fst sd) /\ 0 < snd sd)
              (fun sd => consumes sql st1 (fst sd) /\ i (fst sd) = length sql)
              (fun sd => length sql - i (fst sd)))
    with (f := fuel sql) (s := (st1, d)) as [[st' d'] [Hw HP]].
  - intros [s n] [Hc Hn] Ec. simpl in *. split; [assumption|].
    destruct Hc as (_ & _ & Hl & _).
    unfold nestedCond, inBounds in Ec; simpl in Ec.
    apply andb_false_iff in Ec. rewrite !Nat.ltb_ge in Ec. lia.
  - intros [s n] [Hc Hn] Ec. simpl in *.
    unfold nestedCond in Ec; simpl in Ec. apply andb_prop in Ec.
    destruct Ec as [Ec _]. apply inBounds_lt in Ec. split; [lia|].
    pose proof Hc as (_ & Hge & _).
    unfold nestedBody; cbn [fst snd].
    destruct (isChar c_slash (charAt sql (i s))
              && isChar c_star (charAt sql (i s + 1))) eqn:E1.
    + apply andb_prop in E1. destruct E1 as [E1 E2].
      apply isChar_true in E1, E2.
      eexists; split; [reflexivity|]. simpl. split; [split|lia].
      * eapply consumes_trans; [exact Hc|]. now apply advances_emit2.
      * lia.
    + destruct (isChar c_star (charAt sql (i s))
                && isChar c_slash (charAt sql (i s + 1))) eqn:E2.
      * exfalso. apply andb_prop in E2. destruct E2 as [E2 E3].
        apply isChar_true in E2, E3. apply (Hno (i s)); auto.
      * eexists; split; [reflexivity|]. simpl. split; [split|lia].
        -- eapply consumes_trans; [exact Hc|]. now apply advances_emitChar.
        -- assumption.
  - simpl. split; [now apply consumes_refl|assumption].
  - unfold fuel; simpl. lia.
  - exists st', d'. exact (conj Hw HP).
Qed.

Lemma step_block_open (st : scan) :
  charAt sql (i st) = Some c_slash -> charAt sql (i st + 1) = Some c_star ->
  (forall p, i st + 2 <= p ->
     ~ (charAt sql p = Some c_star /\ charAt sql (p + 1) = Some c_slash)) ->
  step config sql st =
  Some (Next (mkScan (statements st)
                     (current st ++ slice sql (i st) (length sql))
                     (length sql))).
Proof.
  intros H1 H2 Hno.
  pose proof (advances_emit2 sql st _ _ H1 H2) as [Hadv _].
  pose proof Hadv as (_ & _ & Hl & _).
  rewrite step_blockComment by assumption.
  destruct (nestedBlockComments config).
  - destruct (nested_open (emit st [c_slash; c_star] 2) 1)
      as (st' & d' & Hw & Hc & Hi); simpl; try assumption; try lia.
    rewrite Hw. simpl.
    rewrite (consumes_eq sql st st' (consumes_trans _ _ _ _ Hadv Hc)), Hi.
    reflexivity.
  - destruct (block_open (emit st [c_slash; c_star] 2))
      as (st' & Hw & Hc & Hi); simpl; try assumption.
    rewrite Hw. simpl.
    rewrite (consumes_eq sql st st' (consumes_trans _ _ _ _ Hadv Hc)), Hi.
    reflexivity.
Qed.

(** The tag search when the run of tag characters after the dollar ends,
    at [m], without a second dollar. *)
Lemma tag_invalid (st : scan) (m : nat) :
  charAt sql (i st) = Some c_dollar ->
  i st < m -> m <= length sql ->
  (forall p, i st < p -> p < m ->
     exists c, charAt sql p = Some c /\ isTagChar c = true) ->
  (m = length sql \/
   exists c, charAt sql m = Some c /\ isTagChar c = false /\ c <> c_dollar) ->
  while (fuel sql) (tagCond sql) (tagBody sql) ([c_dollar], i st + 1)
  = Some (slice sql (i st) m, m).
Proof.
  intros Hd Hlt Hm Htag Hend.
  destruct (while_total (tagCond sql) (tagBody sql)
              (fun tj => i st < snd tj /\ snd tj <= m /\
                         fst tj = slice sql (i st) (snd tj))
              (fun tj => tj = (slice sql (i st) m, m))
              (fun tj => length sql - snd tj))
    with (f := fuel sql) (s := ([c_dollar], i st + 1)) as [tj [Hw HP]].
  - intros [tag p] (H1 & H2 & H3) Ec. simpl in *.
    destruct (Nat.eq_dec p m) as [E|E]; [now rewrite H3, E|]. exfalso.
    unfold tagCond in Ec; simpl in Ec.
    destruct (Htag p) as [c [Hc Ht]]; [lia|lia|].
    rewrite Hc, Ht in Ec. simpl in Ec. rewrite andb_true_r in Ec.
    apply Nat.ltb_ge in Ec. lia.
  - intros [tag p] (H1 & H2 & H3) Ec. simpl in *.
    unfold tagCond in Ec; simpl in Ec. apply andb_prop in Ec.
    destruct Ec as [Ep Ec]. apply Nat.ltb_lt in Ep. split; [lia|].
    assert (Hpm : p <> m).
    { intros E. destruct Hend as [Hend|[c (Hc & Ht & Hnd)]]; [lia|].
      rewrite E, Hc, Ht in Ec. simpl in Ec. apply N.eqb_eq in Ec. contradiction. }
    destruct (Htag p) as [c [Hc Ht]]; [lia|lia|].
    unfold tagBody; simpl. rewrite Hc. simpl.
    apply isTagChar_not_dollar, N.eqb_neq in Ht. rewrite Ht.
    eexists; split; [reflexivity|]. simpl. repeat split; try lia.
    rewrite H3, <- (slice_one _ _ _ Hc). apply slice_app; lia.
  - simpl. repeat split; try lia. symmetry. now apply slice_one.
  - unfold fuel; simpl. lia.
  - now rewrite Hw, HP.
Qed.

Lemma endsWith_last (s : jsstring) (c d : N) :
  c <> d -> endsWith (s ++ [c]) d = false.
Proof.
  intros H. unfold endsWith. rewrite rev_app_distr. simpl.
  now apply N.eqb_neq.
Qed.

Lemma step_dollar_plain (st : scan) (m : nat) :
  charAt sql (i st) = Some c_dollar ->
  i st < m -> m <= length sql ->
  (forall p, i st < p -> p < m ->
     exists c, charAt sql p = Some c /\ isTagChar c = true) ->
  (m = length sql \/
   exists c, charAt sql m = Some c /\ isTagChar c = false /\ c <> c_dollar) ->
  step config sql st = Some (Next (emitChar sql st)).
Proof.
  intros Hd Hlt Hm Htag Hend.
  assert (Hrest : stepRest config sql st = Some (Next (emitChar sql st))).
  { unfold stepRest. rewrite Hd. cbn [isChar]. eval_eqb.
    rewrite !andb_false_r. reflexivity. }
  destruct (dollarQuotes config) eqn:Hdq.
  - rewrite step_dollar by assumption. unfold dollarQuote.
    rewrite (tag_invalid st m) by assumption.
    assert (Hbad : endsWith (slice sql (i st) m) c_dollar
                   && (2 <=? length (slice sql (i st) m)) = false).
    { rewrite slice_length by lia.
      destruct (Nat.eq_dec m (i st + 1)) as [E|E].
      - replace (m - i st) with 1 by lia. apply andb_false_r.
      - destruct (Htag (m - 1)) as [c [Hc Ht]]; [lia|lia|].
        assert (Hs : slice sql (m - 1) m = [c]).
        { pose proof (slice_one _ _ _ Hc) as X.
          now replace (m - 1 + 1) with m in X by lia. }
        rewrite <- (slice_app sql (i st) (m - 1) m) by lia.
        rewrite Hs, endsWith_last; [reflexivity|].
        now apply isTagChar_not_dollar. }
    rewrite Hbad. exact Hrest.
  - unfold step. rewrite Hd, Hdq. cbn [isChar]. eval_eqb.
    rewrite !andb_false_r. cbn [andb]. exact Hrest.
Qed.

End MoreRegions.

(** ** Quoted regions with their escapes *)

(** The four loops over a quoted region are one loop, with the closing
    character [q] and the backslash escape [esc] as parameters. *)
Definition quotedBody (q : N) (esc : bool) (sql : jsstring) (st : scan)
  : option (flow scan) :=
  if isChar q (charAt sql (i st)) && isChar q (charAt sql (i st + 1)) then
    Some (Next (emit st [q; q] 2))
  else if esc && isChar c_backslash (charAt sql (i st))
          && isChar c_squote (charAt sql (i st + 1)) then
    Some (Next (emit st [c_backslash; c_squote] 2))
  else if isChar q (charAt sql (i st)) then
    Some (Break (emit st [q] 1))
  else
    Some (Next (emitChar sql st)).

Lemma singleQuoteBody_quoted (config : SqlParserConfig) (sql : jsstring) :
  singleQuoteBody config sql = quotedBody c_squote (backslashEscape config) sql.
Proof. reflexivity. Qed.

Lemma doubleQuoteBody_quoted (sql : jsstring) :
  doubleQuoteBody sql = quotedBody c_dquote false sql.
Proof. reflexivity. Qed.

Lemma backtickBody_quoted (sql : jsstring) :
  backtickBody sql = quotedBody c_backtick false sql.
Proof. reflexivity. Qed.

Lemma bracketBody_quoted (sql : jsstring) :
  bracketBody sql = quotedBody c_rbracket false sql.
Proof. reflexivity. Qed.

(** What a quoted region is made of: a character that is not the closing
    one, the closing character doubled, or a backslash and a single quote. *)
Inductive piece : Type :=
| Plain (c : N)
| Doubled
| Escaped.

Definition pieceText (q : N) (p : piece) : jsstring :=
  match p with
  | Plain c => [c]
  | Doubled => [q; q]
  | Escaped => [c_backslash; c_squote]
  end.

Definition bodyText (q : N) (ps : list piece) : jsstring :=
  concat (map (pieceText q) ps).

(** The pieces the loop reads as such: a plain character is not the
    closing one and, when backslashes escape, is not a backslash standing
    before a single quote; an escaped quote needs the escape to be on. *)
Fixpoint piecesOk (q : N) (esc : bool) (ps : list piece) : Prop :=
  match ps with
  | [] => True
  | Plain c :: ps' =>
      c <> q /\
      (esc = true -> c = c_backslash ->
       hd_error (bodyText q ps' ++ [q]) <> Some c_squote) /\
      piecesOk q esc ps'
  | Doubled :: ps' => piecesOk q esc ps'
  | Escaped :: ps' => esc = true /\ piecesOk q esc ps'
  end.

Lemma while_next {St : Type} (f : nat) (cond : St -> bool)
    (body : St -> option (flow St)) (s s' : St) :
  cond s = true -> body s = Some (Next s') ->
  while (S f) cond body s = while f cond body s'.
Proof. intros Hc Hb. simpl. now rewrite Hc, Hb. Qed.

Lemma while_break {St : Type} (f : nat) (cond : St -> bool)
    (body : St -> option (flow St)) (s s' : St) :
  cond s = true -> body s = Some (Break s') ->
  while (S f) cond body s = Some s'.
Proof. intros Hc Hb. simpl. now rewrite Hc, Hb. Qed.

Lemma charAt_app (pre s : jsstring) (n : nat) :
  charAt (pre ++ s) (length pre + n) = charAt s n.
Proof.
  unfold charAt. rewrite nth_error_app2 by lia.
  f_equal. lia.
Qed.

Lemma charAt_app_0 (pre s : jsstring) (k : nat) :
  k = length pre -> charAt (pre ++ s) k = hd_error s.
Proof.
  intros ->. rewrite <- (Nat.add_0_r (length pre)), charAt_app.
  now destruct s.
Qed.

Lemma charAt_app_1 (pre s : jsstring) (c : N) (k : nat) :
  k = length pre -> charAt (pre ++ c :: s) (k + 1) = hd_error s.
Proof.
  intros ->. rewrite charAt_app. now destruct s.
Qed.

Lemma hd_error_app_cons (b post : jsstring) (q : N) :
  hd_error (b ++ q :: post) = hd_error (b ++ [q]).
Proof. now destruct b. Qed.

Lemma quoted_closed (q : N) (esc : bool) (sql : jsstring) :
  q <> c_backslash ->
  forall ps pre post st1 f,
    sql = pre ++ bodyText q ps ++ q :: post ->
    i st1 = length pre ->
    hd_error post <> Some q ->
    piecesOk q esc ps ->
    length sql - i st1 <= f ->
    while f (inBounds sql) (quotedBody q esc sql) st1
    = Some (mkScan (statements st1)
                   (current st1 ++ bodyText q ps ++ [q])
                   (i st1 + length (bodyText q ps) + 1)).
Proof.
  intros Hq. induction ps as [|p ps IH]; intros pre post st1 f Hsql Hi Hpost Hok Hf.
  - simpl in Hsql. cbn [bodyText map concat app length].
    assert (Hlen : i st1 < length sql).
    { rewrite Hsql, length_app. simpl. lia. }
    destruct f as [|f]; [lia|].
    apply while_break; [unfold inBounds; now apply Nat.ltb_lt|].
    unfold quotedBody.
    rewrite Hsql, (charAt_app_0 pre (q :: post) _ Hi),
      (charAt_app_1 pre post q _ Hi).
    cbn [hd_error isChar]. rewrite N.eqb_refl, (isChar_neq _ _ Hpost).
    cbn [andb]. apply N.eqb_neq in Hq. rewrite Hq, andb_false_r. cbn [andb].
    unfold emit. now rewrite Nat.add_0_r.
  - assert (Hsql' : sql = (pre ++ pieceText q p) ++ bodyText q ps ++ q :: post).
    { rewrite Hsql. unfold bodyText. simpl. now rewrite <- !app_assoc. }
    assert (Hlen : i st1 + length (pieceText q p) < length sql).
    { rewrite Hsql', !length_app. simpl. lia. }
    destruct f as [|f]; [lia|].
    assert (Hin : inBounds sql st1 = true).
    { unfold inBounds. apply Nat.ltb_lt. lia. }
    assert (Hbody : bodyText q (p :: ps) = pieceText q p ++ bodyText q ps)
      by reflexivity.
    destruct p as [c| |].
    + destruct Hok as (Hcq & Hbs & Hok).
      rewrite (while_next f _ _ st1 (emitChar sql st1)); [| assumption |].
      * rewrite (IH (pre ++ [c]) post (emitChar sql st1) f Hsql'); simpl;
          try assumption; try (rewrite length_app; simpl; lia); try lia.
        rewrite Hsql at 1. rewrite (charAt_app_0 pre _ _ Hi).
        rewrite Hbody. simpl. rewrite <- !app_assoc. simpl.
        unfold bodyText. do 2 f_equal. lia.
      * unfold quotedBody.
        rewrite Hsql, (charAt_app_0 pre _ _ Hi), Hbody.
        cbn [pieceText app hd_error].
        rewrite (charAt_app_1 pre _ c _ Hi), hd_error_app_cons.
        cbn [isChar]. apply N.eqb_neq in Hcq. rewrite Hcq. cbn [andb].
        destruct esc; cbn [andb]; [|reflexivity].
        destruct (N.eqb c c_backslash) eqn:Ec; cbn [andb]; [|reflexivity].
        apply N.eqb_eq in Ec.
        rewrite (isChar_neq _ _ (Hbs eq_refl Ec)). reflexivity.
    + rewrite (while_next f _ _ st1 (emit st1 [q; q] 2)); [| assumption |].
      * rewrite (IH (pre ++ [q; q]) post (emit st1 [q; q] 2) f Hsql'); simpl;
          try assumption; try (rewrite length_app; simpl; lia); try lia.
        unfold bodyText. simpl. rewrite <- !app_assoc. simpl.
        do 2 f_equal. lia.
      * unfold quotedBody.
        rewrite Hsql, (charAt_app_0 pre _ _ Hi), Hbody.
        cbn [pieceText app hd_error].
        rewrite (charAt_app_1 pre _ q _ Hi).
        cbn [hd_error isChar]. now rewrite N.eqb_refl.
    + destruct Hok as (Hesc & Hok).
      rewrite (while_next f _ _ st1 (emit st1 [c_backslash; c_squote] 2));
        [| assumption |].
      * rewrite (IH (pre ++ [c_backslash; c_squote]) post
                   (emit st1 [c_backslash; c_squote] 2) f Hsql'); simpl;
          try assumption; try (rewrite length_app; simpl; lia); try lia.
        unfold bodyText. simpl. rewrite <- !app_assoc. simpl.
        do 2 f_equal. lia.
      * unfold quotedBody.
        rewrite Hsql, (charAt_app_0 pre _ _ Hi), Hbody.
        cbn [pieceText app hd_error].
        rewrite (charAt_app_1 pre _ c_backslash _ Hi).
        cbn [hd_error isChar]. rewrite Hesc.
        assert (Hbq : N.eqb c_backslash q = false).
        { apply N.eqb_neq. congruence. }
        rewrite Hbq. reflexivity.
Qed.

Lemma quoted_open (q : N) (esc : bool) (sql : jsstring) (st1 : scan) :
  (esc = true -> q = c_squote) ->
  i st1 <= length sql ->
  (forall p, i st1 <= p -> charAt sql p <> Some q) ->
  exists st',
    while (fuel sql) (inBounds sql) (quotedBody q esc sql) st1 = Some st' /\
    consumes sql st1 st' /\ i st' = length sql.
Proof.
  intros Hesc Hle Hno.
  apply (while_total (inBounds sql) (quotedBody q esc sql)
           (fun s => consumes sql st1 s)
           (fun s => consumes sql st1 s /\ i s = length sql)
           (fun s => length sql - i s)).
  - intros s Hc Ec. split; [assumption|].
    destruct Hc as (_ & _ & Hl & _).
    unfold inBounds in Ec. apply Nat.ltb_ge in Ec. lia.
  - intros s Hc Ec. apply inBounds_lt in Ec. split; [lia|].
    pose proof Hc as (_ & Hge & _).
    unfold quotedBody.
    rewrite (isChar_neq q (charAt sql (i s))) by (apply Hno; lia).
    cbn [andb].
    assert (Et : esc && isChar c_backslash (charAt sql (i s))
                 && isChar c_squote (charAt sql (i s + 1)) = false).
    { destruct esc; [|reflexivity]. rewrite <- (Hesc eq_refl).
      rewrite (isChar_neq q (charAt sql (i s + 1))) by (apply Hno; lia).
      apply andb_false_r. }
    rewrite Et.
    eexists; split; [reflexivity|]. split.
    + eapply consumes_trans; [exact Hc|]. now apply advances_emitChar.
    + simpl. lia.
  - now apply consumes_refl.
  - unfold fuel. lia.
Qed.

Section Quoted.

Variable config : SqlParserConfig.
Variable sql : jsstring.

Lemma step_doubleQuote (st : scan) :
  charAt sql (i st) = Some c_dquote ->
  step config sql st =
  option_map Next
    (while (fuel sql) (inBounds sql) (doubleQuoteBody sql) (emitChar sql st)).
Proof. intros H. unfold step. now rewrite H. Qed.

Lemma step_backtick (st : scan) :
  backtickIdentifiers config = true ->
  charAt sql (i st) = Some c_backtick ->
  step config sql st =
  option_map Next
    (while (fuel sql) (inBounds sql) (backtickBody sql) (emitChar sql st)).
Proof. intros Hb H. unfold step. now rewrite H, Hb. Qed.

Lemma step_bracket (st : scan) :
  bracketIdentifiers config = true ->
  charAt sql (i st) = Some c_lbracket ->
  step config sql st =
  option_map Next
    (while (fuel sql) (inBounds sql) (bracketBody sql) (emitChar sql st)).
Proof.
  intros Hb H. unfold step. rewrite H, Hb. cbn [isChar]. eval_eqb.
  rewrite !andb_false_r. reflexivity.
Qed.

(** From the opening character [o] at the cursor to the closing [q]. *)
Lemma region_closed (o q : N) (esc : bool) (st : scan)
    (pre post : jsstring) (ps : list piece) :
  q <> c_backslash ->
  sql = pre ++ o :: bodyText q ps ++ q :: post ->
  i st = length pre ->
  hd_error post <> Some q ->
  piecesOk q esc ps ->
  option_map Next
    (while (fuel sql) (inBounds sql) (quotedBody q esc sql) (emitChar sql st))
  = Some (Next (mkScan (statements st)
                       (current st ++ o :: bodyText q ps ++ [q])
                       (length pre + length (bodyText q ps) + 2))).
Proof.
  intros Hq Hsql Hi Hpost Hok.
  assert (Hsql' : sql = (pre ++ [o]) ++ bodyText q ps ++ q :: post).
  { rewrite Hsql, <- app_assoc. reflexivity. }
  rewrite (quoted_closed q esc sql Hq ps (pre ++ [o]) post (emitChar sql st)
             (fuel sql) Hsql'); simpl;
    try assumption; try (rewrite length_app; simpl; lia);
    try (unfold fuel; lia).
  rewrite Hsql at 1. rewrite (charAt_app_0 pre _ _ Hi). simpl.
  rewrite <- app_assoc. simpl. do 3 f_equal. lia.
Qed.

End Quoted.

Lemma trim_nonempty (s : jsstring) (c : N) :
  In c s -> isWhiteSpace c = false -> truthy (trim s) = true.
Proof.
  intros Hin Hc. apply truthy_true. intros E.
  destruct (trim_split s) as (lead & trail & H & Hl & Ht).
  rewrite E in H. simpl in H. subst s.
  apply in_app_or in Hin. unfold allWhiteSpace in *.
  rewrite forallb_forall in Hl, Ht.
  destruct Hin as [Hin|Hin]; [apply Hl in Hin|apply Ht in Hin]; congruence.
Qed.

(** X1: a single-quoted literal made of plain characters, doubled quotes
    and, where backslashes escape, escaped quotes, is read up to its
    closing quote in one iteration, and none of its positions is a
    separator. *)
Theorem single_quoted_region (config : SqlParserConfig) (sql : jsstring)
    (st : scan) (pre post : jsstring) (ps : list piece) :
  reach config sql st ->
  sql = pre ++ c_squote :: bodyText c_squote ps ++ c_squote :: post ->
  i st = length pre ->
  hd_error post <> Some c_squote ->
  piecesOk c_squote (backslashEscape config) ps ->
  step config sql st
  = Some (Next (mkScan (statements st)
                       (current st ++ c_squote :: bodyText c_squote ps ++ [c_squote])
                       (length pre + length (bodyText c_squote ps) + 2))) /\
  forall p, length pre <= p -> p < length pre + length (bodyText c_squote ps) + 2 ->
            ~ separatorAt config sql p.
Proof.
  intros Hr Hsql Hi Hpost Hok.
  assert (Hq : charAt sql (i st) = Some c_squote).
  { rewrite Hsql at 1. now rewrite (charAt_app_0 pre _ _ Hi). }
  assert (Hs : step config sql st
               = Some (Next (mkScan (statements st)
                      (current st ++ c_squote :: bodyText c_squote ps ++ [c_squote])
                      (length pre + length (bodyText c_squote ps) + 2)))).
  { rewrite step_singleQuote, singleQuoteBody_quoted by assumption.
    apply (region_closed sql c_squote c_squote _ st pre post ps);
      try assumption. discriminate. }
  split; [assumption|]. intros p Hp1 Hp2.
  apply (region_no_separator config sql st _ Hr (charAt_lt _ _ _ Hq) Hs);
    [rewrite Hq; discriminate|lia|simpl; lia].
Qed.

Lemma single_quoted_region_witness :
  step (SQL_PARSER_CONFIGS mysql)
    (lit "'a''b" ++ [c_backslash] ++ lit "';c';") initial
  = Some (Next (mkScan []
       ([] ++ c_squote :: bodyText c_squote
          [Plain 97%N; Doubled; Plain 98%N; Escaped; Plain 59%N; Plain 99%N]
          ++ [c_squote])
       (0 + length (bodyText c_squote
          [Plain 97%N; Doubled; Plain 98%N; Escaped; Plain 59%N; Plain 99%N]) + 2))) /\
  forall p, 0 <= p ->
    p < 0 + length (bodyText c_squote
          [Plain 97%N; Doubled; Plain 98%N; Escaped; Plain 59%N; Plain 99%N]) + 2 ->
    ~ separatorAt (SQL_PARSER_CONFIGS mysql)
        (lit "'a''b" ++ [c_backslash] ++ lit "';c';") p.
Proof.
  apply (single_quoted_region (SQL_PARSER_CONFIGS mysql)
           (lit "'a''b" ++ [c_backslash] ++ lit "';c';") initial
           [] [c_semicolon]
           [Plain 97%N; Doubled; Plain 98%N; Escaped; Plain 59%N; Plain 99%N]).
  - apply steps_refl.
  - reflexivity.
  - reflexivity.
  - discriminate.
  - simpl. repeat split; try discriminate; intros _ H; discriminate H.
Defined.

(** X2: a double-quoted identifier made of plain characters and doubled
    double quotes is read up to its closing quote in one iteration, under
    every configuration, and none of its positions is a separator. *)
Theorem double_quoted_region (config : SqlParserConfig) (sql : jsstring)
    (st : scan) (pre post : jsstring) (ps : list piece) :
  reach config sql st ->
  sql = pre ++ c_dquote :: bodyText c_dquote ps ++ c_dquote :: post ->
  i st = length pre ->
  hd_error post <> Some c_dquote ->
  piecesOk c_dquote false ps ->
  step config sql st
  = Some (Next (mkScan (statements st)
                       (current st ++ c_dquote :: bodyText c_dquote ps ++ [c_dquote])
                       (length pre + length (bodyText c_dquote ps) + 2))) /\
  forall p, length pre <= p -> p < length pre + length (bodyText c_dquote ps) + 2 ->
            ~ separatorAt config sql p.
Proof.
  intros Hr Hsql Hi Hpost Hok.
  assert (Hq : charAt sql (i st) = Some c_dquote).
  { rewrite Hsql at 1. now rewrite (charAt_app_0 pre _ _ Hi). }
  assert (Hs : step config sql st
               = Some (Next (mkScan (statements st)
                      (current st ++ c_dquote :: bodyText c_dquote ps ++ [c_dquote])
                      (length pre + length (bodyText c_dquote ps) + 2)))).
  { rewrite step_doubleQuote, doubleQuoteBody_quoted by assumption.
    apply (region_closed sql c_dquote c_dquote _ st pre post ps);
      try assumption. discriminate. }
  split; [assumption|]. intros p Hp1 Hp2.
  apply (region_no_separator config sql st _ Hr (charAt_lt _ _ _ Hq) Hs);
    [rewrite Hq; discriminate|lia|simpl; lia].
Qed.

Lemma double_quoted_region_witness :
  step (SQL_PARSER_CONFIGS postgresql)
    ([c_dquote] ++ lit "a;" ++ [c_dquote; c_dquote] ++ lit "b" ++ [c_dquote]
     ++ lit ";") initial
  = Some (Next (mkScan []
       ([] ++ c_dquote :: bodyText c_dquote
          [Plain 97%N; Plain 59%N; Doubled; Plain 98%N] ++ [c_dquote])
       (0 + length (bodyText c_dquote
          [Plain 97%N; Plain 59%N; Doubled; Plain 98%N]) + 2))) /\
  forall p, 0 <= p ->
    p < 0 + length (bodyText c_dquote
          [Plain 97%N; Plain 59%N; Doubled; Plain 98%N]) + 2 ->
    ~ separatorAt (SQL_PARSER_CONFIGS postgresql)
        ([c_dquote] ++ lit "a;" ++ [c_dquote; c_dquote] ++ lit "b" ++ [c_dquote]
         ++ lit ";") p.
Proof.
  apply (double_quoted_region (SQL_PARSER_CONFIGS postgresql)
           ([c_dquote] ++ lit "a;" ++ [c_dquote; c_dquote] ++ lit "b"
            ++ [c_dquote] ++ lit ";") initial
           [] [c_semicolon]
           [Plain 97%N; Plain 59%N; Doubled; Plain 98%N]).
  - apply steps_refl.
  - reflexivity.
  - reflexivity.
  - discriminate.
  - simpl. repeat split; try discriminate; intros H; discriminate H.
Defined.

(** X3: where backtick identifiers are on, a backtick identifier made of
    plain characters and doubled backticks is read up to its closing
    backtick in one iteration, and none of its positions is a separator. *)
Theorem backtick_region (config : SqlParserConfig) (sql : jsstring)
    (st : scan) (pre post : jsstring) (ps : list piece) :
  backtickIdentifiers config = true ->
  reach config sql st ->
  sql = pre ++ c_backtick :: bodyText c_backtick ps ++ c_backtick :: post ->
  i st = length pre ->
  hd_error post <> Some c_backtick ->
  piecesOk c_backtick false ps ->
  step config sql st
  = Some (Next (mkScan (statements st)
                       (current st ++ c_backtick :: bodyText c_backtick ps ++ [c_backtick])
                       (length pre + length (bodyText c_backtick ps) + 2))) /\
  forall p, length pre <= p -> p < length pre + length (bodyText c_backtick ps) + 2 ->
            ~ separatorAt config sql p.
Proof.
  intros Hflag Hr Hsql Hi Hpost Hok.
  assert (Hq : charAt sql (i st) = Some c_backtick).
  { rewrite Hsql at 1. now rewrite (charAt_app_0 pre _ _ Hi). }
  assert (Hs : step config sql st
               = Some (Next (mkScan (statements st)
                      (current st ++ c_backtick :: bodyText c_backtick ps ++ [c_backtick])
                      (length pre + length (bodyText c_backtick ps) + 2)))).
  { rewrite step_backtick, backtickBody_quoted by assumption.
    apply (region_closed sql c_backtick c_backtick _ st pre post ps);
      try assumption. discriminate. }
  split; [assumption|]. intros p Hp1 Hp2.
  apply (region_no_separator config sql st _ Hr (charAt_lt _ _ _ Hq) Hs);
    [rewrite Hq; discriminate|lia|simpl; lia].
Qed.

Lemma backtick_region_witness :
  step (SQL_PARSER_CONFIGS sqlite) (lit "`a;``b`;") initial
  = Some (Next (mkScan []
       ([] ++ c_backtick :: bodyText c_backtick
          [Plain 97%N; Plain 59%N; Doubled; Plain 98%N] ++ [c_backtick])
       (0 + length (bodyText c_backtick
          [Plain 97%N; Plain 59%N; Doubled; Plain 98%N]) + 2))) /\
  forall p, 0 <= p ->
    p < 0 + length (bodyText c_backtick
          [Plain 97%N; Plain 59%N; Doubled; Plain 98%N]) + 2 ->
    ~ separatorAt (SQL_PARSER_CONFIGS sqlite) (lit "`a;``b`;") p.
Proof.
  apply (backtick_region (SQL_PARSER_CONFIGS sqlite) (lit "`a;``b`;") initial
           [] [c_semicolon]
           [Plain 97%N; Plain 59%N; Doubled; Plain 98%N]).
  - reflexivity.
  - apply steps_refl.
  - reflexivity.
  - reflexivity.
  - discriminate.
  - simpl. repeat split; try discriminate; intros H; discriminate H.
Defined.

(** X4: where bracket identifiers are on, a bracket identifier made of
    plain characters and doubled closing brackets is read from its
    opening bracket up to its closing bracket in one iteration, and none
    of its positions is a separator; an opening bracket inside it is a
    plain character. *)
Theorem bracket_region (config : SqlParserConfig) (sql : jsstring)
    (st : scan) (pre post : jsstring) (ps : list piece) :
  bracketIdentifiers config = true ->
  reach config sql st ->
  sql = pre ++ c_lbracket :: bodyText c_rbracket ps ++ c_rbracket :: post ->
  i st = length pre ->
  hd_error post <> Some c_rbracket ->
  piecesOk c_rbracket false ps ->
  step config sql st
  = Some (Next (mkScan (statements st)
                       (current st ++ c_lbracket :: bodyText c_rbracket ps ++ [c_rbracket])
                       (length pre + length (bodyText c_rbracket ps) + 2))) /\
  forall p, length pre <= p -> p < length pre + length (bodyText c_rbracket ps) + 2 ->
            ~ separatorAt config sql p.
Proof.
  intros Hflag Hr Hsql Hi Hpost Hok.
  assert (Hq : charAt sql (i st) = Some c_lbracket).
  { rewrite Hsql at 1. now rewrite (charAt_app_0 pre _ _ Hi). }
  assert (Hs : step config sql st
               = Some (Next (mkScan (statements st)
                      (current st ++ c_lbracket :: bodyText c_rbracket ps ++ [c_rbracket])
                      (length pre + length (bodyText c_rbracket ps) + 2)))).
  { rewrite step_bracket, bracketBody_quoted by assumption.
    apply (region_closed sql c_lbracket c_rbracket _ st pre post ps);
      try assumption. discriminate. }
  split; [assumption|]. intros p Hp1 Hp2.
  apply (region_no_separator config sql st _ Hr (charAt_lt _ _ _ Hq) Hs);
    [rewrite Hq; discriminate|lia|simpl; lia].
Qed.

Lemma bracket_region_witness :
  step (SQL_PARSER_CONFIGS mssql) (lit "[a;[]]b];") initial
  = Some (Next (mkScan []
       ([] ++ c_lbracket :: bodyText c_rbracket
          [Plain 97%N; Plain 59%N; Plain 91%N; Doubled; Plain 98%N] ++ [c_rbracket])
       (0 + length (bodyText c_rbracket
          [Plain 97%N; Plain 59%N; Plain 91%N; Doubled; Plain 98%N]) + 2))) /\
  forall p, 0 <= p ->
    p < 0 + length (bodyText c_rbracket
          [Plain 97%N; Plain 59%N; Plain 91%N; Doubled; Plain 98%N]) + 2 ->
    ~ separatorAt (SQL_PARSER_CONFIGS mssql) (lit "[a;[]]b];") p.
Proof.
  apply (bracket_region (SQL_PARSER_CONFIGS mssql) (lit "[a;[]]b];") initial
           [] [c_semicolon]
           [Plain 97%N; Plain 59%N; Plain 91%N; Doubled; Plain 98%N]).
  - reflexivity.
  - apply steps_refl.
  - reflexivity.
  - reflexivity.
  - discriminate.
  - simpl. repeat split; try discriminate; intros H; discriminate H.
Defined.

(** X5: a double-dash comment runs, under every configuration, from its
    two dashes up to the next newline, which stays outside it, or to the
    end of the text; none of its positions is a separator. *)
Theorem dash_comment_region (config : SqlParserConfig) (sql : jsstring)
    (st : scan) (n : nat) :
  reach config sql st ->
  charAt sql (i st) = Some c_dash -> charAt sql (i st + 1) = Some c_dash ->
  i st + 2 <= n -> n <= length sql ->
  (n = length sql \/ charAt sql n = Some c_newline) ->
  (forall p, i st + 2 <= p -> p < n -> charAt sql p <> Some c_newline) ->
  step config sql st
  = Some (Next (mkScan (statements st) (current st ++ slice sql (i st) n) n)) /\
  forall p, i st <= p -> p < n -> ~ separatorAt config sql p.
Proof.
  intros Hr H1 H2 Hn Hlen Hend Hno.
  pose proof (step_dash_comment_to config sql st n H1 H2 Hn Hlen Hend Hno) as Hs.
  split; [assumption|]. intros p Hp1 Hp2.
  apply (region_no_separator config sql st _ Hr (charAt_lt _ _ _ H1) Hs);
    [rewrite H1; discriminate|assumption|simpl; lia].
Qed.

Lemma dash_comment_region_witness :
  step (SQL_PARSER_CONFIGS mssql) (lit "--a;b" ++ [c_newline] ++ lit "c;") initial
  = Some (Next (mkScan (statements initial)
       (current initial
        ++ slice (lit "--a;b" ++ [c_newline] ++ lit "c;") (i initial) 5) 5)) /\
  forall p, i initial <= p -> p < 5 ->
    ~ separatorAt (SQL_PARSER_CONFIGS mssql)
        (lit "--a;b" ++ [c_newline] ++ lit "c;") p.
Proof.
  apply (dash_comment_region (SQL_PARSER_CONFIGS mssql)
           (lit "--a;b" ++ [c_newline] ++ lit "c;") initial 5).
  - apply steps_refl.
  - reflexivity.
  - reflexivity.
  - simpl. lia.
  - simpl. lia.
  - right. reflexivity.
  - simpl. intros p Hp1 Hp2.
    assert (p = 2 \/ p = 3 \/ p = 4) as [ -> | [ -> | -> ] ] by lia; discriminate.
Defined.

(** X6: where hash comments are on, a hash comment runs from its hash up
    to the next newline, which stays outside it, or to the end of the
    text; none of its positions is a separator. *)
Theorem hash_comment_region (config : SqlParserConfig) (sql : jsstring)
    (st : scan) (n : nat) :
  hashLineComment config = true ->
  reach config sql st ->
  charAt sql (i st) = Some c_hash ->
  i st + 1 <= n -> n <= length sql ->
  (n = length sql \/ charAt sql n = Some c_newline) ->
  (forall p, i st + 1 <= p -> p < n -> charAt sql p <> Some c_newline) ->
  step config sql st
  = Some (Next (mkScan (statements st) (current st ++ slice sql (i st) n) n)) /\
  forall p, i st <= p -> p < n -> ~ separatorAt config sql p.
Proof.
  intros Hflag Hr H1 Hn Hlen Hend Hno.
  pose proof (step_hash_comment_to config sql st n Hflag H1 Hn Hlen Hend Hno) as Hs.
  split; [assumption|]. intros p Hp1 Hp2.
  apply (region_no_separator config sql st _ Hr (charAt_lt _ _ _ H1) Hs);
    [rewrite H1; discriminate|assumption|simpl; lia].
Qed.

Lemma hash_comment_region_witness :
  step (SQL_PARSER_CONFIGS mysql) (lit "#a;b") initial
  = Some (Next (mkScan (statements initial)
       (current initial ++ slice (lit "#a;b") (i initial) 4) 4)) /\
  forall p, i initial <= p -> p < 4 ->
    ~ separatorAt (SQL_PARSER_CONFIGS mysql) (lit "#a;b") p.
Proof.
  apply (hash_comment_region (SQL_PARSER_CONFIGS mysql) (lit "#a;b") initial 4).
  - reflexivity.
  - apply steps_refl.
  - reflexivity.
  - simpl. lia.
  - simpl. lia.
  - left. reflexivity.
  - simpl. intros p Hp1 Hp2.
    assert (p = 1 \/ p = 2 \/ p = 3) as [ -> | [ -> | -> ] ] by lia; discriminate.
Defined.

(** X7: a block comment that is never closed swallows the rest of the
    text under every database type: the output is the statements emitted
    before it and one last statement, the trimmed buffer followed by
    everything from the opening of the comment on. *)
Theorem unterminated_block_comment (sql : jsstring) (dbType : DatabaseType)
    (st : scan) :
  reach (SQL_PARSER_CONFIGS dbType) sql st ->
  charAt sql (i st) = Some c_slash -> charAt sql (i st + 1) = Some c_star ->
  (forall p, i st + 2 <= p ->
     ~ (charAt sql p = Some c_star /\ charAt sql (p + 1) = Some c_slash)) ->
  splitStatements sql dbType
  = Some (statements st
          ++ [trim (current st ++ slice sql (i st) (length sql))]).
Proof.
  intros Hr H1 H2 Hno.
  pose proof (step_block_open (SQL_PARSER_CONFIGS dbType) sql st H1 H2 Hno) as Hs.
  pose proof (charAt_lt _ _ _ H1) as Hlt.
  rewrite (split_at_end sql dbType
             (mkScan (statements st)
                     (current st ++ slice sql (i st) (length sql)) (length sql))).
  - unfold finish; simpl.
    rewrite (trim_nonempty _ c_slash); [reflexivity| |reflexivity].
    apply in_or_app. right.
    rewrite <- (slice_app sql (i st) (i st + 1) (length sql)) by lia.
    rewrite (slice_one _ _ _ H1). now left.
  - unfold reach. eapply steps_snoc; eassumption.
  - reflexivity.
Qed.

Lemma unterminated_block_comment_witness :
  splitStatements (lit "a; b /* c; d") sqlite
  = Some (statements (mkScan [lit "a"] (lit " b ") 5)
          ++ [trim (current (mkScan [lit "a"] (lit " b ") 5)
                    ++ slice (lit "a; b /* c; d")
                         (i (mkScan [lit "a"] (lit " b ") 5))
                         (length (lit "a; b /* c; d")))]).
Proof.
  apply (unterminated_block_comment (lit "a; b /* c; d") sqlite
           (mkScan [lit "a"] (lit " b ") 5)).
  - eapply steps_next; [simpl; lia|reflexivity|].
    eapply steps_next; [simpl; lia|reflexivity|].
    eapply steps_next; [simpl; lia|reflexivity|].
    eapply steps_next; [simpl; lia|reflexivity|].
    eapply steps_next; [simpl; lia|reflexivity|].
    apply steps_refl.
  - reflexivity.
  - reflexivity.
  - simpl. intros p Hp [Ha Hb].
    destruct (Nat.le_gt_cases 12 p) as [H|H].
    + unfold charAt in Ha.
      assert (E : nth_error (lit "a; b /* c; d") p = None)
        by (apply nth_error_None; simpl; lia).
      rewrite E in Ha. discriminate Ha.
    + assert (p = 7 \/ p = 8 \/ p = 9 \/ p = 10 \/ p = 11)
        as [ -> | [ -> | [ -> | [ -> | -> ] ] ] ] by lia; discriminate.
Defined.

(** X8: a dollar that does not open a valid tag (the run of letters,
    digits and underscores after it ends, at [m], without a second
    dollar) is an ordinary character under every configuration: the
    iteration appends it and moves on by one. *)
Theorem dollar_without_tag (config : SqlParserConfig) (sql : jsstring)
    (st : scan) (m : nat) :
  charAt sql (i st) = Some c_dollar ->
  i st < m -> m <= length sql ->
  (forall p, i st < p -> p < m ->
     exists c, charAt sql p = Some c /\ isTagChar c = true) ->
  (m = length sql \/
   exists c, charAt sql m = Some c /\ isTagChar c = false /\ c <> c_dollar) ->
  step config sql st
  = Some (Next (mkScan (statements st) (current st ++ [c_dollar]) (i st + 1))).
Proof.
  intros Hd Hlt Hm Htag Hend.
  rewrite (step_dollar_plain config sql st m Hd Hlt Hm Htag Hend).
  unfold emitChar. now rewrite Hd.
Qed.

Lemma dollar_without_tag_witness :
  step (SQL_PARSER_CONFIGS postgresql) (lit "$1; $2") initial
  = Some (Next (mkScan (statements initial) (current initial ++ [c_dollar])
                       (i initial + 1))).
Proof.
  apply (dollar_without_tag (SQL_PARSER_CONFIGS postgresql) (lit "$1; $2")
           initial 2).
  - reflexivity.
  - simpl. lia.
  - simpl. lia.
  - simpl. intros p Hp1 Hp2. assert (p = 1) as -> by lia.
    eexists. split; reflexivity.
  - right. eexists. split; [reflexivity|]. split; [reflexivity|discriminate].
Defined.

(** ** Text without regions *)

(** [s.split(sep)] for a one-character separator. *)
Fixpoint splitOn (sep : N) (s : jsstring) : list jsstring :=
  match s with
  | [] => [[]]
  | c :: s' =>
      if N.eqb c sep then [] :: splitOn sep s'
      else match splitOn sep s' with
           | x :: l => (c :: x) :: l
           | [] => [[c]]
           end
  end.

(** The position [p] holds what opens a region under [config]. *)
Definition opener (config : SqlParserConfig) (sql : jsstring) (p : nat) : bool :=
  let char := charAt sql p in
  let nextChar := charAt sql (p + 1) in
  isChar c_squote char
  || isChar c_dquote char
  || (backtickIdentifiers config && isChar c_backtick char)
  || (bracketIdentifiers config && isChar c_lbracket char)
  || (dollarQuotes config && isChar c_dollar char)
  || (hashLineComment config && isChar c_hash char)
  || (isChar c_dash char && isChar c_dash nextChar)
  || (isChar c_slash char && isChar c_star nextChar).

Definition noOpeners (config : SqlParserConfig) (sql : jsstring) : bool :=
  forallb (fun p => negb (opener config sql p)) (seq 0 (length sql)).

Lemma noOpeners_at (config : SqlParserConfig) (sql : jsstring) (p : nat) :
  noOpeners config sql = true -> p < length sql -> opener config sql p = false.
Proof.
  unfold noOpeners. rewrite forallb_forall. intros H Hp.
  apply negb_true_iff, H, in_seq. lia.
Qed.

Lemma step_plain (config : SqlParserConfig) (sql : jsstring) (st : scan) :
  opener config sql (i st) = false ->
  step config sql st =
  if isChar c_semicolon (charAt sql (i st))
  then Some (Next (cut st))
  else Some (Next (emitChar sql st)).
Proof.
  unfold opener. intros H.
  repeat (apply orb_false_elim in H; let H' := fresh "T" in destruct H as [H H']).
  unfold step, stepRest. rewrite H, T5, T4, T3, T2, T1, T0, T.
  reflexivity.
Qed.

Lemma splitOn_plain (sep : N) (s : jsstring) :
  ~ In sep s -> splitOn sep s = [s].
Proof.
  induction s as [|c s IH]; intros H; simpl; [reflexivity|].
  destruct (N.eqb c sep) eqn:E.
  - apply N.eqb_eq in E. exfalso. apply H. now left.
  - rewrite IH; [reflexivity|]. intros Hin. apply H. now right.
Qed.

Lemma splitOn_cons_seg (sep : N) (x rest : jsstring) :
  ~ In sep x -> splitOn sep (x ++ sep :: rest) = x :: splitOn sep rest.
Proof.
  induction x as [|c x IH]; intros H; simpl.
  - now rewrite N.eqb_refl.
  - destruct (N.eqb c sep) eqn:E.
    + apply N.eqb_eq in E. exfalso. apply H. now left.
    + rewrite IH; [reflexivity|]. intros Hin. apply H. now right.
Qed.

Lemma splitOn_flat (segs : list jsstring) (cur : jsstring) :
  Forall (fun s => ~ In c_semicolon s) segs -> ~ In c_semicolon cur ->
  splitOn c_semicolon (flat segs ++ cur) = segs ++ [cur].
Proof.
  intros Hsegs Hcur. induction Hsegs as [|x segs Hx _ IH]; simpl.
  - now apply splitOn_plain.
  - unfold flat in *. simpl. rewrite <- !app_assoc. simpl.
    rewrite splitOn_cons_seg by assumption. now rewrite IH.
Qed.

Section Plain.

Variable config : SqlParserConfig.
Variable sql : jsstring.
Hypothesis Hplain : noOpeners config sql = true.

Lemma reach_plain (st : scan) :
  reach config sql st ->
  exists segs,
    firstn (i st) sql = flat segs ++ current st /\
    statements st = filter truthy (map trim segs) /\
    Forall (fun s => ~ In c_semicolon s) segs /\
    ~ In c_semicolon (current st).
Proof.
  intros H. induction H as [|st st' Hr IH Hlt Hs] using reach_ind'.
  - exists []. simpl. auto.
  - destruct IH as (segs & Hf & Hst & Hsegs & Hcur).
    rewrite (step_plain config sql st (noOpeners_at _ _ _ Hplain Hlt)) in Hs.
    destruct (charAt_some _ _ Hlt) as [c Hc].
    assert (Hfirst : firstn (i st + 1) sql = firstn (i st) sql ++ [c]).
    { rewrite !firstn_slice, <- (slice_one _ _ _ Hc).
      symmetry. apply slice_app; lia. }
    destruct (isChar c_semicolon (charAt sql (i st))) eqn:E;
      injection Hs as <-.
    + apply isChar_true in E. rewrite Hc in E. injection E as ->.
      exists (segs ++ [current st]). simpl.
      rewrite Hfirst, Hf, flat_snoc, app_nil_r, <- app_assoc.
      rewrite filter_trim_snoc, <- Hst.
      repeat split; auto.
      apply Forall_app. split; [assumption|]. constructor; [assumption|constructor].
    + apply isChar_false in E.
      exists segs. unfold emitChar; simpl. rewrite Hc; simpl.
      rewrite Hfirst, Hf, <- app_assoc.
      repeat split; auto.
      intros Hin. apply in_app_or in Hin. destruct Hin as [Hin|[->|[]]].
      * contradiction.
      * now apply E.
Qed.

End Plain.

(** X9: a text in which nothing opens a region under the database type
    (no quote, no identifier delimiter, dollar or hash that is on, no
    double dash and no slash-star) is cut at each of its semicolons: the
    output is [sql.split(';')], each part trimmed, without the empty
    ones. *)
Theorem plain_text_split (sql : jsstring) (dbType : DatabaseType) :
  noOpeners (SQL_PARSER_CONFIGS dbType) sql = true ->
  splitStatements sql dbType
  = Some (filter truthy (map trim (splitOn c_semicolon sql))).
Proof.
  intros Hplain.
  destruct (splitStatements_total sql dbType) as (st & Hr & Hi & Hsp).
  destruct (reach_plain _ _ Hplain st Hr) as (segs & Hf & Hst & Hsegs & Hcur).
  rewrite Hsp. f_equal.
  rewrite Hi, firstn_all in Hf.
  rewrite Hf, (splitOn_flat segs (current st) Hsegs Hcur).
  unfold finish. now rewrite filter_trim_snoc, Hst.
Qed.

Lemma plain_text_split_witness :
  splitStatements (lit "a `b;c` [d;e] # f; g") postgresql
  = Some (filter truthy
            (map trim (splitOn c_semicolon (lit "a `b;c` [d;e] # f; g")))).
Proof.
  apply (plain_text_split (lit "a `b;c` [d;e] # f; g") postgresql).
  reflexivity.
Defined.

(** ** Text that every database type reads alike *)

Lemma while_ext {St : Type} (cond : St -> bool)
    (body1 body2 : St -> option (flow St)) :
  (forall s, body1 s = body2 s) ->
  forall f s, while f cond body1 s = while f cond body2 s.
Proof.
  intros H f. induction f as [|f IH]; intros s; simpl; [reflexivity|].
  destruct (cond s); [|reflexivity]. rewrite H.
  destruct (body2 s) as [[s'|s']|]; auto.
Qed.

(** The characters whose reading depends on the configuration. *)
Definition dialectChar (c : N) : bool :=
  N.eqb c c_backtick || N.eqb c c_lbracket || N.eqb c c_dollar
  || N.eqb c c_hash || N.eqb c c_backslash.

(** No such character, and no opening of a block comment. *)
Definition portable (sql : jsstring) : bool :=
  forallb (fun c => negb (dialectChar c)) sql
  && match indexOf sql [c_slash; c_star] 0 with
     | None => true
     | Some _ => false
     end.

Section Portable.

Variable sql : jsstring.
Hypothesis Hport : portable sql = true.

Lemma portable_char (p : nat) (c : N) :
  charAt sql p = Some c -> dialectChar c = false.
Proof.
  intros Hc. unfold portable in Hport. apply andb_prop in Hport.
  destruct Hport as [H _]. rewrite forallb_forall in H.
  apply negb_true_iff, H. apply (nth_error_In _ _ Hc).
Qed.

Lemma portable_isChar (q : N) (p : nat) :
  dialectChar q = true -> isChar q (charAt sql p) = false.
Proof.
  intros Hq. apply isChar_neq. intros Hc.
  apply portable_char in Hc. congruence.
Qed.

Lemma portable_block (p : nat) :
  isChar c_slash (charAt sql p) && isChar c_star (charAt sql (p + 1)) = false.
Proof.
  destruct (isChar c_slash (charAt sql p)) eqn:E1; [|reflexivity].
  destruct (isChar c_star (charAt sql (p + 1))) eqn:E2; [|reflexivity].
  exfalso. apply isChar_true in E1, E2.
  unfold portable in Hport. apply andb_prop in Hport.
  destruct Hport as [_ H].
  destruct (indexOf sql [c_slash; c_star] 0) eqn:Ei; [discriminate|].
  apply (indexOf_none _ _ _ (Nat.le_0_l _) Ei p (Nat.le_0_l _)).
  pose proof (charAt_lt _ _ _ E2).
  split; simpl; [lia|]. now apply slice_two.
Qed.

Lemma portable_singleQuoteBody (config : SqlParserConfig) (s : scan) :
  singleQuoteBody config sql s = quotedBody c_squote false sql s.
Proof.
  unfold singleQuoteBody, quotedBody.
  rewrite (portable_isChar c_backslash) by reflexivity.
  now rewrite andb_false_r.
Qed.

Lemma portable_step (config : SqlParserConfig) (st : scan) :
  step config sql st =
  let char := charAt sql (i st) in
  if isChar c_squote char then
    option_map Next
      (while (fuel sql) (inBounds sql) (quotedBody c_squote false sql)
         (emitChar sql st))
  else if isChar c_dquote char then
    option_map Next
      (while (fuel sql) (inBounds sql) (doubleQuoteBody sql) (emitChar sql st))
  else if isChar c_dash char && isChar c_dash (charAt sql (i st + 1)) then
    option_map Next
      (while (fuel sql) (lineCond sql) (lineBody sql)
         (emit st [c_dash; c_dash] 2))
  else if isChar c_semicolon char then Some (Next (cut st))
  else Some (Next (emitChar sql st)).
Proof.
  unfold step, stepRest. cbn zeta.
  rewrite (portable_isChar c_backtick), (portable_isChar c_lbracket),
    (portable_isChar c_dollar), (portable_isChar c_hash), portable_block
    by reflexivity.
  rewrite !andb_false_r.
  rewrite (while_ext _ _ _ (portable_singleQuoteBody config)).
  reflexivity.
Qed.

End Portable.

(** X10: a text without backtick, opening bracket, dollar, hash and
    backslash, and without the opening of a block comment, gives the same
    statements under all database types. *)
Theorem portable_text_same_split (sql : jsstring) (d1 d2 : DatabaseType) :
  portable sql = true ->
  splitStatements sql d1 = splitStatements sql d2.
Proof.
  intros Hport. unfold splitStatements, scanAll.
  rewrite (while_ext _ _ (step (SQL_PARSER_CONFIGS d2) sql)); [reflexivity|].
  intros s. now rewrite !portable_step.
Qed.

Lemma portable_text_same_split_witness :
  splitStatements (lit "SELECT 'a;' AS x -- c;" ++ [c_newline] ++ lit "; SELECT 2")
    postgresql
  = splitStatements (lit "SELECT 'a;' AS x -- c;" ++ [c_newline] ++ lit "; SELECT 2")
      mysql.
Proof.
  apply (portable_text_same_split
           (lit "SELECT 'a;' AS x -- c;" ++ [c_newline] ++ lit "; SELECT 2")
           postgresql mysql).
  reflexivity.
Defined.

(** ** Size of the output *)

Definition countSemicolons (s : jsstring) : nat :=
  length (filter (fun c => N.eqb c c_semicolon) s).

Definition totalLength (l : list jsstring) : nat := length (concat l).

Lemma trim_length (s : jsstring) : length (trim s) <= length s.
Proof.
  destruct (trim_split s) as (lead & trail & H & _).
  rewrite H at 2. rewrite !length_app. lia.
Qed.

Lemma join_sizes (segs : list jsstring) :
  length segs <= countSemicolons (joinWith [c_semicolon] segs) + 1 /\
  totalLength segs <= length (joinWith [c_semicolon] segs).
Proof.
  unfold countSemicolons, totalLength.
  induction segs as [|x segs [IH1 IH2]]; [simpl; lia|].
  cbn [joinWith]. destruct segs as [|y segs].
  - simpl. rewrite app_nil_r. lia.
  - rewrite !filter_app, !length_app in *.
    cbn [concat] in *. rewrite !length_app in *.
    cbn [filter app length] in *. rewrite N.eqb_refl. cbn [length] in *. lia.
Qed.

Lemma kept_sizes (segs : list jsstring) :
  length (filter truthy (map trim segs)) <= length segs /\
  totalLength (filter truthy (map trim segs)) <= totalLength segs.
Proof.
  unfold totalLength. induction segs as [|x segs [IH1 IH2]]; [simpl; lia|].
  pose proof (trim_length x). simpl.
  destruct (truthy (trim x)); simpl; rewrite ?length_app; lia.
Qed.

(** X11: there are never more statements than semicolons in the text plus
    one, and the statements together are never longer than the text. *)
Theorem output_size (sql : jsstring) (dbType : DatabaseType) :
  exists out,
    splitStatements sql dbType = Some out /\
    length out <= countSemicolons sql + 1 /\
    totalLength out <= length sql.
Proof.
  destruct (split_segments sql dbType) as (segs & Hj & Hsp).
  exists (filter truthy (map trim segs)). split; [assumption|].
  destruct (join_sizes segs) as [H1 H2].
  destruct (kept_sizes segs) as [H3 H4].
  rewrite Hj. lia.
Qed.

(** ** The statements lie in the text in order *)

From Stdlib Require Import Sorted.

(** The text at a range of positions. *)
Definition textAt (sql : jsstring) (ab : nat * nat) : jsstring :=
  slice sql (fst ab) (snd ab).

(** The first range ends before the second begins. *)
Definition before (x y : nat * nat) : Prop := snd x < fst y.

Lemma StronglySorted_snoc {A : Type} (R : A -> A -> Prop) (l : list A) (y : A) :
  StronglySorted R l -> Forall (fun x => R x y) l ->
  StronglySorted R (l ++ [y]).
Proof.
  induction 1 as [|x l Hs IH Hx]; intros Hall; simpl.
  - constructor; constructor.
  - inversion Hall as [|? ? Hxy Hl]; subst.
    constructor; [now apply IH|].
    apply Forall_app. split; [assumption|]. now constructor.
Qed.

Section Ranges.

Variable config : SqlParserConfig.
Variable sql : jsstring.

Definition ranged (st : scan) : Prop :=
  exists start spans,
    start <= i st /\
    current st = slice sql start (i st) /\
    statements st = map (textAt sql) spans /\
    Forall (fun ab => fst ab < snd ab /\ snd ab < start) spans /\
    StronglySorted before spans.

Lemma flush_range (spans : list (nat * nat)) (start e bound : nat) :
  start <= e -> e <= length sql -> e <= bound ->
  Forall (fun ab => fst ab < snd ab /\ snd ab < start) spans ->
  StronglySorted before spans ->
  truthy (trim (slice sql start e)) = true ->
  exists ab,
    trim (slice sql start e) = textAt sql ab /\
    fst ab < snd ab /\ snd ab <= e /\
    Forall (fun ab => fst ab < snd ab /\ snd ab <= bound) (spans ++ [ab]) /\
    StronglySorted before (spans ++ [ab]).
Proof.
  intros Hse He Hb Hall Hsorted Ht. apply truthy_true in Ht.
  destruct (trim_slice sql start e Hse He Ht) as (a & b & H1 & H2 & H3 & H4 & _).
  exists (a, b). simpl. repeat split; try assumption.
  - apply Forall_app. split.
    + eapply Forall_impl; [|exact Hall]. intros x [Hx1 Hx2]. split; lia.
    + constructor; [simpl; lia|constructor].
  - apply StronglySorted_snoc; [assumption|].
    eapply Forall_impl; [|exact Hall]. intros x [_ Hx]. unfold before. simpl. lia.
Qed.

Lemma reach_ranged (st : scan) : reach config sql st -> ranged st.
Proof.
  intros H. induction H as [|st st' Hr IH Hlt Hs] using reach_ind'.
  - exists 0, []. simpl. rewrite slice_nil. repeat split; auto; constructor.
  - destruct IH as (start & spans & Hle & Hcur & Hst & Hall & Hsorted).
    pose proof (step_lt _ _ _ _ Hlt Hs) as [Hadv Hbound].
    destruct (step_inv _ _ _ _ Hlt Hs) as [[_ [Hc _]]|[_ ->]].
    + destruct Hc as (Hs1 & _ & _ & Hcur').
      exists start, spans. repeat split; try assumption; try lia.
      * rewrite Hcur', Hcur. apply slice_app; lia.
      * congruence.
    + unfold ranged, cut. simpl. rewrite Hcur.
      destruct (truthy (trim (slice sql start (i st)))) eqn:Et.
      * destruct (flush_range spans start (i st) (i st)) as (ab & E & H1 & H2 & H3 & H4);
          try assumption; try lia.
        exists (i st + 1), (spans ++ [ab]). rewrite slice_nil.
        repeat split; try lia; try assumption.
        -- rewrite map_app, <- Hst, E. reflexivity.
        -- eapply Forall_impl; [|exact H3]. intros x [Hx1 Hx2]. split; lia.
      * exists (i st + 1), spans. rewrite slice_nil.
        repeat split; try lia; try assumption.
        eapply Forall_impl; [|exact Hall]. intros x [Hx1 Hx2]. split; lia.
Qed.

End Ranges.

(** X12: the statements are the texts of ranges of positions of the
    input that come in the order of the output, each range ending before
    the next one begins, with at least one position in between. *)
Theorem statements_in_order (sql : jsstring) (dbType : DatabaseType) :
  exists spans,
    splitStatements sql dbType = Some (map (textAt sql) spans) /\
    Forall (fun ab => fst ab < snd ab /\ snd ab <= length sql) spans /\
    StronglySorted before spans.
Proof.
  destruct (splitStatements_total sql dbType) as (st & Hr & Hi & Hsp).
  destruct (reach_ranged _ _ _ Hr) as (start & spans & Hle & Hcur & Hst & Hall & Hsorted).
  rewrite Hsp. unfold finish.
  destruct (truthy (trim (current st))) eqn:Et.
  - rewrite Hcur in Et.
    destruct (flush_range sql spans start (i st) (length sql))
      as (ab & E & H1 & H2 & H3 & H4); try assumption; try lia.
    exists (spans ++ [ab]). rewrite map_app, <- Hst, Hcur, E.
    repeat split; assumption.
  - exists spans. rewrite Hst. repeat split; try assumption.
    eapply Forall_impl; [|exact Hall]. intros x [Hx1 Hx2]. split; lia.
Qed.

(** The quoted identifiers a configuration reads: the opening and the
    closing character. *)
Definition identifierQuotes (config : SqlParserConfig) (o q : N) : Prop :=
  (o = c_dquote /\ q = c_dquote) \/
  (backtickIdentifiers config = true /\ o = c_backtick /\ q = c_backtick) \/
  (bracketIdentifiers config = true /\ o = c_lbracket /\ q = c_rbracket).

Lemma step_identifier (config : SqlParserConfig) (sql : jsstring) (st : scan)
    (o q : N) :
  identifierQuotes config o q ->
  charAt sql (i st) = Some o ->
  step config sql st =
  option_map Next
    (while (fuel sql) (inBounds sql) (quotedBody q false sql) (emitChar sql st)).
Proof.
  intros [[-> ->]|[(Hf & -> & ->)|(Hf & -> & ->)]] Hc.
  - now rewrite step_doubleQuote, doubleQuoteBody_quoted.
  - now rewrite step_backtick, backtickBody_quoted.
  - now rewrite step_bracket, bracketBody_quoted.
Qed.

(** X17: a quoted identifier (double quotes, and backticks or brackets
    where they are on) that is never closed swallows the rest of the
    text: the output is the statements emitted before it and one last
    statement, the trimmed buffer followed by everything from the opening
    character on. *)
Theorem unterminated_identifier (sql : jsstring) (dbType : DatabaseType)
    (st : scan) (o q : N) :
  identifierQuotes (SQL_PARSER_CONFIGS dbType) o q ->
  reach (SQL_PARSER_CONFIGS dbType) sql st ->
  charAt sql (i st) = Some o ->
  (forall p, i st < p -> charAt sql p <> Some q) ->
  splitStatements sql dbType
  = Some (statements st
          ++ [trim (current st ++ slice sql (i st) (length sql))]).
Proof.
  intros Hq Hr Ho Hno.
  pose proof (charAt_lt _ _ _ Ho) as Hlt.
  pose proof (advances_emitChar sql st Hlt) as [Hadv _].
  destruct (quoted_open q false sql (emitChar sql st))
    as (st' & Hw & Hc & Hi); simpl; try lia; try discriminate.
  { intros p Hp. apply Hno. lia. }
  assert (Hs : step (SQL_PARSER_CONFIGS dbType) sql st = Some (Next st')).
  { rewrite (step_identifier _ _ _ o q Hq Ho), Hw. reflexivity. }
  pose proof (consumes_eq sql st st' (consumes_trans _ _ _ _ Hadv Hc)) as E.
  rewrite Hi in E.
  rewrite (split_at_end sql dbType st').
  - rewrite E. unfold finish; simpl.
    assert (Hws : isWhiteSpace o = false).
    { destruct Hq as [[-> _]|[(_ & -> & _)|(_ & -> & _)]]; reflexivity. }
    rewrite (trim_nonempty _ o); [reflexivity| |assumption].
    apply in_or_app. right.
    rewrite <- (slice_app sql (i st) (i st + 1) (length sql)) by lia.
    rewrite (slice_one _ _ _ Ho). now left.
  - unfold reach. eapply steps_snoc; eassumption.
  - assumption.
Qed.

Lemma unterminated_identifier_witness :
  splitStatements (lit "a;[b;c") mssql
  = Some (statements (mkScan [lit "a"] [] 2)
          ++ [trim (current (mkScan [lit "a"] [] 2)
                    ++ slice (lit "a;[b;c") (i (mkScan [lit "a"] [] 2))
                         (length (lit "a;[b;c")))]).
Proof.
  apply (unterminated_identifier (lit "a;[b;c") mssql (mkScan [lit "a"] [] 2)
           c_lbracket c_rbracket).
  - right. right. repeat split; reflexivity.
  - eapply steps_next; [simpl; lia|reflexivity|].
    eapply steps_next; [simpl; lia|reflexivity|].
    apply steps_refl.
  - reflexivity.
  - simpl. intros p Hp Hc.
    destruct (Nat.le_gt_cases 6 p) as [H|H].
    + unfold charAt in Hc.
      assert (E : nth_error (lit "a;[b;c") p = None)
        by (apply nth_error_None; simpl; lia).
      rewrite E in Hc. discriminate Hc.
    + assert (p = 3 \/ p = 4 \/ p = 5) as [ -> | [ -> | -> ] ] by lia;
        discriminate Hc.
Defined.

(** * Nested block comments of any depth *)

(** What the loop of a nested comment reads: a character, an opening, or
    a closing. *)
Inductive token : Type :=
| Ch (c : N)
| Opening
| Closing.

Definition tokenText (t : token) : jsstring :=
  match t with
  | Ch c => [c]
  | Opening => [c_slash; c_star]
  | Closing => [c_star; c_slash]
  end.

Definition tokensText (ts : list token) : jsstring :=
  concat (map tokenText ts).

(** From depth [d] the tokens keep the depth above 0 until the last one,
    which brings it to 0. *)
Fixpoint balanced (d : nat) (ts : list token) : Prop :=
  match ts with
  | [] => d = 0
  | t :: ts' =>
      0 < d /\
      match t with
      | Ch _ => balanced d ts'
      | Opening => balanced (S d) ts'
      | Closing => balanced (d - 1) ts'
      end
  end.

(** The tokens are what the loop reads: a character token does not form
    an opening or a closing with the character after it. *)
Fixpoint readable (ts : list token) : Prop :=
  match ts with
  | [] => True
  | Ch c :: ts' =>
      (c = c_slash -> hd_error (tokensText ts') <> Some c_star) /\
      (c = c_star -> hd_error (tokensText ts') <> Some c_slash) /\
      readable ts'
  | _ :: ts' => readable ts'
  end.

Lemma tokensText_cons (t : token) (ts : list token) :
  tokensText (t :: ts) = tokenText t ++ tokensText ts.
Proof. reflexivity. Qed.

Lemma hd_error_app_nonempty (a b : jsstring) :
  a <> [] -> hd_error (a ++ b) = hd_error a.
Proof. destruct a; [congruence|reflexivity]. Qed.

Lemma balanced_nonempty (d : nat) (ts : list token) :
  0 < d -> balanced d ts -> tokensText ts <> [].
Proof.
  intros Hd. destruct ts as [|[c| |] ts]; simpl; intros H; try discriminate.
  lia.
Qed.

Lemma nested_balanced (sql : jsstring) :
  forall ts pre post st1 d f,
    sql = pre ++ tokensText ts ++ post ->
    i st1 = length pre ->
    balanced d ts ->
    readable ts ->
    length sql - i st1 <= f ->
    while f (nestedCond sql) (nestedBody sql) (st1, d)
    = Some (mkScan (statements st1)
                   (current st1 ++ tokensText ts)
                   (i st1 + length (tokensText ts)), 0).
Proof.
  induction ts as [|t ts IH]; intros pre post st1 d f Hsql Hi Hbal Hread Hf.
  - simpl in Hbal. subst d.
    assert (Hc : nestedCond sql (st1, 0) = false).
    { unfold nestedCond. simpl. apply andb_false_r. }
    destruct f; simpl; rewrite Hc; cbn [tokensText map concat length];
      rewrite app_nil_r, Nat.add_0_r; now destruct st1.
  - destruct Hbal as [Hd Hbal].
    rewrite tokensText_cons in *.
    assert (Hsql' : sql = (pre ++ tokenText t) ++ tokensText ts ++ post).
    { rewrite Hsql. now rewrite <- !app_assoc. }
    assert (Hlen : i st1 + length (tokenText t) <= length sql).
    { rewrite Hsql', !length_app. lia. }
    assert (Hpos : 0 < length (tokenText t)) by (destruct t; simpl; lia).
    destruct f as [|f]; [lia|].
    assert (Hin : nestedCond sql (st1, d) = true).
    { unfold nestedCond, inBounds. simpl.
      apply andb_true_intro. split; apply Nat.ltb_lt; lia. }
    destruct t as [c| |].
    + destruct Hread as (Hs & Hst & Hread).
      assert (Hne : tokensText ts <> []).
      { apply (balanced_nonempty d); assumption. }
      rewrite (while_next f _ _ (st1, d) (emitChar sql st1, d)); [| assumption |].
      * rewrite (IH (pre ++ [c]) post (emitChar sql st1) d f Hsql'); simpl;
          try assumption; try (rewrite length_app; simpl; lia); try lia.
        rewrite Hsql at 1. rewrite (charAt_app_0 pre _ _ Hi). simpl.
        rewrite <- !app_assoc. simpl. do 3 f_equal. lia.
      * unfold nestedBody. cbn [fst snd].
        rewrite Hsql, (charAt_app_0 pre _ _ Hi).
        cbn [tokenText app hd_error].
        rewrite (charAt_app_1 pre _ c _ Hi), (hd_error_app_nonempty _ _ Hne).
        cbn [isChar].
        destruct (N.eqb c c_slash) eqn:E1.
        { apply N.eqb_eq in E1.
          rewrite (isChar_neq _ _ (Hs E1)). cbn [andb].
          subst c. reflexivity. }
        cbn [andb].
        destruct (N.eqb c c_star) eqn:E2; [|reflexivity].
        apply N.eqb_eq in E2. rewrite (isChar_neq _ _ (Hst E2)). reflexivity.
    + rewrite (while_next f _ _ (st1, d) (emit st1 [c_slash; c_star] 2, d + 1));
        [| assumption |].
      * replace (d + 1) with (S d) by lia.
        rewrite (IH (pre ++ [c_slash; c_star]) post
                   (emit st1 [c_slash; c_star] 2) (S d) f Hsql'); simpl;
          try assumption; try (rewrite length_app; simpl; lia); try lia.
        rewrite <- !app_assoc. simpl. do 3 f_equal. lia.
      * unfold nestedBody. cbn [fst snd].
        rewrite Hsql, (charAt_app_0 pre _ _ Hi).
        cbn [tokenText app hd_error].
        rewrite (charAt_app_1 pre _ c_slash _ Hi).
        reflexivity.
    + rewrite (while_next f _ _ (st1, d) (emit st1 [c_star; c_slash] 2, d - 1));
        [| assumption |].
      * rewrite (IH (pre ++ [c_star; c_slash]) post
                   (emit st1 [c_star; c_slash] 2) (d - 1) f Hsql'); simpl;
          try assumption; try (rewrite length_app; simpl; lia); try lia.
        rewrite <- !app_assoc. simpl. do 3 f_equal. lia.
      * unfold nestedBody. cbn [fst snd].
        rewrite Hsql, (charAt_app_0 pre _ _ Hi).
        cbn [tokenText app hd_error].
        rewrite (charAt_app_1 pre _ c_star _ Hi).
        reflexivity.
Qed.

(** X21: where block comments nest, a comment whose openings and
    closings balance (the depth, 1 after the opening, stays above 0 until
    the last closing brings it to 0) is read from its opening to that last
    closing in one iteration, whatever its depth of nesting; no position
    inside it is a statement separator. *)
Theorem nested_comment_balanced (config : SqlParserConfig) (sql : jsstring)
    (st : scan) (pre post : jsstring) (ts : list token) :
  nestedBlockComments config = true ->
  reach config sql st ->
  sql = pre ++ [c_slash; c_star] ++ tokensText ts ++ post ->
  i st = length pre ->
  balanced 1 ts ->
  readable ts ->
  step config sql st
  = Some (Next (mkScan (statements st)
                       (current st ++ [c_slash; c_star] ++ tokensText ts)
                       (length pre + 2 + length (tokensText ts)))) /\
  forall p, length pre <= p -> p < length pre + 2 + length (tokensText ts) ->
            ~ separatorAt config sql p.
Proof.
  intros Hflag Hr Hsql Hi Hbal Hread.
  assert (H1 : charAt sql (i st) = Some c_slash).
  { rewrite Hsql at 1. now rewrite (charAt_app_0 pre _ _ Hi). }
  assert (H2 : charAt sql (i st + 1) = Some c_star).
  { rewrite Hsql at 1. simpl. now rewrite (charAt_app_1 pre _ c_slash _ Hi). }
  assert (Hsql' : sql = (pre ++ [c_slash; c_star]) ++ tokensText ts ++ post).
  { rewrite Hsql. now rewrite <- app_assoc. }
  assert (Hs : step config sql st
               = Some (Next (mkScan (statements st)
                       (current st ++ [c_slash; c_star] ++ tokensText ts)
                       (length pre + 2 + length (tokensText ts))))).
  { rewrite step_blockComment, Hflag by assumption.
    rewrite (nested_balanced sql ts (pre ++ [c_slash; c_star]) post
               (emit st [c_slash; c_star] 2) 1 (fuel sql) Hsql'); simpl;
      try assumption; try (rewrite length_app; simpl; lia);
      try (unfold fuel; lia).
    rewrite <- app_assoc. simpl. do 3 f_equal. lia. }
  split; [assumption|]. intros p Hp1 Hp2.
  apply (region_no_separator config sql st _ Hr (charAt_lt _ _ _ H1) Hs);
    [rewrite H1; discriminate|lia|simpl; lia].
Qed.

Lemma nested_comment_balanced_witness :
  step (SQL_PARSER_CONFIGS postgresql) (lit "/*a/*/*;*/b*/*/;") initial
  = Some (Next (mkScan []
       ([] ++ [c_slash; c_star]
        ++ tokensText [Ch 97%N; Opening; Opening; Ch 59%N; Closing; Ch 98%N;
                       Closing; Closing])
       (0 + 2 + length (tokensText
                  [Ch 97%N; Opening; Opening; Ch 59%N; Closing; Ch 98%N;
                   Closing; Closing])))) /\
  forall p, 0 <= p ->
    p < 0 + 2 + length (tokensText
                  [Ch 97%N; Opening; Opening; Ch 59%N; Closing; Ch 98%N;
                   Closing; Closing]) ->
    ~ separatorAt (SQL_PARSER_CONFIGS postgresql) (lit "/*a/*/*;*/b*/*/;") p.
Proof.
  apply (nested_comment_balanced (SQL_PARSER_CONFIGS postgresql)
           (lit "/*a/*/*;*/b*/*/;") initial [] [c_semicolon]
           [Ch 97%N; Opening; Opening; Ch 59%N; Closing; Ch 98%N;
            Closing; Closing]).
  - reflexivity.
  - apply steps_refl.
  - reflexivity.
  - reflexivity.
  - simpl. repeat split; lia.
  - simpl. repeat split; intros H; discriminate H.
Defined.


(** * Cutting the text at a separator *)

(** ** The scanner only looks forward: the run on a suffix *)

Definition flowMap {A B : Type} (f : A -> B) (r : flow A) : flow B :=
  match r with
  | Next s => Next (f s)
  | Break s => Break (f s)
  end.

Lemma while_sim {A B : Type} (sh : B -> A)
    (c1 : A -> bool) (b1 : A -> option (flow A))
    (c2 : B -> bool) (b2 : B -> option (flow B)) :
  (forall x, c1 (sh x) = c2 x) ->
  (forall x, b1 (sh x) = option_map (flowMap sh) (b2 x)) ->
  forall f x, while f c1 b1 (sh x) = option_map sh (while f c2 b2 x).
Proof.
  intros Hc Hb f. induction f as [|f IH]; intros x; simpl; rewrite Hc.
  - now destruct (c2 x).
  - destruct (c2 x); [|reflexivity]. rewrite Hb.
    destruct (b2 x) as [[x'|x']|]; simpl; auto.
Qed.

Lemma while_more_fuel {St : Type} (c : St -> bool)
    (b : St -> option (flow St)) (f f' : nat) (x r : St) :
  while f c b x = Some r -> f <= f' -> while f' c b x = Some r.
Proof.
  revert f' x; induction f as [|f IH]; intros f' x; simpl.
  - destruct (c x) eqn:E; [discriminate|].
    intros H _. destruct f'; simpl; now rewrite E.
  - destruct (c x) eqn:E.
    + destruct f' as [|f']; [lia|]. simpl. rewrite E.
      destruct (b x) as [[x'|x']|]; try discriminate; auto.
      intros H Hle. apply IH; [assumption|lia].
    + intros H _. destruct f'; simpl; now rewrite E.
Qed.

(** The state moved [k] positions to the right, after the statements
    [pfx]. *)
Definition shift (k : nat) (pfx : list jsstring) (st : scan) : scan :=
  mkScan (pfx ++ statements st) (current st) (i st + k).

Lemma indexOf_aux_shift (t tag : jsstring) (m k : nat) :
  indexOf_aux t tag (m + k) = option_map (fun c => c + k) (indexOf_aux t tag m).
Proof.
  revert m; induction t as [|c t IH]; intros m; cbn [indexOf_aux].
  - now destruct (startsWith [] tag).
  - destruct (startsWith (c :: t) tag); [reflexivity|].
    now rewrite <- IH.
Qed.

Section Shift.

Variable config : SqlParserConfig.
Variable pre s : jsstring.
Variable pfx : list jsstring.

Let k : nat := length pre.
Let sh : scan -> scan := shift k pfx.

Lemma charAt_shift (n : nat) : charAt (pre ++ s) (n + k) = charAt s n.
Proof. unfold k. rewrite Nat.add_comm. apply charAt_app. Qed.

Lemma charAt_sh (x : scan) : charAt (pre ++ s) (i (sh x)) = charAt s (i x).
Proof. apply charAt_shift. Qed.

Lemma charAt_sh1 (x : scan) :
  charAt (pre ++ s) (i (sh x) + 1) = charAt s (i x + 1).
Proof.
  simpl. replace (i x + k + 1) with (i x + 1 + k) by lia. apply charAt_shift.
Qed.

Lemma emit_sh (x : scan) (l : jsstring) (n : nat) :
  emit (sh x) l n = sh (emit x l n).
Proof. unfold emit, sh, shift. simpl. f_equal. lia. Qed.

Lemma emitChar_sh (x : scan) : emitChar (pre ++ s) (sh x) = sh (emitChar s x).
Proof.
  unfold emitChar. rewrite charAt_sh. unfold sh, shift. simpl. f_equal. lia.
Qed.

Lemma inBounds_sh (x : scan) : inBounds (pre ++ s) (sh x) = inBounds s x.
Proof.
  unfold inBounds. simpl. rewrite length_app. fold k.
  destruct (Nat.ltb_spec (i x) (length s));
    [apply Nat.ltb_lt|apply Nat.ltb_ge]; lia.
Qed.

Ltac body_sh :=
  intros x; rewrite ?charAt_sh, ?charAt_sh1;
  repeat match goal with
    | |- context [if ?b then _ else _] => destruct b
    end;
  simpl; rewrite ?emit_sh, ?emitChar_sh; reflexivity.

Lemma singleQuoteBody_sh :
  forall x, singleQuoteBody config (pre ++ s) (sh x)
            = option_map (flowMap sh) (singleQuoteBody config s x).
Proof. unfold singleQuoteBody. body_sh. Qed.

Lemma doubleQuoteBody_sh :
  forall x, doubleQuoteBody (pre ++ s) (sh x)
            = option_map (flowMap sh) (doubleQuoteBody s x).
Proof. unfold doubleQuoteBody. body_sh. Qed.

Lemma backtickBody_sh :
  forall x, backtickBody (pre ++ s) (sh x)
            = option_map (flowMap sh) (backtickBody s x).
Proof. unfold backtickBody. body_sh. Qed.

Lemma bracketBody_sh :
  forall x, bracketBody (pre ++ s) (sh x)
            = option_map (flowMap sh) (bracketBody s x).
Proof. unfold bracketBody. body_sh. Qed.

Lemma blockBody_sh :
  forall x, blockBody (pre ++ s) (sh x)
            = option_map (flowMap sh) (blockBody s x).
Proof. unfold blockBody. body_sh. Qed.

Lemma lineBody_sh :
  forall x, lineBody (pre ++ s) (sh x)
            = option_map (flowMap sh) (lineBody s x).
Proof. unfold lineBody. body_sh. Qed.

Lemma lineCond_sh (x : scan) : lineCond (pre ++ s) (sh x) = lineCond s x.
Proof. unfold lineCond. now rewrite inBounds_sh, charAt_sh. Qed.

Definition shDepth (sd : scan * nat) : scan * nat := (sh (fst sd), snd sd).

Lemma nestedCond_sh (sd : scan * nat) :
  nestedCond (pre ++ s) (shDepth sd) = nestedCond s sd.
Proof. unfold nestedCond, shDepth. cbn [fst snd]. now rewrite inBounds_sh. Qed.

Lemma nestedBody_sh (sd : scan * nat) :
  nestedBody (pre ++ s) (shDepth sd)
  = option_map (flowMap shDepth) (nestedBody s sd).
Proof.
  unfold nestedBody, shDepth. cbn [fst snd].
  rewrite charAt_sh, charAt_sh1.
  repeat match goal with
    | |- context [if ?b then _ else _] => destruct b
    end;
  simpl; rewrite ?emit_sh, ?emitChar_sh; reflexivity.
Qed.

Definition shTag (tj : jsstring * nat) : jsstring * nat := (fst tj, snd tj + k).

Lemma tagCond_sh (tj : jsstring * nat) :
  tagCond (pre ++ s) (shTag tj) = tagCond s tj.
Proof.
  unfold tagCond, shTag. cbn [fst snd]. rewrite charAt_shift, length_app.
  fold k. f_equal.
  destruct (Nat.ltb_spec (snd tj) (length s));
    [apply Nat.ltb_lt|apply Nat.ltb_ge]; lia.
Qed.

Lemma tagBody_sh (tj : jsstring * nat) :
  tagBody (pre ++ s) (shTag tj) = option_map (flowMap shTag) (tagBody s tj).
Proof.
  unfold tagBody, shTag. cbn [fst snd]. rewrite charAt_shift.
  destruct (isChar c_dollar (charAt s (snd tj))); simpl;
    do 3 f_equal; lia.
Qed.

(** A loop that ends on the short text ends alike on the long one. *)
Lemma loop_shift {A B : Type} (f : B -> A)
    (c1 : A -> bool) (b1 : A -> option (flow A))
    (c2 : B -> bool) (b2 : B -> option (flow B)) (x : B) :
  (forall y, c1 (f y) = c2 y) ->
  (forall y, b1 (f y) = option_map (flowMap f) (b2 y)) ->
  (exists r, while (fuel s) c2 b2 x = Some r) ->
  while (fuel (pre ++ s)) c1 b1 (f x) = option_map f (while (fuel s) c2 b2 x).
Proof.
  intros Hc Hb [r Hr].
  rewrite (while_sim f c1 b1 c2 b2 Hc Hb), Hr.
  rewrite (while_more_fuel c2 b2 (fuel s) (fuel (pre ++ s)) x r Hr);
    [reflexivity|].
  unfold fuel. rewrite length_app. lia.
Qed.

Lemma skipn_shift (n : nat) : skipn (n + k) (pre ++ s) = skipn n s.
Proof.
  unfold k. rewrite skipn_app, (skipn_all2 pre) by lia. simpl.
  f_equal. lia.
Qed.

Lemma indexOf_shift (tag : jsstring) (j : nat) :
  indexOf (pre ++ s) tag (j + k)
  = option_map (fun c => c + k) (indexOf s tag j).
Proof.
  unfold indexOf. rewrite length_app. fold k.
  replace (Nat.min (j + k) (k + length s)) with (Nat.min j (length s) + k) by lia.
  now rewrite indexOf_aux_shift, skipn_shift.
Qed.

Lemma slice_shift (a b : nat) :
  slice (pre ++ s) (a + k) (b + k) = slice s a b.
Proof.
  unfold slice. replace (b + k - (a + k)) with (b - a) by lia.
  now rewrite skipn_shift.
Qed.

Lemma dollarQuote_sh (st : scan) :
  charAt s (i st) = Some c_dollar ->
  dollarQuote (pre ++ s) (sh st)
  = option_map (option_map sh) (dollarQuote s st).
Proof.
  intros Hd. unfold dollarQuote.
  destruct (tag_scan s st Hd) as (tag & j & Hw & Hij & Hj & Htag).
  replace ([c_dollar], i (sh st) + 1) with (shTag ([c_dollar], i st + 1)).
  2:{ unfold shTag. simpl. f_equal. lia. }
  rewrite (loop_shift shTag _ _ (tagCond s) (tagBody s));
    [| apply tagCond_sh | apply tagBody_sh | now exists (tag, j)].
  rewrite Hw. cbn [option_map shTag fst snd].
  destruct (endsWith tag c_dollar && (2 <=? length tag)); [|reflexivity].
  rewrite indexOf_shift.
  destruct (indexOf s tag j) as [closeIdx|] eqn:Ei; cbn [option_map].
  - apply indexOf_bounds in Ei; [|assumption]. destruct Ei as [Hk1 Hk2].
    unfold sh, shift. simpl.
    replace (closeIdx + k + length tag) with (closeIdx + length tag + k) by lia.
    rewrite !substring_slice by (rewrite ?length_app; fold k; lia).
    now rewrite slice_shift.
  - unfold sh, shift. simpl.
    assert (E1 : substringFrom (pre ++ s) (j + k) = substringFrom s j).
    { unfold substringFrom. rewrite !substring_slice
        by (rewrite ?length_app; fold k; lia).
      rewrite length_app. fold k.
      replace (k + length s) with (length s + k) by lia.
      apply slice_shift. }
    assert (E2 : length (pre ++ s) = length s + k).
    { rewrite length_app. fold k. lia. }
    now rewrite E1, E2.
Qed.

Lemma stepRest_sh (st : scan) :
  i st < length s ->
  stepRest config (pre ++ s) (sh st)
  = option_map (flowMap sh) (stepRest config s st).
Proof.
  intros Hlt. unfold stepRest. cbn zeta. rewrite charAt_sh, charAt_sh1.
  destruct (hashLineComment config && isChar c_hash (charAt s (i st))) eqn:E1.
  { apply andb_prop in E1. destruct E1 as [_ E1]. apply isChar_true in E1.
    rewrite emit_sh.
    rewrite (loop_shift sh _ _ (lineCond s) (lineBody s));
      [| apply lineCond_sh | apply lineBody_sh |].
    - now destruct (while (fuel s) (lineCond s) (lineBody s) (emit st [c_hash] 1)).
    - destruct (loop_consumes s (lineCond s) (lineBody s) (lineCond_lt s)
                  (lineBody_advances s) (emit st [c_hash] 1)) as [r [Hr _]];
        [simpl; lia|now exists r]. }
  destruct (isChar c_dash (charAt s (i st))
            && isChar c_dash (charAt s (i st + 1))) eqn:E2.
  { apply andb_prop in E2. destruct E2 as [_ E2]. apply isChar_true in E2.
    apply charAt_lt in E2. rewrite emit_sh.
    rewrite (loop_shift sh _ _ (lineCond s) (lineBody s));
      [| apply lineCond_sh | apply lineBody_sh |].
    - now destruct (while (fuel s) (lineCond s) (lineBody s)
                      (emit st [c_dash; c_dash] 2)).
    - destruct (loop_consumes s (lineCond s) (lineBody s) (lineCond_lt s)
                  (lineBody_advances s) (emit st [c_dash; c_dash] 2))
        as [r [Hr _]]; [simpl; lia|now exists r]. }
  destruct (isChar c_slash (charAt s (i st))
            && isChar c_star (charAt s (i st + 1))) eqn:E3.
  { apply andb_prop in E3. destruct E3 as [_ E3]. apply isChar_true in E3.
    apply charAt_lt in E3. rewrite emit_sh.
    destruct (nestedBlockComments config).
    - change (sh (emit st [c_slash; c_star] 2), 1)
        with (shDepth (emit st [c_slash; c_star] 2, 1)).
      rewrite (loop_shift shDepth _ _ (nestedCond s) (nestedBody s));
        [| apply nestedCond_sh | apply nestedBody_sh |].
      + now destruct (while (fuel s) (nestedCond s) (nestedBody s)
                        (emit st [c_slash; c_star] 2, 1)) as [[r d]|].
      + destruct (nested_consumes s (emit st [c_slash; c_star] 2) 1)
          as (r & d & Hr & _); [simpl; lia|now exists (r, d)].
    - rewrite (loop_shift sh _ _ (inBounds s) (blockBody s));
        [| apply inBounds_sh | apply blockBody_sh |].
      + now destruct (while (fuel s) (inBounds s) (blockBody s)
                        (emit st [c_slash; c_star] 2)).
      + destruct (loop_consumes s (inBounds s) (blockBody s) (inBounds_lt s)
                    (blockBody_advances s) (emit st [c_slash; c_star] 2))
          as [r [Hr _]]; [simpl; lia|now exists r]. }
  destruct (isChar c_semicolon (charAt s (i st))).
  { simpl. unfold sh, shift. simpl. do 3 f_equal; [|lia].
    destruct (truthy (trim (current st))); [now rewrite app_assoc|reflexivity]. }
  simpl. now rewrite emitChar_sh.
Qed.

Lemma quote_loop_sh (st : scan)
    (b1 : scan -> option (flow scan)) (b2 : scan -> option (flow scan)) :
  i st < length s ->
  (forall y, b1 (sh y) = option_map (flowMap sh) (b2 y)) ->
  (forall y, i y < length s ->
     exists r, b2 y = Some r /\ advances s y (flowState r)) ->
  option_map Next
    (while (fuel (pre ++ s)) (inBounds (pre ++ s)) b1
       (emitChar (pre ++ s) (sh st)))
  = option_map (flowMap sh)
      (option_map Next (while (fuel s) (inBounds s) b2 (emitChar s st))).
Proof.
  intros Hlt Hb Hadv. rewrite emitChar_sh.
  rewrite (loop_shift sh _ _ (inBounds s) b2);
    [| apply inBounds_sh | apply Hb |].
  - now destruct (while (fuel s) (inBounds s) b2 (emitChar s st)).
  - destruct (loop_consumes s (inBounds s) b2 (inBounds_lt s) Hadv
                (emitChar s st)) as [r [Hr _]]; [simpl; lia|now exists r].
Qed.

Lemma step_sh (st : scan) :
  i st < length s ->
  step config (pre ++ s) (sh st) = option_map (flowMap sh) (step config s st).
Proof.
  intros Hlt. unfold step. cbn zeta. rewrite charAt_sh.
  destruct (isChar c_squote (charAt s (i st))).
  { apply quote_loop_sh; [assumption|apply singleQuoteBody_sh|].
    apply singleQuoteBody_advances. }
  destruct (isChar c_dquote (charAt s (i st))).
  { apply quote_loop_sh; [assumption|apply doubleQuoteBody_sh|].
    apply doubleQuoteBody_advances. }
  destruct (backtickIdentifiers config && isChar c_backtick (charAt s (i st))).
  { apply quote_loop_sh; [assumption|apply backtickBody_sh|].
    apply backtickBody_advances. }
  destruct (bracketIdentifiers config && isChar c_lbracket (charAt s (i st))).
  { apply quote_loop_sh; [assumption|apply bracketBody_sh|].
    apply bracketBody_advances. }
  destruct (dollarQuotes config && isChar c_dollar (charAt s (i st))) eqn:E.
  { apply andb_prop in E. destruct E as [_ E]. apply isChar_true in E.
    rewrite (dollarQuote_sh st E).
    destruct (dollarQuote s st) as [[st'|]|]; simpl; try reflexivity.
    now apply stepRest_sh. }
  now apply stepRest_sh.
Qed.

Lemma steps_sh (a b : scan) :
  steps config s a b -> steps config (pre ++ s) (sh a) (sh b).
Proof.
  induction 1 as [|a a1 b Hlt Hs _ IH]; [apply steps_refl|].
  eapply steps_next; [| |exact IH].
  - simpl. rewrite length_app. fold k. lia.
  - rewrite (step_sh a Hlt), Hs. reflexivity.
Qed.

End Shift.


(** ** The run up to a semicolon: the text cut off there *)

Lemma while_pos_mono {St : Type} (pos : St -> nat) (c : St -> bool)
    (b : St -> option (flow St)) :
  (forall x r, c x = true -> b x = Some r -> pos x < pos (flowState r)) ->
  forall f x r, while f c b x = Some r -> pos x <= pos r.
Proof.
  intros Hadv f. induction f as [|f IH]; intros x r; simpl.
  - destruct (c x); [discriminate|]. intros H. injection H as <-. lia.
  - destruct (c x) eqn:E; [|intros H; injection H as <-; lia].
    destruct (b x) as [[x'|x']|] eqn:Eb; try discriminate; intros H.
    + pose proof (Hadv x _ E Eb). apply IH in H. simpl in *. lia.
    + injection H as <-. pose proof (Hadv x _ E Eb). simpl in *. lia.
Qed.

Lemma while_trunc {St : Type} (pos : St -> nat) (p : nat)
    (c1 : St -> bool) (b1 : St -> option (flow St))
    (c2 : St -> bool) (b2 : St -> option (flow St)) :
  (forall x, pos x < p -> c2 x = c1 x) ->
  (forall x, p <= pos x -> c2 x = false) ->
  (forall x, pos x < p -> c1 x = true -> b2 x = b1 x) ->
  (forall x r, c1 x = true -> b1 x = Some r -> pos x < pos (flowState r)) ->
  forall f x r, while f c1 b1 x = Some r -> pos r <= p ->
    while f c2 b2 x = Some r.
Proof.
  intros Hc Hend Hb Hadv f. induction f as [|f IH]; intros x r; simpl.
  - destruct (c1 x) eqn:E; [discriminate|]. intros H Hr. injection H as <-.
    destruct (Nat.lt_ge_cases (pos x) p) as [Hlt|Hge].
    + now rewrite (Hc x Hlt), E.
    + now rewrite (Hend x Hge).
  - destruct (c1 x) eqn:E.
    + destruct (b1 x) as [[x'|x']|] eqn:Eb; try discriminate; intros H Hr.
      * pose proof (Hadv x _ E Eb) as Hlt. simpl in Hlt.
        pose proof (while_pos_mono pos c1 b1 Hadv f x' r H) as Hmono.
        assert (Hx : pos x < p) by lia.
        rewrite (Hc x Hx), E, (Hb x Hx E), Eb. now apply IH.
      * injection H as <-.
        pose proof (Hadv x _ E Eb) as Hlt. simpl in Hlt.
        assert (Hx : pos x < p) by lia.
        now rewrite (Hc x Hx), E, (Hb x Hx E), Eb.
    + intros H Hr. injection H as <-.
      destruct (Nat.lt_ge_cases (pos x) p) as [Hlt|Hge].
      * now rewrite (Hc x Hlt), E.
      * now rewrite (Hend x Hge).
Qed.

Section Trunc.

Variable config : SqlParserConfig.
Variable sql : jsstring.
Variable p : nat.
Hypothesis Hsemi : charAt sql p = Some c_semicolon.

Let t : jsstring := firstn p sql.

Lemma trunc_length : length t = p.
Proof.
  unfold t. rewrite length_firstn. pose proof (charAt_lt _ _ _ Hsemi). lia.
Qed.

Lemma charAt_trunc (n : nat) : n < p -> charAt t n = charAt sql n.
Proof. intros H. unfold charAt, t. now rewrite nth_error_firstn, (proj2 (Nat.ltb_lt _ _) H). Qed.

Lemma charAt_trunc_end (n : nat) : p <= n -> charAt t n = None.
Proof. intros H. apply nth_error_None. rewrite trunc_length. lia. Qed.

Lemma isChar_trunc (q : N) (n : nat) :
  q <> c_semicolon -> n <= p ->
  isChar q (charAt t n) = isChar q (charAt sql n).
Proof.
  intros Hq Hn. destruct (Nat.eq_dec n p) as [->|Hne].
  - rewrite charAt_trunc_end, Hsemi by lia. unfold isChar. symmetry.
    apply N.eqb_neq. congruence.
  - now rewrite charAt_trunc by lia.
Qed.

Lemma slice_trunc (a b : nat) : b <= p -> slice t a b = slice sql a b.
Proof.
  intros Hb. unfold slice, t.
  destruct (Nat.le_gt_cases a b) as [Hab|Hab].
  - rewrite skipn_firstn_comm, firstn_firstn. f_equal. lia.
  - replace (b - a) with 0 by lia. reflexivity.
Qed.

Lemma emitChar_trunc (x : scan) : i x < p -> emitChar t x = emitChar sql x.
Proof. intros H. unfold emitChar. now rewrite charAt_trunc. Qed.

Lemma inBounds_trunc (x : scan) : i x < p -> inBounds t x = inBounds sql x.
Proof.
  intros H. unfold inBounds. rewrite trunc_length.
  pose proof (charAt_lt _ _ _ Hsemi).
  rewrite (proj2 (Nat.ltb_lt _ _) H). symmetry. apply Nat.ltb_lt. lia.
Qed.

Lemma inBounds_trunc_end (x : scan) : p <= i x -> inBounds t x = false.
Proof.
  intros H. unfold inBounds. rewrite trunc_length. now apply Nat.ltb_ge.
Qed.

Ltac body_trunc :=
  intros x Hx;
  rewrite ?isChar_trunc by (discriminate || lia);
  rewrite ?emitChar_trunc by assumption; reflexivity.

Lemma singleQuoteBody_trunc :
  forall x, i x < p -> singleQuoteBody config t x = singleQuoteBody config sql x.
Proof. unfold singleQuoteBody. body_trunc. Qed.

Lemma doubleQuoteBody_trunc :
  forall x, i x < p -> doubleQuoteBody t x = doubleQuoteBody sql x.
Proof. unfold doubleQuoteBody. body_trunc. Qed.

Lemma backtickBody_trunc :
  forall x, i x < p -> backtickBody t x = backtickBody sql x.
Proof. unfold backtickBody. body_trunc. Qed.

Lemma bracketBody_trunc :
  forall x, i x < p -> bracketBody t x = bracketBody sql x.
Proof. unfold bracketBody. body_trunc. Qed.

Lemma blockBody_trunc :
  forall x, i x < p -> blockBody t x = blockBody sql x.
Proof. unfold blockBody. body_trunc. Qed.

Lemma lineBody_trunc :
  forall x, i x < p -> lineBody t x = lineBody sql x.
Proof. unfold lineBody. body_trunc. Qed.

Lemma lineCond_trunc (x : scan) : i x < p -> lineCond t x = lineCond sql x.
Proof.
  intros H. unfold lineCond.
  now rewrite inBounds_trunc, isChar_trunc by (assumption || discriminate || lia).
Qed.

Lemma lineCond_trunc_end (x : scan) : p <= i x -> lineCond t x = false.
Proof. intros H. unfold lineCond. now rewrite inBounds_trunc_end. Qed.

Lemma nestedCond_trunc (sd : scan * nat) :
  i (fst sd) < p -> nestedCond t sd = nestedCond sql sd.
Proof. intros H. unfold nestedCond. now rewrite inBounds_trunc. Qed.

Lemma nestedCond_trunc_end (sd : scan * nat) :
  p <= i (fst sd) -> nestedCond t sd = false.
Proof. intros H. unfold nestedCond. now rewrite inBounds_trunc_end. Qed.

Lemma nestedBody_trunc (sd : scan * nat) :
  i (fst sd) < p -> nestedBody t sd = nestedBody sql sd.
Proof.
  intros H. unfold nestedBody. cbn zeta.
  rewrite ?isChar_trunc by (discriminate || lia).
  now rewrite emitChar_trunc.
Qed.

Lemma tagCond_trunc (tj : jsstring * nat) :
  snd tj < p -> tagCond t tj = tagCond sql tj.
Proof.
  intros H. unfold tagCond. rewrite trunc_length, charAt_trunc by assumption.
  pose proof (charAt_lt _ _ _ Hsemi).
  rewrite (proj2 (Nat.ltb_lt _ _) H). f_equal. symmetry. apply Nat.ltb_lt. lia.
Qed.

Lemma tagCond_trunc_end (tj : jsstring * nat) :
  p <= snd tj -> tagCond t tj = false.
Proof.
  intros H. unfold tagCond. rewrite trunc_length.
  now rewrite (proj2 (Nat.ltb_ge _ _) H).
Qed.

Lemma tagBody_trunc (tj : jsstring * nat) :
  snd tj < p -> tagBody t tj = tagBody sql tj.
Proof. intros H. unfold tagBody. now rewrite charAt_trunc. Qed.

Lemma advances_pos (body : scan -> option (flow scan)) :
  (forall y, i y < length sql ->
     exists r, body y = Some r /\ advances sql y (flowState r)) ->
  forall (c : scan -> bool),
  (forall y, c y = true -> i y < length sql) ->
  forall x r, c x = true -> body x = Some r -> i x < i (flowState r).
Proof.
  intros Hadv c Hc x r Hx Hb.
  destruct (Hadv x (Hc x Hx)) as [r' [Hr' [_ Hlt]]]. congruence.
Qed.

(** A loop that ends on the whole text at or before [p] ends alike on the
    text cut off at [p]. *)
Lemma loop_trunc (b1 b2 : scan -> option (flow scan))
    (c1 c2 : scan -> bool) (x r : scan) :
  (forall y, i y < p -> c2 y = c1 y) ->
  (forall y, p <= i y -> c2 y = false) ->
  (forall y, i y < p -> b2 y = b1 y) ->
  (forall y, c1 y = true -> i y < length sql) ->
  (forall y, c2 y = true -> i y < length t) ->
  (forall y, i y < length sql ->
     exists r, b1 y = Some r /\ advances sql y (flowState r)) ->
  (forall y, i y < length t ->
     exists r, b2 y = Some r /\ advances t y (flowState r)) ->
  while (fuel sql) c1 b1 x = Some r -> i r <= p ->
  while (fuel t) c2 b2 x = Some r.
Proof.
  intros Hc Hend Hb Hc1 Hc2 Hadv1 Hadv2 Hw Hr.
  pose proof (while_pos_mono i c1 b1 (advances_pos b1 Hadv1 c1 Hc1) _ _ _ Hw)
    as Hmono.
  pose proof (while_trunc i p c1 b1 c2 b2 Hc Hend (fun y Hy _ => Hb y Hy)
                (advances_pos b1 Hadv1 c1 Hc1) _ _ _ Hw Hr) as Hw2.
  destruct (loop_consumes t c2 b2 Hc2 Hadv2 x) as [r' [Hr' _]].
  { rewrite trunc_length. lia. }
  rewrite Hr'. f_equal.
  assert (Hle : fuel t <= fuel sql).
  { unfold fuel. rewrite trunc_length. pose proof (charAt_lt _ _ _ Hsemi). lia. }
  pose proof (while_more_fuel c2 b2 _ _ _ _ Hr' Hle) as Hw3. congruence.
Qed.

Lemma option_Next_inv (o : option scan) (r : scan) :
  option_map Next o = Some (Next r) -> o = Some r.
Proof. destruct o; simpl; intros H; [now injection H as ->|discriminate]. Qed.

Lemma quote_loop_trunc (st st' : scan)
    (b1 b2 : scan -> option (flow scan)) :
  i st < p ->
  (forall y, i y < p -> b2 y = b1 y) ->
  (forall y, i y < length sql ->
     exists r, b1 y = Some r /\ advances sql y (flowState r)) ->
  (forall y, i y < length t ->
     exists r, b2 y = Some r /\ advances t y (flowState r)) ->
  option_map Next (while (fuel sql) (inBounds sql) b1 (emitChar sql st))
  = Some (Next st') ->
  i st' <= p ->
  option_map Next (while (fuel t) (inBounds t) b2 (emitChar t st))
  = Some (Next st').
Proof.
  intros Hlt Hb Hadv1 Hadv2 H Hr. apply option_Next_inv in H.
  rewrite (emitChar_trunc st Hlt).
  rewrite (loop_trunc b1 b2 (inBounds sql) (inBounds t) _ st');
    auto using inBounds_trunc, inBounds_trunc_end, inBounds_lt.
Qed.

Lemma tag_stops (f : nat) (tag0 tag : jsstring) (j0 j : nat) :
  while f (tagCond sql) (tagBody sql) (tag0, j0) = Some (tag, j) ->
  j0 <= p -> j <= p.
Proof.
  revert tag0 j0; induction f as [|f IH]; intros tag0 j0; simpl.
  - destruct (tagCond sql (tag0, j0)); [discriminate|].
    intros H. injection H as _ <-. auto.
  - destruct (tagCond sql (tag0, j0)) eqn:E.
    + assert (Hne : j0 <> p).
      { intros ->. unfold tagCond in E. simpl in E. rewrite Hsemi in E.
        simpl in E. now rewrite andb_false_r in E. }
      unfold tagBody. cbn [fst snd].
      destruct (isChar c_dollar (charAt sql j0)); intros H Hle.
      * injection H as _ <-. lia.
      * apply IH in H; lia.
    + intros H. injection H as _ <-. auto.
Qed.

Lemma tag_loop_trunc (st : scan) (tag : jsstring) (j : nat) :
  i st < p -> charAt sql (i st) = Some c_dollar ->
  while (fuel sql) (tagCond sql) (tagBody sql) ([c_dollar], i st + 1)
  = Some (tag, j) ->
  while (fuel t) (tagCond t) (tagBody t) ([c_dollar], i st + 1) = Some (tag, j).
Proof.
  intros Hlt Hd Hw.
  pose proof (tag_stops _ _ _ _ _ Hw ltac:(lia)) as Hj.
  assert (Hadv : forall (x : jsstring * nat) r,
             tagCond sql x = true -> tagBody sql x = Some r ->
             snd x < snd (flowState r)).
  { intros [tg n] r _. unfold tagBody. cbn [fst snd].
    destruct (isChar c_dollar (charAt sql n)); intros H; injection H as <-;
      simpl; lia. }
  pose proof (while_trunc snd p (tagCond sql) (tagBody sql) (tagCond t) (tagBody t)
                tagCond_trunc tagCond_trunc_end
                (fun y Hy _ => tagBody_trunc y Hy) Hadv _ _ _ Hw Hj) as Hw2.
  assert (Hd' : charAt t (i st) = Some c_dollar) by now rewrite charAt_trunc.
  destruct (tag_scan t st Hd') as (tag' & j' & Hw' & _).
  rewrite Hw'. 
  assert (Hle : fuel t <= fuel sql).
  { unfold fuel. rewrite trunc_length. pose proof (charAt_lt _ _ _ Hsemi). lia. }
  pose proof (while_more_fuel _ _ _ _ _ _ Hw' Hle) as Hw3. congruence.
Qed.

Lemma occursAt_trunc (tag : jsstring) (c : nat) :
  occursAt t tag c -> occursAt sql tag c.
Proof.
  intros [H1 H2]. rewrite trunc_length in H1.
  pose proof (charAt_lt _ _ _ Hsemi).
  split; [lia|]. now rewrite <- slice_trunc by lia.
Qed.

Lemma dollarQuote_trunc (st : scan) :
  i st < p -> charAt sql (i st) = Some c_dollar ->
  match dollarQuote sql st with
  | Some (Some st1) => i st1 <= p -> dollarQuote t st = Some (Some st1)
  | Some None => dollarQuote t st = Some None
  | None => True
  end.
Proof.
  intros Hlt Hd. unfold dollarQuote.
  destruct (tag_scan sql st Hd) as (tag & j & Hw & Hij & Hj & Htag).
  rewrite Hw, (tag_loop_trunc st tag j Hlt Hd Hw).
  destruct (endsWith tag c_dollar && (2 <=? length tag)); [|reflexivity].
  pose proof (charAt_lt _ _ _ Hsemi) as Hp.
  destruct (indexOf sql tag j) as [c|] eqn:Ei; simpl.
  - intros Hc.
    destruct (indexOf_some _ _ _ _ Hj Ei) as (H1 & [H2 H3] & H4).
    assert (Ei' : indexOf t tag j = Some c).
    { apply indexOf_first; [assumption| |].
      - split; [rewrite trunc_length; lia|]. now rewrite slice_trunc.
      - intros k' Hk1 Hk2 Hocc. apply (H4 k' Hk1 Hk2).
        now apply occursAt_trunc. }
    rewrite Ei'. rewrite !substring_slice by (rewrite ?trunc_length; lia).
    now rewrite slice_trunc.
  - intros Hc. lia.
Qed.

Lemma stepRest_trunc (st st' : scan) :
  i st < p ->
  stepRest config sql st = Some (Next st') -> i st' <= p ->
  stepRest config t st = Some (Next st').
Proof.
  intros Hlt. unfold stepRest. cbn zeta.
  rewrite !isChar_trunc by (discriminate || lia).
  rewrite (charAt_trunc (i st) Hlt).
  pose proof (charAt_lt _ _ _ Hsemi) as Hp.
  destruct (hashLineComment config && isChar c_hash (charAt sql (i st))).
  { intros H Hr. apply option_Next_inv in H.
    rewrite (loop_trunc (lineBody sql) (lineBody t) (lineCond sql) (lineCond t)
               _ st'); auto using lineCond_trunc, lineCond_trunc_end,
               lineBody_trunc, lineCond_lt, lineBody_advances. }
  destruct (isChar c_dash (charAt sql (i st))
            && isChar c_dash (charAt sql (i st + 1))).
  { intros H Hr. apply option_Next_inv in H.
    rewrite (loop_trunc (lineBody sql) (lineBody t) (lineCond sql) (lineCond t)
               _ st'); auto using lineCond_trunc, lineCond_trunc_end,
               lineBody_trunc, lineCond_lt, lineBody_advances. }
  destruct (isChar c_slash (charAt sql (i st))
            && isChar c_star (charAt sql (i st + 1))).
  { destruct (nestedBlockComments config).
    - destruct (while (fuel sql) (nestedCond sql) (nestedBody sql)
                  (emit st [c_slash; c_star] 2, 1)) as [[r d]|] eqn:Hw;
        simpl; [|discriminate].
      intros H Hr. injection H as <-.
      assert (Hadv : forall (x : scan * nat) r0,
                 nestedCond sql x = true -> nestedBody sql x = Some r0 ->
                 i (fst x) < i (fst (flowState r0))).
      { intros [x n] r0 Hc Hb. unfold nestedCond in Hc. cbn [fst snd] in *.
        apply andb_prop in Hc. destruct Hc as [Hc _]. apply inBounds_lt in Hc.
        destruct (nestedBody_advances sql x n Hc) as (x' & n' & Hx' & [_ Hl]).
        rewrite Hx' in Hb. injection Hb as <-. exact Hl. }
      pose proof (while_pos_mono (fun sd => i (fst sd)) _ _ Hadv _ _ _ Hw) as Hm.
      pose proof (while_trunc (fun sd => i (fst sd)) p
                    (nestedCond sql) (nestedBody sql) (nestedCond t) (nestedBody t)
                    nestedCond_trunc nestedCond_trunc_end
                    (fun y Hy _ => nestedBody_trunc y Hy) Hadv _ _ _ Hw Hr) as Hw2.
      simpl in Hm.
      destruct (nested_consumes t (emit st [c_slash; c_star] 2) 1)
        as (r' & d' & Hr' & _); [simpl; rewrite trunc_length; lia|].
      rewrite Hr'. simpl.
      assert (Hle : fuel t <= fuel sql).
      { unfold fuel. rewrite trunc_length. lia. }
      pose proof (while_more_fuel _ _ _ _ _ _ Hr' Hle) as Hw3.
      rewrite Hw2 in Hw3. injection Hw3 as -> _. reflexivity.
    - intros H Hr. apply option_Next_inv in H.
      rewrite (loop_trunc (blockBody sql) (blockBody t) (inBounds sql) (inBounds t)
                 _ st'); auto using inBounds_trunc, inBounds_trunc_end,
                 blockBody_trunc, inBounds_lt, blockBody_advances. }
  destruct (isChar c_semicolon (charAt sql (i st))); [auto|].
  rewrite (emitChar_trunc st Hlt). auto.
Qed.

Lemma step_trunc (st st' : scan) :
  i st < p ->
  step config sql st = Some (Next st') -> i st' <= p ->
  step config t st = Some (Next st').
Proof.
  intros Hlt. unfold step. cbn zeta.
  rewrite (charAt_trunc (i st) Hlt).
  destruct (isChar c_squote (charAt sql (i st))).
  { apply quote_loop_trunc; auto using singleQuoteBody_trunc,
      singleQuoteBody_advances. }
  destruct (isChar c_dquote (charAt sql (i st))).
  { apply quote_loop_trunc; auto using doubleQuoteBody_trunc,
      doubleQuoteBody_advances. }
  destruct (backtickIdentifiers config && isChar c_backtick (charAt sql (i st))).
  { apply quote_loop_trunc; auto using backtickBody_trunc,
      backtickBody_advances. }
  destruct (bracketIdentifiers config && isChar c_lbracket (charAt sql (i st))).
  { apply quote_loop_trunc; auto using bracketBody_trunc,
      bracketBody_advances. }
  destruct (dollarQuotes config && isChar c_dollar (charAt sql (i st))) eqn:E.
  { apply andb_prop in E. destruct E as [_ E]. apply isChar_true in E.
    pose proof (dollarQuote_trunc st Hlt E) as Hd.
    destruct (dollarQuote sql st) as [[st1|]|]; [| |discriminate].
    - intros H Hr. injection H as <-. now rewrite (Hd Hr).
    - rewrite Hd. now apply stepRest_trunc. }
  now apply stepRest_trunc.
Qed.

Lemma reach_trunc (st : scan) :
  reach config sql st -> i st <= p -> reach config t st.
Proof.
  intros H. induction H as [|st st' Hr IH Hlt Hs] using reach_ind'.
  - intros _. apply steps_refl.
  - intros Hle. pose proof (step_lt _ _ _ _ Hlt Hs) as [Hadv _].
    unfold reach. eapply steps_snoc.
    + apply IH. lia.
    + rewrite trunc_length. lia.
    + apply step_trunc; [lia|assumption|assumption].
Qed.

End Trunc.


Lemma finish_shift (k : nat) (pfx : list jsstring) (st : scan) :
  finish (shift k pfx st) = pfx ++ finish st.
Proof.
  unfold finish, shift. simpl.
  destruct (truthy (trim (current st))); [now rewrite app_assoc|reflexivity].
Qed.

(** X22: splitting distributes over a statement separator.  Where a
    semicolon of the text is a separator (it stands outside every quoted or
    commented region), the statements of the whole text are the statements of
    the text before that semicolon followed by the statements of the text
    after it, each part split on its own for the same dialect. *)
Theorem split_at_separator (sql : jsstring) (dbType : DatabaseType) (p : nat) :
  separatorAt (SQL_PARSER_CONFIGS dbType) sql p ->
  exists before after,
    splitStatements (firstn p sql) dbType = Some before /\
    splitStatements (skipn (p + 1) sql) dbType = Some after /\
    splitStatements sql dbType = Some (before ++ after).
Proof.
  intros [(st & Hr & Hi) Hsemi].
  pose proof (charAt_lt _ _ _ Hsemi) as Hp.
  set (config := SQL_PARSER_CONFIGS dbType) in *.
  destruct (splitStatements_total (skipn (p + 1) sql) dbType)
    as (stf & Hrf & Hif & Hsf).
  exists (finish st), (finish stf).
  split; [|split].
  - apply split_at_end.
    + apply reach_trunc; [assumption|assumption|lia].
    + rewrite length_firstn. lia.
  - exact Hsf.
  - assert (Hcut : step config sql st = Some (Next (cut st))).
    { destruct (step_stepped config sql st) as (st' & Hs & [[Hn _]|[_ ->]]);
        [lia| |exact Hs].
      exfalso. apply Hn. now rewrite Hi. }
    assert (Esql : firstn (p + 1) sql ++ skipn (p + 1) sql = sql)
      by apply firstn_skipn.
    assert (Elen : length (firstn (p + 1) sql) = p + 1)
      by (rewrite length_firstn; lia).
    pose proof (steps_sh config (firstn (p + 1) sql) (skipn (p + 1) sql)
                  (finish st) _ _ Hrf) as Hsh.
    rewrite Esql, Elen in Hsh.
    assert (E0 : shift (p + 1) (finish st) initial = cut st).
    { unfold shift, cut, finish, initial. simpl. rewrite Hi.
      destruct (truthy (trim (current st))); now rewrite app_nil_r. }
    rewrite E0 in Hsh.
    rewrite <- finish_shift with (k := p + 1).
    apply split_at_end.
    + eapply steps_trans; [|exact Hsh].
      eapply steps_snoc; [exact Hr|lia|exact Hcut].
    + unfold shift. simpl. rewrite Hif, length_skipn. lia.
Qed.

Lemma split_at_separator_witness :
  separatorAt (SQL_PARSER_CONFIGS postgresql) (lit "a';';b;c") 4 /\
  exists before after,
    splitStatements (firstn 4 (lit "a';';b;c")) postgresql = Some before /\
    splitStatements (skipn (4 + 1) (lit "a';';b;c")) postgresql = Some after /\
    splitStatements (lit "a';';b;c") postgresql = Some (before ++ after).
Proof.
  assert (H : separatorAt (SQL_PARSER_CONFIGS postgresql) (lit "a';';b;c") 4).
  { split; [|reflexivity].
    exists (mkScan [] (lit "a';'") 4). split; [|reflexivity].
    eapply steps_next; [simpl; lia|reflexivity|].
    eapply steps_next; [simpl; lia|reflexivity|].
    apply steps_refl. }
  split; [exact H|].
  exact (split_at_separator (lit "a';';b;c") postgresql 4 H).
Defined.

(** * PostgreSQL type names (type-maps.ts) *)

From Stdlib Require Import DecimalString DecimalN.

Module TypeMaps.

Local Open Scope string_scope.

(** The object literal [PG_TYPE_MAP], in the order of the source.  Its
    keys are integer literals; a number indexes it through its decimal
    spelling, so the table is keyed here by the number itself. *)
Definition PG_TYPE_MAP : list (N * string) :=
  [ (16, "boolean"); (17, "bytea");
    (18, "char"); (19, "name"); (25, "text"); (1042, "char");
    (1043, "varchar");
    (20, "bigint"); (21, "smallint"); (23, "integer"); (24, "regproc");
    (26, "oid"); (700, "real"); (701, "double precision"); (790, "money");
    (1700, "numeric");
    (114, "json"); (142, "xml"); (3802, "jsonb");
    (600, "point"); (601, "lseg"); (602, "path"); (603, "box");
    (604, "polygon"); (628, "line"); (718, "circle");
    (650, "cidr"); (829, "macaddr"); (869, "inet");
    (1082, "date"); (1083, "time"); (1114, "timestamp");
    (1184, "timestamptz"); (1186, "interval"); (1266, "timetz");
    (1560, "bit"); (1562, "varbit");
    (2950, "uuid");
    (3904, "int4range"); (3906, "numrange"); (3908, "tsrange");
    (3910, "tstzrange"); (3912, "daterange"); (3926, "int8range");
    (199, "json[]"); (1000, "boolean[]"); (1001, "bytea[]");
    (1005, "smallint[]"); (1007, "integer[]"); (1009, "text[]");
    (1014, "char[]"); (1015, "varchar[]"); (1016, "bigint[]");
    (1021, "real[]"); (1022, "double precision[]"); (1028, "oid[]");
    (1115, "timestamp[]"); (1182, "date[]"); (1183, "time[]");
    (1231, "numeric[]"); (2951, "uuid[]"); (3807, "jsonb[]") ]%N.

(** [PG_TYPE_MAP[k]]: the value of the property, or [undefined]. *)
Fixpoint lookup (m : list (N * string)) (k : N) : option string :=
  match m with
  | [] => None
  | (k', v) :: m' => if N.eqb k k' then Some v else lookup m' k
  end.

(** The spelling of a number in a template literal.  [dataTypeID] is a
    PostgreSQL OID, a non-negative integer; up to [2^53 - 1] JavaScript
    writes such a number with its decimal digits. *)
Definition decimal (n : N) : string :=
  NilEmpty.string_of_uint (N.to_uint n).

Definition maxSafeInteger : N := 9007199254740991%N.

Definition resolvePostgresType (dataTypeID : N) : string :=
  match lookup PG_TYPE_MAP dataTypeID with
  | Some name => name
  | None => "unknown(" ++ decimal dataTypeID ++ ")"
  end.

(** No key is written twice in the literal, so no entry hides another. *)
Lemma PG_TYPE_MAP_keys : NoDup (map fst PG_TYPE_MAP).
Proof.
  assert (H : nodup N.eq_dec (map fst PG_TYPE_MAP) = map fst PG_TYPE_MAP)
    by (vm_compute; reflexivity).
  rewrite <- H. apply NoDup_nodup.
Qed.

Lemma lookup_In (m : list (N * string)) (k : N) (v : string) :
  lookup m k = Some v -> In (k, v) m.
Proof.
  induction m as [|[k' v'] m IH]; simpl; [discriminate|].
  destruct (N.eqb k k') eqn:E.
  - intros H. injection H as ->. apply N.eqb_eq in E. subst. now left.
  - intros H. right. now apply IH.
Qed.

Lemma names_not_unknown (k : N) (v : string) :
  In (k, v) PG_TYPE_MAP -> prefix "unknown(" v = false.
Proof.
  assert (H : forallb (fun kv => negb (prefix "unknown(" (snd kv))) PG_TYPE_MAP
              = true) by (vm_compute; reflexivity).
  rewrite forallb_forall in H. intros Hin.
  apply H in Hin. now apply negb_true_iff in Hin.
Qed.

Lemma decimal_inj (n m : N) : decimal n = decimal m -> n = m.
Proof.
  unfold decimal. intros H.
  apply DecimalN.Unsigned.to_uint_inj.
  assert (E : Some (N.to_uint n) = Some (N.to_uint m)).
  { rewrite <- !NilEmpty.usu. now rewrite H. }
  now injection E.
Qed.

Lemma append_inj_l (s t1 t2 : string) : s ++ t1 = s ++ t2 -> t1 = t2.
Proof.
  induction s as [|a s IH]; simpl; [auto|].
  intros H. injection H as H. now apply IH.
Qed.

Lemma append_inj_last (s1 s2 : string) (a : ascii) :
  s1 ++ String a "" = s2 ++ String a "" -> s1 = s2.
Proof.
  revert s2; induction s1 as [|b s1 IH]; intros [|c s2]; simpl; intros H.
  - reflexivity.
  - injection H as _ H. destruct s2; discriminate H.
  - injection H as _ H. destruct s1; discriminate H.
  - injection H as -> H. f_equal. now apply IH.
Qed.

(** X13: the answer has the shape [unknown(...)] exactly for the OIDs
    that are not in the table, and for those it keeps the OID: an OID
    that is not in the table never gets the answer of another OID. *)
Theorem unknown_oid_recognisable (n m : N) :
  (n <= maxSafeInteger)%N -> (m <= maxSafeInteger)%N ->
  (prefix "unknown(" (resolvePostgresType n) = true
   <-> lookup PG_TYPE_MAP n = None) /\
  (lookup PG_TYPE_MAP n = None ->
   resolvePostgresType n = resolvePostgresType m -> n = m).
Proof.
  intros _ _.
  assert (Hshape : forall k,
             prefix "unknown(" (resolvePostgresType k) = true
             <-> lookup PG_TYPE_MAP k = None).
  { intros k. unfold resolvePostgresType.
    destruct (lookup PG_TYPE_MAP k) as [v|] eqn:E.
    - apply lookup_In, names_not_unknown in E. rewrite E.
      split; discriminate.
    - split; [reflexivity|]. intros _. simpl.
      now destruct (decimal k ++ ")"). }
  split; [apply Hshape|].
  intros Hn Heq.
  assert (Hm : lookup PG_TYPE_MAP m = None).
  { apply Hshape. rewrite <- Heq. now apply Hshape. }
  unfold resolvePostgresType in Heq. rewrite Hn, Hm in Heq.
  apply append_inj_l, append_inj_last in Heq. now apply decimal_inj.
Qed.

Lemma unknown_oid_recognisable_witness :
  (prefix "unknown(" (resolvePostgresType 705) = true
   <-> lookup PG_TYPE_MAP 705 = None) /\
  (lookup PG_TYPE_MAP 705 = None ->
   resolvePostgresType 705 = resolvePostgresType 2249 -> 705%N = 2249%N).
Proof.
  apply (unknown_oid_recognisable 705 2249); vm_compute; discriminate.
Defined.

End TypeMaps.

(** * The statements of a CREATE TABLE script (ddl-handlers) *)

Module DDL.

(** The pattern [\s*\n\n] at the head of [s], as the backtracking matcher
    runs it: the star first takes one more white-space character and the
    rest of the pattern is tried after it; when that fails, the star
    stops here and the two newlines must follow.  The answer is the
    length of the match. *)
Fixpoint matchGap (s : jsstring) : option nat :=
  let here := if startsWith s [c_newline; c_newline] then Some 2 else None in
  match s with
  | c :: s' =>
      if isWhiteSpace c then
        match matchGap s' with
        | Some n => Some (S n)
        | None => here
        end
      else here
  | [] => here
  end.

(** The pattern [;\s*\n\n] at the head of [s]. *)
Definition matchSep (s : jsstring) : option nat :=
  match s with
  | c :: s' => if N.eqb c c_semicolon then option_map S (matchGap s') else None
  | [] => None
  end.

(** [sql.split(/;\s*\n\n/)]: the text is searched from left to right for
    the pattern; a match closes the piece collected so far and the search
    goes on after it.  [skip] counts the characters of a match still to
    pass over, [piece] is the piece under construction. *)
Fixpoint splitSep (s : jsstring) (skip : nat) (piece : jsstring)
  : list jsstring :=
  match s with
  | [] => [piece]
  | c :: s' =>
      match skip with
      | S k => splitSep s' k piece
      | O =>
          match matchSep s with
          | Some n => piece :: splitSep s' (n - 1) []
          | None => splitSep s' 0 (piece ++ [c])
          end
      end
  end.

(** [(s) => s.trim()] as a filter: the strings that are not blank. *)
Definition notBlank (s : jsstring) : bool := truthy (trim s).

(** An entry of the list handed to [executeTransaction]. *)
Record statement : Type := mkStatement {
  stmt_sql : jsstring;
  stmt_params : list jsstring
}.

(** The value of [stmtParams] in the handler of [db:create-table], as a
    function of the script that [buildCreateTable] returned. *)
Definition stmtParams (sql : jsstring) : list statement :=
  let statements := filter notBlank (splitSep sql 0 []) in
  map (fun stmt =>
         mkStatement
           (if endsWith (trim stmt) c_semicolon then stmt
            else stmt ++ [c_semicolon])
           [])
      (filter notBlank statements).

(** ** Properties *)

Lemma trimStart_snoc (s : jsstring) (c : N) :
  isWhiteSpace c = false ->
  exists t, trimStart (s ++ [c]) = t ++ [c].
Proof.
  intros Hc. induction s as [|d s [t IH]]; simpl.
  - rewrite Hc. now exists [].
  - destruct (isWhiteSpace d); [now exists t|]. now exists (d :: s).
Qed.

Lemma trimEnd_snoc (s : jsstring) (c : N) :
  isWhiteSpace c = false -> trimEnd (s ++ [c]) = s ++ [c].
Proof.
  intros Hc. unfold trimEnd. rewrite rev_app_distr. simpl. rewrite Hc.
  simpl. now rewrite rev_involutive.
Qed.

Lemma trim_snoc (s : jsstring) (c : N) :
  isWhiteSpace c = false ->
  endsWith (trim (s ++ [c])) c = true /\ notBlank (s ++ [c]) = true.
Proof.
  intros Hc. unfold notBlank, trim. rewrite (trimEnd_snoc s c Hc).
  destruct (trimStart_snoc s c Hc) as [t ->].
  split; [apply endsWith_snoc|now destruct t].
Qed.

(** X14: every statement handed to [executeTransaction] is not blank, its
    trimmed text ends with a semicolon, and it has no parameters. *)
Theorem executed_statements_terminated (sql : jsstring) :
  Forall (fun st =>
            notBlank (stmt_sql st) = true /\
            endsWith (trim (stmt_sql st)) c_semicolon = true /\
            stmt_params st = [])
         (stmtParams sql).
Proof.
  unfold stmtParams. apply Forall_forall. intros st Hin.
  apply in_map_iff in Hin. destruct Hin as (stmt & <- & Hin).
  apply filter_In in Hin. destruct Hin as [_ Hnb]. simpl.
  destruct (endsWith (trim stmt) c_semicolon) eqn:E.
  - auto.
  - destruct (trim_snoc stmt c_semicolon eq_refl) as [H1 H2]. auto.
Qed.

(** The text has no blank line: no two newlines follow each other. *)
Definition noBlankLine (s : jsstring) : bool :=
  match indexOf s [c_newline; c_newline] 0 with
  | None => true
  | Some _ => false
  end.

Lemma matchGap_needs_newlines (s : jsstring) (n : nat) :
  matchGap s = Some n ->
  exists k, startsWith (skipn k s) [c_newline; c_newline] = true.
Proof.
  revert n; induction s as [|c s IH]; intros n; cbn [matchGap].
  - destruct (startsWith [] [c_newline; c_newline]) eqn:E; [|discriminate].
    intros _. now exists 0.
  - destruct (startsWith (c :: s) [c_newline; c_newline]) eqn:E.
    + intros _. now exists 0.
    + destruct (isWhiteSpace c); [|discriminate].
      destruct (matchGap s) as [m|]; [|discriminate].
      intros _. destruct (IH m eq_refl) as [k Hk]. now exists (S k).
Qed.

Lemma startsWith_skipn_none (s t : jsstring) (k : nat) :
  (forall j, ~ occursAt s t j) -> t <> [] ->
  startsWith (skipn k s) t = false.
Proof.
  intros Hno Ht. destruct (startsWith (skipn k s) t) eqn:E; [|reflexivity].
  exfalso. destruct (Nat.le_gt_cases k (length s)) as [Hk|Hk].
  - apply (Hno k). now apply startsWith_occursAt.
  - rewrite skipn_all2 in E by lia. destruct t; [congruence|discriminate].
Qed.

Lemma splitSep_no_match (s piece : jsstring) :
  (forall t, (exists pre, s = pre ++ t) -> matchSep t = None) ->
  splitSep s 0 piece = [piece ++ s].
Proof.
  revert piece; induction s as [|c s IH]; intros piece H; cbn [splitSep].
  - now rewrite app_nil_r.
  - rewrite (H (c :: s)) by now exists [].
    rewrite IH.
    + now rewrite <- app_assoc.
    + intros t [pre ->]. apply H. now exists (c :: pre).
Qed.

(** X15: a script without a blank line is not cut at all, whatever
    semicolons it holds: when it is not blank it is handed over as one
    statement, with a semicolon added unless its trimmed text ends with
    one. *)
Theorem script_without_blank_line (sql : jsstring) :
  noBlankLine sql = true ->
  notBlank sql = true ->
  stmtParams sql
  = [mkStatement (if endsWith (trim sql) c_semicolon then sql
                  else sql ++ [c_semicolon]) []].
Proof.
  intros Hnb Hne. unfold noBlankLine in Hnb.
  destruct (indexOf sql [c_newline; c_newline] 0) eqn:Ei; [discriminate|].
  assert (Hno : forall j, ~ occursAt sql [c_newline; c_newline] j).
  { intros j. apply (indexOf_none _ _ _ (Nat.le_0_l _) Ei). lia. }
  assert (Hsplit : splitSep sql 0 [] = [sql]).
  { apply (splitSep_no_match sql []).
    intros t [pre ->]. destruct t as [|c t]; [reflexivity|]. simpl.
    destruct (N.eqb c c_semicolon); [|reflexivity].
    destruct (matchGap t) as [n|] eqn:Eg; [|reflexivity]. exfalso.
    destruct (matchGap_needs_newlines t n Eg) as [k Hk].
    assert (E : skipn k t = skipn (length pre + 1 + k) (pre ++ c :: t)).
    { replace (length pre + 1 + k) with (length pre + S k) by lia.
      rewrite skipn_app, (skipn_all2 pre) by lia. simpl.
      now replace (length pre + S k - length pre) with (S k) by lia. }
    rewrite E in Hk.
    rewrite (startsWith_skipn_none _ _ _ Hno) in Hk; [discriminate|discriminate]. }
  unfold stmtParams. rewrite Hsplit. simpl. rewrite Hne. simpl. now rewrite Hne.
Qed.

Lemma script_without_blank_line_witness :
  stmtParams (lit "CREATE TABLE t (a int);" ++ [c_newline] ++ lit "COMMENT ON t")
  = [mkStatement
       (if endsWith
             (trim (lit "CREATE TABLE t (a int);" ++ [c_newline] ++ lit "COMMENT ON t"))
             c_semicolon
        then lit "CREATE TABLE t (a int);" ++ [c_newline] ++ lit "COMMENT ON t"
        else (lit "CREATE TABLE t (a int);" ++ [c_newline] ++ lit "COMMENT ON t")
             ++ [c_semicolon]) []].
Proof.
  apply (script_without_blank_line
           (lit "CREATE TABLE t (a int);" ++ [c_newline] ++ lit "COMMENT ON t"));
    reflexivity.
Defined.


(** ** Nothing but the separators is cut out *)

(** A text that the pattern matches: a semicolon, white space, and two
    newlines. *)
Definition isSep (sep : jsstring) : Prop :=
  exists w, sep = c_semicolon :: w ++ [c_newline; c_newline] /\
            allWhiteSpace w = true.

(** The pieces with the separators put back between them. *)
Fixpoint weave (pieces seps : list jsstring) : jsstring :=
  match pieces, seps with
  | p :: ps, s :: ss => p ++ s ++ weave ps ss
  | p :: _, [] => p
  | [], _ => []
  end.

Lemma matchGap_spec (s : jsstring) (n : nat) :
  matchGap s = Some n ->
  n <= length s /\
  exists w, firstn n s = w ++ [c_newline; c_newline] /\
            allWhiteSpace w = true.
Proof.
  revert n; induction s as [|c s IH]; intros n; cbn [matchGap].
  - destruct (startsWith [] [c_newline; c_newline]) eqn:E; [discriminate E|discriminate].
  - assert (Hhere : (if startsWith (c :: s) [c_newline; c_newline]
                     then Some 2 else None) = Some n ->
                    n <= length (c :: s) /\
                    exists w, firstn n (c :: s) = w ++ [c_newline; c_newline] /\
                              allWhiteSpace w = true).
    { destruct (startsWith (c :: s) [c_newline; c_newline]) eqn:E; [|discriminate].
      intros H. injection H as <-.
      apply startsWith_firstn in E. destruct E as [E1 E2].
      split; [exact E1|]. exists []. split; [exact E2|reflexivity]. }
    destruct (isWhiteSpace c) eqn:Ec; [|exact Hhere].
    destruct (matchGap s) as [m|] eqn:Em; [|exact Hhere].
    intros H. injection H as <-.
    destruct (IH m eq_refl) as [Hm (w & Hw & Hws)].
    split; [simpl; lia|].
    exists (c :: w). simpl. rewrite Hw, Ec. auto.
Qed.

Lemma splitSep_skip (s : jsstring) (skip : nat) (piece : jsstring) :
  skip <= length s ->
  splitSep s skip piece = splitSep (skipn skip s) 0 piece.
Proof.
  revert skip; induction s as [|c s IH]; intros [|k] H; try reflexivity.
  cbn [splitSep skipn]. apply IH. simpl in H. lia.
Qed.

Lemma weave_cons (c : N) (p : jsstring) (ps seps : list jsstring) :
  weave ((c :: p) :: ps) seps = c :: weave (p :: ps) seps.
Proof. destruct seps; reflexivity. Qed.

Lemma splitSep_weave (n : nat) :
  forall s piece, length s <= n ->
    exists p0 ps seps,
      splitSep s 0 piece = (piece ++ p0) :: ps /\
      s = weave (p0 :: ps) seps /\
      length seps = length ps /\
      Forall isSep seps.
Proof.
  induction n as [|n IH]; intros s piece Hn.
  - destruct s; [|simpl in Hn; lia].
    exists [], [], []. simpl. rewrite app_nil_r. auto.
  - destruct s as [|c s].
    { exists [], [], []. simpl. rewrite app_nil_r. auto. }
    simpl in Hn. cbn [splitSep].
    destruct (matchSep (c :: s)) as [m|] eqn:Em.
    + simpl in Em. destruct (N.eqb c c_semicolon) eqn:Ec; [|discriminate].
      apply N.eqb_eq in Ec. subst c.
      destruct (matchGap s) as [g|] eqn:Eg; [|discriminate].
      injection Em as <-.
      destruct (matchGap_spec s g Eg) as [Hg (w & Hw & Hws)].
      replace (S g - 1) with g by lia.
      rewrite splitSep_skip by assumption.
      destruct (IH (skipn g s) []) as (p0 & ps & seps & H1 & H2 & H3 & H4).
      { rewrite length_skipn. lia. }
      exists [], (p0 :: ps), ((c_semicolon :: firstn g s) :: seps).
      rewrite H1, app_nil_r. split; [reflexivity|]. split.
      { change (weave ([] :: p0 :: ps) ((c_semicolon :: firstn g s) :: seps))
          with ([] ++ (c_semicolon :: firstn g s) ++ weave (p0 :: ps) seps).
        rewrite <- H2. simpl. now rewrite firstn_skipn. }
      split; [simpl; congruence|].
      constructor; [|assumption]. exists w. rewrite Hw. auto.
    + destruct (IH s (piece ++ [c])) as (p0 & ps & seps & H1 & H2 & H3 & H4);
        [lia|].
      exists (c :: p0), ps, seps.
      split; [rewrite H1, <- app_assoc; reflexivity|].
      split; [rewrite weave_cons; f_equal; exact H2|]. auto.
Qed.

(** X16: the split loses nothing but the separators: the script is its
    pieces with, between each two, a text the pattern matches (a
    semicolon, white space, two newlines). *)
Theorem split_keeps_text (sql : jsstring) :
  exists seps,
    sql = weave (splitSep sql 0 []) seps /\
    length (splitSep sql 0 []) = S (length seps) /\
    Forall isSep seps.
Proof.
  destruct (splitSep_weave (length sql) sql [] (Nat.le_refl _))
    as (p0 & ps & seps & H1 & H2 & H3 & H4).
  exists seps. rewrite H1. simpl. auto.
Qed.

End DDL.

(** * Saved queries (saved-queries-handlers.ts) *)

Module SavedQueries.



(** The answer of a handler: [{ success: true, data }] or
    [{ success: false, error }]. *)
Inductive response (A : Type) : Type :=
| Success (data : option A)
| Failure (error : jsstring).
Arguments Success {A} data.
Arguments Failure {A} error.


Section Handlers.

(** Modelled from the spec: the declaration of [SavedQuery], imported from
    [@shared/index], is not among the sources.  The handlers name four of
    its fields; whatever else a query holds is [rest], of a type [Rest]
    that stays a parameter.  Times are the milliseconds of [Date.now()]. *)
Variable Rest : Type.

Record SavedQuery : Type := mkQuery {
  id : jsstring;
  usageCount : N;
  lastUsedAt : option N;
  updatedAt : N;
  rest : Rest
}.







(** The handlers, as functions of the array that [store.get] reads (the
    empty array when nothing is stored) to the answer and the array that
    is stored afterwards.  The store is taken not to throw. *)
Definition store : Type := list SavedQuery.

Definition handleList (s : store) : response (list SavedQuery) * store :=
  (Success (Some s), s).





(** ** Properties *)








End Handlers.






End SavedQueries.
